(** * XStore: a shallow embedding of the transaction engine of src/os/XStore.cc

    The development follows the source file function by function.  Each
    module embeds one component of the engine (replay guards, the WAL
    classifier, the admission throttle, the error policy of the transaction
    applier, the checkpoint stanza of mount, object attributes, the snapshot
    pruning of the commit thread) and proves the properties stated for it.

    Conventions.
    - C integers are [Z]; an errno is the positive constant and a failing call
      returns its negation, as in the source ([-ENOENT]).
    - [assert] failures and [ceph_abort] are modelled by [None] in an [option]
      result (the process dies, there is no state afterwards).
    - [std::map<string, T>] is [gmap string T]; where the source iterates over
      a map, the iteration list is made explicit. *)

From stdpp Require Import gmap strings list sorting.
From Stdlib Require Import ZArith Lia.
From Stdlib Require Ascii DecimalString DecimalZ DecimalPos DecimalFacts.

Local Open Scope Z_scope.

(** ** errno values (Linux, <errno.h>) *)

Definition ENOENT : Z := 2.
Definition EIO : Z := 5.
Definition E2BIG : Z := 7.
Definition EEXIST : Z := 17.
Definition EINVAL : Z := 22.
Definition EMFILE : Z := 24.
Definition ENOSPC : Z := 28.
Definition ERANGE : Z := 34.
Definition ENOTEMPTY : Z := 39.
Definition ENODATA : Z := 61.
Definition EOPNOTSUPP : Z := 95.
Definition ENOTSUP : Z := EOPNOTSUPP.

(** The three switches of the engine that the modelled functions read:
    [replaying] (set by mount around journal replay),
    [backend->can_checkpoint()] and [m_filestore_fail_eio]. *)
Record engine := Engine {
  replaying : bool;
  can_checkpoint : bool;
  m_filestore_fail_eio : bool
}.

(** ** Replay guards *)

Module ReplayGuard.

(** Modelled from the spec: [SequencerPosition] is declared in
    SequencerPosition.h, outside src.  The source builds it as
    [spos(op_seq, trans_num, 0)] and increments [spos.op]; the spec calls it
    the (sequence, op-index) position that labels replay guards.  It is the
    triple (seq, trans, op) compared lexicographically. *)
Record SequencerPosition := SPos { seq : Z; trans : Z; op : Z }.

Definition pos_compare (a b : SequencerPosition) : comparison :=
  match seq a ?= seq b with
  | Eq => match trans a ?= trans b with
          | Eq => op a ?= op b
          | c => c
          end
  | c => c
  end.

(** [a > b], [a == b] and [a >= b] of the source. *)
Definition pos_gt (a b : SequencerPosition) : bool :=
  match pos_compare a b with Gt => true | _ => false end.
Definition pos_eq (a b : SequencerPosition) : bool :=
  match pos_compare a b with Eq => true | _ => false end.
Definition pos_ge (a b : SequencerPosition) : bool :=
  match pos_compare a b with Lt => false | _ => true end.

(** Strictly older, and older-or-equal, as propositions. *)
Definition pos_lt (a b : SequencerPosition) : Prop := pos_compare a b = Lt.
Definition pos_le (a b : SequencerPosition) : Prop := pos_compare a b <> Gt.

(** The decoded value of the guard xattr [user.cephos.seq]: the position and
    the in_progress flag.  Journals of older versions wrote the position
    alone, then the flag is missing ([None]). *)
Record guard := Guard {
  g_pos : SequencerPosition;
  g_in_progress : option bool
}.

(** What [chain_fgetxattr(fd, REPLAY_GUARD_XATTR, ...)] gives back: a
    negative errno, or the bytes that decode to a guard. *)
Definition xattr_result : Type := Z + guard.

(** The guard xattr of an open file or directory. *)
Definition chain_fgetxattr_guard (x : option guard) : xattr_result :=
  match x with
  | None => inl (- ENODATA)
  | Some g => inr g
  end.

(** [XStore::_check_replay_guard(int fd, const SequencerPosition& spos)].
    The argument [r] is the result of reading the guard xattr of [fd]. *)
Definition _check_replay_guard (e : engine) (r : xattr_result)
    (spos : SequencerPosition) : option Z :=
  if negb (replaying e) || can_checkpoint e then Some 1
  else
    match r with
    | inl err =>
        (* assert(!m_filestore_fail_eio || r != -EIO) *)
        if m_filestore_fail_eio e && (err =? - EIO) then None
        else Some 1
    | inr g =>
        let opos := g_pos g in
        let in_progress := default false (g_in_progress g) in
        if pos_gt opos spos then Some (-1)
        else if pos_eq opos spos then
          if in_progress then Some 0 else Some (-1)
        else Some 1
    end.

(** [XStore::_set_replay_guard(int fd, spos, hoid, in_progress)]: the new
    content of the guard xattr of [fd].  The fsync and object-map sync around
    the write do not touch the xattr. *)
Definition _set_replay_guard (e : engine) (old : option guard)
    (spos : SequencerPosition) (in_progress : bool) : option guard :=
  if can_checkpoint e then old
  else Some (Guard spos (Some in_progress)).

(** [XStore::_close_replay_guard(int fd, spos)]. *)
Definition _close_replay_guard (e : engine) (old : option guard)
    (spos : SequencerPosition) : option guard :=
  if can_checkpoint e then old
  else
    let in_progress := false in
    Some (Guard spos (Some in_progress)).

(** *** Guards in the store

    For the guards, an object is the guard xattr of its inode, and a
    collection is a directory with its own guard xattr, the global guard
    xattr [user.cephos.gseq] and the objects the index finds in it. *)
Abbreviation coll_t := string (only parsing).
Abbreviation ghobject_t := string (only parsing).

Record object := Obj { o_guard : option guard }.

Record collection := Coll {
  c_gguard : option SequencerPosition;
  c_guard : option guard;
  c_objects : gmap ghobject_t object
}.

(** [lfn_open(cid, oid, false, &fd)]: the object the index finds, if the
    collection and the object exist. *)
Definition lfn_open (st : gmap coll_t collection) (cid : coll_t)
    (oid : ghobject_t) : option object :=
  st !! cid ≫= λ c, c_objects c !! oid.

(** [XStore::_check_global_replay_guard(cid, spos)]. *)
Definition _check_global_replay_guard (e : engine)
    (st : gmap coll_t collection) (cid : coll_t)
    (spos : SequencerPosition) : option Z :=
  if negb (replaying e) || can_checkpoint e then Some 1
  else
    match st !! cid with
    | None => Some 1   (* the collection does not exist: no guard *)
    | Some c =>
        match c_gguard c with
        | None => Some 1   (* no xattr *)
        | Some opos => Some (if pos_ge spos opos then 1 else -1)
        end
    end.

(** [XStore::_check_replay_guard(cid, oid, spos)]. *)
Definition _check_replay_guard_obj (e : engine)
    (st : gmap coll_t collection) (cid : coll_t) (oid : ghobject_t)
    (spos : SequencerPosition) : option Z :=
  if negb (replaying e) || can_checkpoint e then Some 1
  else
    r ← _check_global_replay_guard e st cid spos;
    if r <? 0 then Some r
    else
      match lfn_open st cid oid with
      | None => Some 1   (* the file does not exist: no guard *)
      | Some o =>
          _check_replay_guard e (chain_fgetxattr_guard (o_guard o)) spos
      end.

(** [XStore::_check_replay_guard(cid, spos)], on the collection directory. *)
Definition _check_replay_guard_coll (e : engine)
    (st : gmap coll_t collection) (cid : coll_t)
    (spos : SequencerPosition) : option Z :=
  if negb (replaying e) || can_checkpoint e then Some 1
  else
    match st !! cid with
    | None => Some 1
    | Some c => _check_replay_guard e (chain_fgetxattr_guard (c_guard c)) spos
    end.

(** Writing back the inode of an object of a collection. *)
Definition put_object (st : gmap coll_t collection) (cid : coll_t)
    (oid : ghobject_t) (o : object) : gmap coll_t collection :=
  match st !! cid with
  | None => st
  | Some c =>
      <[cid := Coll (c_gguard c) (c_guard c) (<[oid := o]> (c_objects c))]> st
  end.

(** [XStore::_clone(cid, oldoid, newoid, spos)], as far as the guards go.
    [copy_r] is the value of [r] left by the steps between opening the two
    files and recording the guard (ftruncate, _do_clone_range, the object-map
    clone, the copy of the xattrs): a negative value jumps to [out3] and
    skips the guard.  The result is the returned [r] and the store. *)
Definition _clone (e : engine) (st : gmap coll_t collection) (cid : coll_t)
    (oldoid newoid : ghobject_t) (spos : SequencerPosition) (copy_r : Z)
    : option (Z * gmap coll_t collection) :=
  c ← _check_replay_guard_obj e st cid newoid spos;
  if c <? 0 then Some (0, st)
  else
    match lfn_open st cid oldoid with
    | None => Some (- ENOENT, st)
    | Some _ =>
        (* lfn_open(cid, newoid, true, &n, &index) creates a missing file *)
        let n := default (Obj None) (lfn_open st cid newoid) in
        if copy_r <? 0 then
          (* assert(!m_filestore_fail_eio || r != -EIO) *)
          if m_filestore_fail_eio e && (copy_r =? - EIO) then None
          else Some (copy_r, put_object st cid newoid n)
        else
          (* clone is non-idempotent; record our work. *)
          let n' := Obj (_set_replay_guard e (o_guard n) spos false) in
          Some (copy_r, put_object st cid newoid n')
    end.

(** The position stored for an object, if it has a guard. *)
Definition stored_pos (st : gmap coll_t collection) (cid : coll_t)
    (oid : ghobject_t) : option SequencerPosition :=
  lfn_open st cid oid ≫= λ o, g_pos <$> o_guard o.

End ReplayGuard.

(** ** Transactions *)

Module Transaction.

(** Modelled from the spec: the opcodes [Transaction::OP_*] are an enum of
    ObjectStore.h, outside src.  The constructors are the opcodes that
    XStore.cc names; [OP_OTHER] stands for any other value of the 32-bit
    field [op->op]. *)
Inductive opcode :=
  | OP_NOP | OP_TOUCH | OP_WRITE | OP_ZERO | OP_TRIMCACHE | OP_TRUNCATE
  | OP_REMOVE | OP_SETATTR | OP_SETATTRS | OP_RMATTR | OP_RMATTRS
  | OP_CLONE | OP_CLONERANGE | OP_CLONERANGE2
  | OP_MKCOLL | OP_COLL_HINT | OP_RMCOLL
  | OP_COLL_ADD | OP_COLL_REMOVE | OP_COLL_MOVE | OP_COLL_MOVE_RENAME
  | OP_COLL_SETATTR | OP_COLL_RMATTR | OP_STARTSYNC | OP_COLL_RENAME
  | OP_OMAP_CLEAR | OP_OMAP_SETKEYS | OP_OMAP_RMKEYS | OP_OMAP_RMKEYRANGE
  | OP_OMAP_SETHEADER | OP_SPLIT_COLLECTION | OP_SPLIT_COLLECTION2
  | OP_SETALLOCHINT | OP_WRITE_AHEAD
  | OP_OTHER (code : Z).

#[export] Instance opcode_eq_dec : EqDecision opcode.
Proof. solve_decision. Defined.

(** A transaction, as far as [_should_wal] reads it: the [use_tbl] flag and
    the opcodes of its op buffer [op_bl] ([data.ops] is their number). *)
Record t := Txn {
  get_use_tbl : bool;
  op_bl : list opcode
}.

End Transaction.

(** ** The WAL classifier *)

Module Wal.
Import Transaction.

(** [uint32_t not_wal_ops[] = {OP_WRITE, OP_SETATTRS, OP_OMAP_SETKEYS}]. *)
Definition not_wal_ops : list opcode := [OP_WRITE; OP_SETATTRS; OP_OMAP_SETKEYS].

(** [sizeof(not_wal_ops) / sizeof(uint32_t)]. *)
Definition not_wal_ops_len : nat := length not_wal_ops.

(** Reading [not_wal_ops[j]].  The array lives on the stack: a read at
    [j >= 3] is outside it and yields whatever lies there, [junk]. *)
Definition read_not_wal_ops (junk : opcode) (j : nat) : opcode :=
  default junk (not_wal_ops !! j).

(** The scan [for (uint32_t i = 0, j = 0; i < ops; i++)] of [_should_wal]
    over the contiguous op buffer.  [reads] collects, in order, every index
    at which [not_wal_ops] is read.  The result is the final [wal] and the
    indices read.  The three operands of the [||] are evaluated left to
    right and only as far as needed, as in C++. *)
Fixpoint scan (junk : opcode) (ops : list opcode) (i j : nat)
    (reads : list nat) : bool * list nat :=
  match ops with
  | [] => (false, reads)
  | op :: rest =>
      if bool_decide (i = 2%nat) && bool_decide (op = OP_OMAP_RMKEYS) then
        scan junk rest (S i) j reads                       (* continue *)
      else if bool_decide (op = OP_WRITE_AHEAD) then
        (true, reads)
      else
        let reads := reads ++ [j] in
        if bool_decide (op ≠ read_not_wal_ops junk j) then (true, reads)
        else if bool_decide (not_wal_ops_len ≤ i)%nat then (true, reads)
        else scan junk rest (S i) (S j) reads
  end.

(** The first loop of [_should_wal]: append the op buffers until a
    transaction uses the table encoding.  [None] is [wal = true; break]. *)
Fixpoint gather (tls : list t) (ops_bl : list opcode) : option (list opcode) :=
  match tls with
  | [] => Some ops_bl
  | p :: tls =>
      if get_use_tbl p then None
      else gather tls (ops_bl ++ op_bl p)
  end.

(** [XStore::_should_wal(list<Transaction*> &tls)], with the indices of
    [not_wal_ops] it read. *)
Definition _should_wal_trace (junk : opcode) (tls : list t) : bool * list nat :=
  match gather tls [] with
  | None => (true, [])
  | Some ops_bl => scan junk ops_bl 0 0 []
  end.

Definition _should_wal (junk : opcode) (tls : list t) : bool :=
  fst (_should_wal_trace junk tls).

End Wal.

(** ** The admission throttle *)

Module Throttle.

(** Arithmetic on [uint64_t]. *)
Definition u64 (x : Z) : Z := x mod 2 ^ 64.

(** The four recognised options. *)
Record config := Config {
  m_filestore_queue_max_ops : Z;
  m_filestore_queue_max_bytes : Z;
  m_filestore_queue_committing_max_ops : Z;
  m_filestore_queue_committing_max_bytes : Z
}.

(** The counters protected by [op_throttle_lock]. *)
Record state := State {
  op_queue_len : Z;
  op_queue_bytes : Z
}.

(** The ceilings [max_ops] and [max_bytes] that a call of
    [op_queue_reserve_throttle] computes before it takes the lock. *)
Definition ceilings (cfg : config) (can_checkpoint is_committing : bool) : Z * Z :=
  let max_ops := u64 (m_filestore_queue_max_ops cfg) in
  let max_bytes := u64 (m_filestore_queue_max_bytes cfg) in
  if can_checkpoint && is_committing then
    (u64 (max_ops + m_filestore_queue_committing_max_ops cfg),
     u64 (max_bytes + m_filestore_queue_committing_max_bytes cfg))
  else (max_ops, max_bytes).

(** The condition of the [while] loop around [op_throttle_cond.Wait]. *)
Definition must_wait (max_ops max_bytes : Z) (st : state) (o_bytes : Z) : bool :=
  (negb (max_ops =? 0) && (u64 (op_queue_len st + 1) >? max_ops))
  || (negb (max_bytes =? 0) && negb (op_queue_bytes st =? 0)
      && (u64 (op_queue_bytes st + o_bytes) >? max_bytes)).

(** [XStore::op_queue_reserve_throttle(Op *o, handle)] for an op of
    [o_bytes] bytes.  While the condition holds the caller sleeps on the
    condition variable: no admission, [None].  Otherwise the op is admitted
    and the counters are bumped. *)
Definition op_queue_reserve_throttle (cfg : config)
    (can_checkpoint is_committing : bool) (st : state) (o_bytes : Z)
    : option state :=
  let '(max_ops, max_bytes) := ceilings cfg can_checkpoint is_committing in
  if must_wait max_ops max_bytes st o_bytes then None
  else Some (State (u64 (op_queue_len st + 1))
                   (u64 (op_queue_bytes st + o_bytes))).

(** [XStore::op_queue_release_throttle(Op *o)]. *)
Definition op_queue_release_throttle (st : state) (o_bytes : Z) : state :=
  State (u64 (op_queue_len st - 1)) (u64 (op_queue_bytes st - o_bytes)).

(** A history of the throttle: the calls that returned, in the order in
    which they held [op_throttle_lock].  A reserve that must wait has not
    returned and is not part of the history.  A release is the one that
    [_finish_op] makes for an op in flight, the [i]-th admitted and not yet
    released. *)
Inductive call :=
  | Reserve (o_bytes : Z) (is_committing : bool)
  | Release (i : nat).

(** The counters and the bytes of the ops in flight after a history. *)
Fixpoint run (cfg : config) (can_checkpoint : bool) (st : state)
    (in_flight : list Z) (calls : list call) : option (state * list Z) :=
  match calls with
  | [] => Some (st, in_flight)
  | Reserve o_bytes is_committing :: calls =>
      st' ← op_queue_reserve_throttle cfg can_checkpoint is_committing st
              o_bytes;
      run cfg can_checkpoint st' (in_flight ++ [o_bytes]) calls
  | Release i :: calls =>
      o_bytes ← in_flight !! i;
      run cfg can_checkpoint (op_queue_release_throttle st o_bytes)
          (delete i in_flight) calls
  end.

End Throttle.

(** ** The error policy of the transaction applier *)

Module Applier.
Import Transaction.

(** One trip through the loop of [_do_transaction]: the decoded opcode, the
    value [r] that the [switch] leaves (the result of the object primitive
    it called, 0 when the replay guard skipped it) and, for an [OP_WRITE],
    whether it wrote, that is whether the replay guard let it through and
    [!o || o->state == Op::STATE_INIT || o->wal] held. *)
Record step := Step {
  s_op : opcode;
  s_r : Z;
  s_pause : bool
}.

(** Whether the case of the [switch] sets [do_txn_pause]: no case but
    [OP_WRITE] does, and [OP_WRITE] does when it writes. *)
Definition pauses (s : step) : bool :=
  bool_decide (s_op s = OP_WRITE) && s_pause s.

(** Opcodes with a [case] in the [switch]; the others reach [default:]
    and [assert(0)]. *)
Definition has_case (op : opcode) : bool :=
  match op with
  | OP_COLL_REMOVE | OP_WRITE_AHEAD | OP_OTHER _ => false
  | _ => true
  end.

(** What the applier prints before it dies, or the assertion that fails. *)
Inductive event :=
  | LogBadOp
  | LogNotHandled (r : Z)
  | LogMsg (msg : string)
  | DumpTransaction
  | DumpOpenFds
  | AssertWriteInit
  | AssertPause.

(** The assertion of the [OP_WRITE] case:
    [if (o && o->state == Op::STATE_INIT) assert(trans_num == 0 && spos.op == 0)],
    with [n] the value of [spos.op]; every other case lets it hold. *)
Definition write_assert (o_init : bool) (trans_num : Z) (n : nat)
    (op : opcode) : bool :=
  if bool_decide (op = OP_WRITE) && o_init
  then (trans_num =? 0) && (Z.of_nat n =? 0)
  else true.

(** The block [if (r < 0) { bool ok = false; ... }] up to the decision. *)
Definition error_ok (e : engine) (op : opcode) (r : Z) : bool :=
  let ok := false in
  let ok :=
    if (r =? - ENOENT)
       && negb (bool_decide (op = OP_CLONERANGE) || bool_decide (op = OP_CLONE)
                || bool_decide (op = OP_CLONERANGE2) || bool_decide (op = OP_COLL_ADD))
    then true else ok in
  let ok := if r =? - ENODATA then true else ok in
  let ok := if bool_decide (op = OP_SETALLOCHINT) then true else ok in
  if replaying e && negb (can_checkpoint e) then
    let ok := if (r =? - EEXIST) && bool_decide (op = OP_MKCOLL) then true else ok in
    let ok := if (r =? - EEXIST) && bool_decide (op = OP_COLL_ADD) then true else ok in
    let ok := if (r =? - EEXIST) && bool_decide (op = OP_COLL_MOVE) then true else ok in
    let ok := if r =? - ERANGE then true else ok in
    let ok := if r =? - ENOENT then true else ok in
    ok
  else ok.

(** The message chosen in the [if (!ok)] block. *)
Definition error_msg (op : opcode) (r : Z) : string :=
  let msg := "unexpected error code"%string in
  let msg :=
    if (r =? - ENOENT)
       && (bool_decide (op = OP_CLONERANGE) || bool_decide (op = OP_CLONE)
           || bool_decide (op = OP_CLONERANGE2))
    then "ENOENT on clone suggests osd bug"%string else msg in
  let msg :=
    if r =? - ENOSPC then "ENOSPC handling not implemented"%string else msg in
  let msg :=
    if r =? - ENOTEMPTY
    then "ENOTEMPTY suggests garbage data in osd data dir"%string else msg in
  msg.

(** The output of the [if (!ok)] block, which ends in
    [assert(0 == "unexpected error")]. *)
Definition fatal_log (op : opcode) (r : Z) : list event :=
  [LogNotHandled r; LogMsg (error_msg op r); DumpTransaction]
  ++ (if r =? - EMFILE then [DumpOpenFds] else []).

(** How a call of [_do_transaction] ends: it returns 0 after [applied] trips
    through the loop, with the final [do_txn_pause], or the process aborts
    with the given output. *)
Inductive outcome :=
  | Returned (applied : nat) (do_txn_pause : bool)
  | Aborted (log : list event).

(** The loop [while (i.have_op() && !do_txn_pause)] of
    [XStore::_do_transaction]; [n] counts the trips made and is the value
    of [spos.op].  [o_init] is [o && o->state == Op::STATE_INIT]. *)
Fixpoint do_transaction_loop (e : engine) (o_init : bool) (trans_num : Z)
    (ops : list step) (n : nat) : outcome :=
  match ops with
  | [] => Returned n false
  | s :: rest =>
      if negb (has_case (s_op s)) then Aborted [LogBadOp]
      else if negb (write_assert o_init trans_num n (s_op s)) then
        Aborted [AssertWriteInit]
      else if (s_r s <? 0) && negb (error_ok e (s_op s) (s_r s)) then
        Aborted (fatal_log (s_op s) (s_r s))
      else if pauses s then Returned (S n) true
      else do_transaction_loop e o_init trans_num rest (S n)
  end.

(** [XStore::_do_transaction(t, op_seq, trans_num, o, handle)]; after the
    loop the source asserts [do_txn_pause && trans_num == 0] for an op in
    state INIT. *)
Definition _do_transaction (e : engine) (o_init : bool) (trans_num : Z)
    (ops : list step) : outcome :=
  match do_transaction_loop e o_init trans_num ops 0 with
  | Returned n paused =>
      if o_init && negb (paused && (trans_num =? 0)) then Aborted [AssertPause]
      else Returned n paused
  | Aborted log => Aborted log
  end.

(** A trip, the one numbered [n], that lets the loop go on: the opcode has
    a case, the assertion of [OP_WRITE] holds, the error policy lets the
    result pass, and the trip does not pause the transaction. *)
Definition passes (e : engine) (o_init : bool) (trans_num : Z) (n : nat)
    (s : step) : bool :=
  has_case (s_op s)
  && write_assert o_init trans_num n (s_op s)
  && negb ((s_r s <? 0) && negb (error_ok e (s_op s) (s_r s)))
  && negb (pauses s).

(** Every trip of [pre] passes, the first being numbered [n]. *)
Fixpoint all_pass (e : engine) (o_init : bool) (trans_num : Z) (n : nat)
    (pre : list step) : bool :=
  match pre with
  | [] => true
  | s :: pre =>
      passes e o_init trans_num n s && all_pass e o_init trans_num (S n) pre
  end.

End Applier.

(** ** The checkpoint stanza of mount *)

Module Mount.

(** A name returned by [backend->list_checkpoints(ls)], as the two [sscanf]
    calls of mount classify it: [COMMIT_SNAP_ITEM] ("snap_%lld") with its
    number, else [CLUSTER_SNAP_ITEM] ("clustersnap_%s"), else neither.  The
    string is the whole name. *)
Inductive checkpoint_name :=
  | CommitSnap (c : Z)
  | ClusterSnap (name : string)
  | OtherName (name : string).

#[export] Instance checkpoint_name_eq_dec : EqDecision checkpoint_name.
Proof. solve_decision. Defined.

(** The name handed to [backend->rollback_to]: [snprintf] of
    [COMMIT_SNAP_ITEM] with a sequence number, or of [CLUSTER_SNAP_ITEM]
    with the configured string.  As in [ClusterSnap], the string of
    [ToClusterSnap] is the whole name of the checkpoint. *)
Inductive rollback_target :=
  | ToCommitSnap (cp : Z)
  | ToClusterSnap (name : string).

(** [snprintf(s, sizeof(s), CLUSTER_SNAP_ITEM, name.c_str())], for a name
    that fits [char s[NAME_MAX]]. *)
Definition cluster_snap_name (name : string) : string :=
  "clustersnap_" +:+ name.

(** What the stanza reads: the backend capability and its listing, the two
    options, whether [stat] finds current/nosnap, and the result that
    [backend->rollback_to] would give.  The deque [snaps] of the engine is
    empty when mount starts. *)
Record input := Input {
  can_checkpoint : bool;
  ls : list checkpoint_name;
  m_osd_rollback_to_cluster_snap : string;
  m_osd_use_stale_snap : bool;
  nosnap_exists : bool;
  rollback_to : rollback_target -> Z
}.

(** How the stanza ends: an assertion fails, mount returns [ret] through
    [close_basedir_fd], or mount goes on, having rolled back or not. *)
Inductive result :=
  | AssertFailed
  | Refused (ret : Z)
  | Proceeds (rolled_back_to : option rollback_target).

(** The loop over [ls]: [snaps] and [cluster_snaps] after it, unless
    [assert(c > prev)] fails. *)
Fixpoint scan_checkpoints (l : list checkpoint_name) (prev : Z)
    (snaps : list Z) (cluster_snaps : gset string)
    : option (list Z * gset string) :=
  match l with
  | [] => Some (snaps, cluster_snaps)
  | CommitSnap c :: l =>
      if c >? prev then scan_checkpoints l c (snaps ++ [c]) cluster_snaps
      else None
  | ClusterSnap name :: l =>
      scan_checkpoints l prev snaps ({[name]} ∪ cluster_snaps)
  | OtherName _ :: l => scan_checkpoints l prev snaps cluster_snaps
  end.

(** The sequence numbers of the [snap_<seq>] checkpoints of a listing. *)
Definition commit_seqs (l : list checkpoint_name) : list Z :=
  omap (λ n, match n with CommitSnap c => Some c | _ => None end) l.

(** What the stanza decides before it touches the backend: to fail with
    [ret], to go on without a rollback, or to roll back to a checkpoint. *)
Inductive decision :=
  | Refuse (ret : Z)
  | NoRollback
  | Rollback (s : rollback_target).

(** Lines 1317-1377 of [XStore::mount]: from the cluster-snapshot test to
    the name [s] of the checkpoint to roll back to. *)
Definition rollback_decision (i : input) (snaps : list Z)
    (cluster_snaps : gset string) : decision :=
  let want_cluster :=
    negb (String.length (m_osd_rollback_to_cluster_snap i) =? 0)%nat in
  if want_cluster
     && bool_decide (m_osd_rollback_to_cluster_snap i ∉ cluster_snaps)
  then Refuse (- ENOENT)
  else if can_checkpoint i then
    match last snaps with
    | None => NoRollback          (* snaps.empty(): only a warning *)
    | Some cp =>
        if want_cluster then
          Rollback (ToClusterSnap
                      (cluster_snap_name (m_osd_rollback_to_cluster_snap i)))
        else if nosnap_exists i && negb (m_osd_use_stale_snap i) then
          Refuse (- ENOTSUP)
        else Rollback (ToCommitSnap cp)
    end
  else NoRollback.

(** Lines 1297-1387 of [XStore::mount]. *)
Definition mount_checkpoints (i : input) : result :=
  match scan_checkpoints (ls i) 0 [] ∅ with
  | None => AssertFailed
  | Some (snaps, cluster_snaps) =>
      match rollback_decision i snaps cluster_snaps with
      | Refuse ret => Refused ret
      | NoRollback => Proceeds None
      | Rollback s =>
          let ret := rollback_to i s in
          if ret =? 0 then Proceeds (Some s) else Refused ret
      end
  end.

End Mount.

(** ** Snapshot pruning in the commit thread *)

Module SyncEntry.

(** The calls made on the backend by one cycle, in order. *)
Inductive backend_call :=
  | CreateCheckpoint (cp : Z)
  | DestroyCheckpoint (cp : Z).

(** The loop [while (snaps.size() > 2)] at the end of a commit: the front of
    the deque is popped and its checkpoint destroyed.  [destroy_checkpoint]
    may fail: the source prints the error and goes on, [snaps] has lost its
    front either way. *)
Fixpoint prune_snaps (snaps : list Z) (calls : list backend_call)
    : list Z * list backend_call :=
  match snaps with
  | [] => (snaps, calls)
  | front :: rest =>
      if (2 <? length snaps)%nat then
        prune_snaps rest (calls ++ [DestroyCheckpoint front])
      else (snaps, calls)
  end.

(** One trip through the body of [XStore::sync_entry] after [again:], as far
    as the deque [snaps] and the backend calls go.  [commit_start] is the
    result of [apply_manager.commit_start()], [cp] the committing sequence.
    The other effects of the cycle (op-seq file, kv-store sync, timers) do
    not touch either.  An error of [write_op_seq], [create_checkpoint] or
    [sync_checkpoint] is an assertion failure that ends the process; this
    is the cycle that runs to its end. *)
Definition sync_entry_cycle (can_checkpoint commit_start : bool) (cp : Z)
    (snaps : list Z) : list Z * list backend_call :=
  if commit_start then
    let '(snaps, calls) :=
      if can_checkpoint then (snaps ++ [cp], [CreateCheckpoint cp])
      else (snaps, []) in
    if can_checkpoint then prune_snaps snaps calls
    else (snaps, calls)
  else (snaps, []).

(** Modelled from the spec: the backend adapter is outside src.  Its
    [snap_<seq>] checkpoints are a list of sequence numbers, oldest first;
    [create_checkpoint] adds one and [destroy_checkpoint] removes the one
    named, when they succeed. *)
Fixpoint remove_checkpoint (cp : Z) (disk : list Z) : list Z :=
  match disk with
  | [] => []
  | c :: disk => if c =? cp then disk else c :: remove_checkpoint cp disk
  end.

Definition backend_apply (disk : list Z) (c : backend_call) : list Z :=
  match c with
  | CreateCheckpoint cp => disk ++ [cp]
  | DestroyCheckpoint cp => remove_checkpoint cp disk
  end.

End SyncEntry.

(** ** Object attributes: inline xattrs and the kv-store overflow *)

Module Attrs.

Abbreviation bufferptr := (list Byte.byte) (only parsing).
Abbreviation coll_t := string (only parsing).
Abbreviation ghobject_t := string (only parsing).

(** The values of the sentinel xattr [user.cephos.spill_out]. *)
Definition XATTR_NO_SPILL_OUT : string := "0".
Definition XATTR_SPILL_OUT : string := "1".

(** An object file, as far as attributes go: the attributes stored as
    xattrs [user.ceph.<name>], keyed by [<name>], and the sentinel xattr. *)
Record file := File {
  xattrs : gmap string bufferptr;
  spill_out_xattr : option string
}.

(** The store: per collection and object the file that
    [lfn_open(cid, oid, false, &fd)] opens, be it through the fd cache or
    through the index, and the attributes the kv store ([object_map]) holds
    per object.  The calls below are calls for one object, which open one
    file; nothing is said of the other names that a file may have (the fd
    cache and hard links are in [FileData]).

    Modelled from the spec: chain_xattr.cc and DBObjectMap are outside src.
    Both are taken as finite maps.  A call that reads or removes fails only
    for what is missing ([-ENODATA] for an absent xattr, [-ENOENT] for an
    object the kv store does not know); a call that writes answers what the
    [backend] below says.  [get_attrname] and [parse_attrname] are extern
    too: they add and strip the prefix [user.ceph.], and a C string handed
    to [get_attrname] is short enough for the name buffer, so that C
    strings and xattr names correspond one to one. *)
Record store := Store {
  files : gmap (coll_t * ghobject_t) file;
  object_map : gmap ghobject_t (gmap string bufferptr)
}.

Record config := Config {
  m_filestore_max_inline_xattr_size : Z;
  m_filestore_max_inline_xattrs : Z;
  m_filestore_fail_eio : bool;
  (** [g_conf->filestore_debug_inject_read_err && debug_mdata_eio(oid)] *)
  debug_mdata_eio : ghobject_t -> bool
}.

(** [name.c_str()] read as a C string: the characters of the [std::string]
    up to its first NUL. *)
Fixpoint c_str (name : string) : string :=
  match name with
  | EmptyString => EmptyString
  | String c name =>
      if Strings.Ascii.eqb c Strings.Ascii.zero then EmptyString
      else String c (c_str name)
  end.

(** Modelled from the spec: what the writing calls into chain_xattr.cc and
    DBObjectMap return.  A value below 0 is an error, and the call has then
    written nothing. *)
Record backend := Backend {
  (** [chain_fsetxattr(fd, n, val, len, chunks)] for the xattr
      [user.ceph.<name>], by [<name>] and value *)
  chain_fsetxattr_r : string -> bufferptr -> Z;
  (** [chain_fsetxattr(fd, XATTR_SPILL_OUT_NAME, XATTR_SPILL_OUT, ...)] *)
  set_spill_out_r : Z;
  (** [object_map->set_xattrs(oid, to_set, &spos)] *)
  set_xattrs_r : ghobject_t -> gmap string bufferptr -> Z
}.

(** The backend whose writes all go through. *)
Definition reliable : backend := Backend (λ _ _, 0) 0 (λ _ _, 0).

(** [chain_fgetxattr(fd, XATTR_SPILL_OUT_NAME, buf, sizeof(buf))] followed by
    [r >= 0 && !strncmp(buf, XATTR_NO_SPILL_OUT, sizeof(XATTR_NO_SPILL_OUT))]. *)
Definition no_spill_out (f : file) : bool :=
  match spill_out_xattr f with
  | Some buf => String.eqb buf XATTR_NO_SPILL_OUT
  | None => false
  end.

(** [chain_fremovexattr(fd, n)]. *)
Definition chain_fremovexattr (xs : gmap string bufferptr) (name : string)
    : Z * gmap string bufferptr :=
  match xs !! name with
  | Some _ => (0, delete name xs)
  | None => (- ENODATA, xs)
  end.

(** [XStore::_fsetattr(fd, name, bp, chunks)]: the xattr is named after
    [name.c_str()]; [chain_fsetxattr] stores the value, and [chunks] only
    tells it how many chunks the old value had. *)
Definition _fsetattr (b : backend) (xs : gmap string bufferptr)
    (name : string) (bp : bufferptr) (chunks : Z)
    : Z * gmap string bufferptr :=
  (* get_attrname(name.c_str(), n, CHAIN_XATTR_MAX_NAME_LEN) *)
  let n := c_str name in
  let r := chain_fsetxattr_r b n bp in
  if r <? 0 then (r, xs) else (0, <[n := bp]> xs).

(** [object_map->remove_xattrs(oid, to_remove, &spos)]. *)
Definition remove_xattrs (om : gmap ghobject_t (gmap string bufferptr))
    (oid : ghobject_t) (to_remove : gset string)
    : Z * gmap ghobject_t (gmap string bufferptr) :=
  match om !! oid with
  | None => (- ENOENT, om)
  | Some m => (0, <[oid := filter (λ kv, kv.1 ∉ to_remove) m]> om)
  end.

(** [object_map->set_xattrs(oid, to_set, &spos)]. *)
Definition set_xattrs (b : backend)
    (om : gmap ghobject_t (gmap string bufferptr))
    (oid : ghobject_t) (to_set : gmap string bufferptr)
    : Z * gmap ghobject_t (gmap string bufferptr) :=
  let r := set_xattrs_r b oid to_set in
  if r <? 0 then (r, om)
  else (r, <[oid := to_set ∪ default ∅ (om !! oid)]> om).

(** [object_map->get_all_xattrs] followed by [object_map->get_xattrs]. *)
Definition get_xattrs (om : gmap ghobject_t (gmap string bufferptr))
    (oid : ghobject_t) : Z * gmap string bufferptr :=
  match om !! oid with
  | None => (- ENOENT, ∅)
  | Some m => (0, m)
  end.

Section WithChunks.

(** The number of chunks in which chain_xattr.cc stores a value. *)
Variable nchunks : bufferptr -> Z.

(** [XStore::_fgetattrs_chunks(fd, aset)]: the names of the attributes
    stored as xattrs, each with its number of chunks. *)
Definition _fgetattrs_chunks (f : file) : Z * gmap string Z :=
  (0, nchunks <$> xattrs f).

(** The locals of [_setattrs] that its loop updates, with the xattrs of the
    open file. *)
Record locals := Locals {
  l_xattrs : gmap string bufferptr;
  l_inline_set : gmap string Z;
  l_omap_set : gmap string bufferptr;
  l_omap_remove : gset string
}.

(** [omap_set[p->first].push_back(p->second)]. *)
Definition omap_set_push (l : locals) (k : string) (v : bufferptr) : locals :=
  Locals (l_xattrs l) (l_inline_set l)
         (<[k := default [] (l_omap_set l !! k) ++ v]> (l_omap_set l))
         (l_omap_remove l).

(** One trip through the loop of [_setattrs], for the entry [(k, v)] of
    [aset].  [inl] is the jump to [out_close] with a negative [r]; [inr] goes
    on to the next entry; [r] is the last value assigned.  The xattr is
    named after [p->first.c_str()], which is [n]; [inline_set], [omap_set]
    and [omap_remove] are keyed by [p->first] itself. *)
Definition setattrs_step (b : backend) (cfg : config)
    (incomplete_inline : bool)
    (spill_out : Z) (k : string) (v : bufferptr) (r : Z) (l : locals)
    : (Z * locals) + (Z * locals) :=
  (* get_attrname(p->first.c_str(), n, CHAIN_XATTR_MAX_NAME_LEN) *)
  let n := c_str k in
  if incomplete_inline then
    (* chain_fremovexattr(fd, n); // ignore any error *)
    let xs := (chain_fremovexattr (l_xattrs l) n).2 in
    inr (r, omap_set_push (Locals xs (l_inline_set l) (l_omap_set l)
                                  (l_omap_remove l)) k v)
  else if Z.of_nat (length v) >? m_filestore_max_inline_xattr_size cfg then
    match l_inline_set l !! k with
    | Some _ =>
        let '(r', xs) := chain_fremovexattr (l_xattrs l) n in
        let l' := Locals xs (delete k (l_inline_set l)) (l_omap_set l)
                         (l_omap_remove l) in
        if r' <? 0 then inl (r', l')
        else inr (r', omap_set_push l' k v)
    | None => inr (r, omap_set_push l k v)
    end
  else if bool_decide (l_inline_set l !! k = None)
          && (Z.of_nat (size (l_inline_set l))
              >=? m_filestore_max_inline_xattrs cfg) then
    inr (r, omap_set_push l k v)
  else
    let omap_remove :=
      if negb (spill_out =? 0) then {[k]} ∪ l_omap_remove l
      else l_omap_remove l in
    let '(inline_set, chunks) :=
      match l_inline_set l !! k with
      | Some c =>
          if c >? 0 then (l_inline_set l, c) else (l_inline_set l, -1)
      | None =>
          (* this is new attr, we do not know the number of chunk *)
          (<[k := -1]> (l_inline_set l), -1)
      end in
    let '(r', xs) := _fsetattr b (l_xattrs l) k v chunks in
    let l' := Locals xs inline_set (l_omap_set l) omap_remove in
    if r' <? 0 then inl (r', l') else inr (r', l').

(** The loop of [_setattrs] over [aset], in key order. *)
Fixpoint setattrs_loop (b : backend) (cfg : config)
    (incomplete_inline : bool)
    (spill_out : Z) (aset : list (string * bufferptr)) (r : Z) (l : locals)
    : (Z * locals) + (Z * locals) :=
  match aset with
  | [] => inr (r, l)
  | (k, v) :: aset =>
      match setattrs_step b cfg incomplete_inline spill_out k v r l with
      | inl out_close => inl out_close
      | inr (r, l) => setattrs_loop b cfg incomplete_inline spill_out aset r l
      end
  end.

(** [XStore::_setattrs(cid, oid, aset, spos)].  [aset] is the map in its
    iteration order.  [None] is a failed assertion.  The value returned by
    the write of the sentinel is dropped: when that write fails the
    sentinel stays as it was. *)
Definition _setattrs (b : backend) (cfg : config) (st : store)
    (cid : coll_t)
    (oid : ghobject_t) (aset : list (string * bufferptr))
    : option (Z * store) :=
  match files st !! (cid, oid) with
  | None => Some (- ENOENT, st)                      (* lfn_open failed *)
  | Some f =>
      let spill_out := if no_spill_out f then 0 else 1 in
      let '(r, inline_set) := _fgetattrs_chunks f in
      let incomplete_inline := r =? - E2BIG in
      if m_filestore_fail_eio cfg && (r =? - EIO) then None
      else
        let put xs sentinel om :=
          Store (<[(cid, oid) := File xs sentinel]> (files st)) om in
        match setattrs_loop b cfg incomplete_inline spill_out aset r
                (Locals (xattrs f) inline_set ∅ ∅) with
        | inl (r, l) =>
            Some (r, put (l_xattrs l) (spill_out_xattr f) (object_map st))
        | inr (r, l) =>
            let sentinel :=
              if negb (spill_out =? 1) && negb (bool_decide (l_omap_set l = ∅))
                 && negb (set_spill_out_r b <? 0)
              then Some XATTR_SPILL_OUT else spill_out_xattr f in
            let '(r, om, failed) :=
              if negb (spill_out =? 0)
                 && negb (bool_decide (l_omap_remove l = ∅)) then
                let '(r', om) :=
                  remove_xattrs (object_map st) oid (l_omap_remove l) in
                if (r' <? 0) && negb (r' =? - ENOENT) then (r', om, true)
                else (0, om, false)
              else (r, object_map st, false) in
            if failed then
              if m_filestore_fail_eio cfg && (r =? - EIO) then None
              else Some (r, put (l_xattrs l) sentinel om)
            else if negb (bool_decide (l_omap_set l = ∅)) then
              let '(r', om') := set_xattrs b om oid (l_omap_set l) in
              if r' <? 0 then
                if m_filestore_fail_eio cfg && (r' =? - EIO) then None
                else Some (r', put (l_xattrs l) sentinel om')
              else Some (r', put (l_xattrs l) sentinel om')
            else Some (r, put (l_xattrs l) sentinel om)
        end
  end.

(** [XStore::_fgetattrs(fd, aset)]: the attributes stored as xattrs, each
    with its value and its number of chunks.  The loop over the listed names
    skips a name that is empty once [parse_attrname] has taken the prefix
    off: the test on [*name]. *)
Definition _fgetattrs (f : file) : Z * gmap string (bufferptr * Z) :=
  (0, (λ v, (v, nchunks v)) <$> filter (λ kv, kv.1 ≠ ""%string) (xattrs f)).

(** [XStore::getattrs(cid, oid, aset)]: the returned value and the map
    [aset] after the call, given the map the caller passed in. *)
Definition getattrs (cfg : config) (st : store) (cid : coll_t)
    (oid : ghobject_t) (aset : gmap string bufferptr)
    : option (Z * gmap string bufferptr) :=
  let out (r : Z) (aset : gmap string bufferptr) :=
    (* assert(!m_filestore_fail_eio || r != -EIO) *)
    if m_filestore_fail_eio cfg && (r =? - EIO) then None
    else if debug_mdata_eio cfg oid then Some (- EIO, aset)
    else Some (r, aset) in
  match files st !! (cid, oid) with
  | None => out (- ENOENT) aset
  | Some f =>
      let spill_out := negb (no_spill_out f) in
      let '(r, orig_set) := _fgetattrs f in
      if r <? 0 then out r aset
      else
        (* aset[it->first] = it->second.first *)
        let aset := (fst <$> orig_set) ∪ aset in
        if negb spill_out then out r aset
        else
          let '(r, omap_aset) := get_xattrs (object_map st) oid in
          if (r <? 0) && negb (r =? - ENOENT) then out r aset
          else
            let r := if r =? - ENOENT then 0 else r in
            (* aset.insert(...) keeps an entry that is already there *)
            out r (aset ∪ omap_aset)
  end.

(** What the loop of [_setattrs] leaves for an entry [(k, v)] of [aset]:
    the value is an xattr of the file, or it is in [omap_set] and the file
    has no xattr of that name; a value above the inline limit is in
    [omap_set]; a value within the limit whose name was an xattr before
    stays an xattr. *)
Definition stored (cfg : config) (k : string) (v : bufferptr)
    (l0 l : locals) : Prop :=
  (l_xattrs l !! k = Some v
   \/ (l_xattrs l !! k = None /\ l_omap_set l !! k = Some v))
  /\ (Z.of_nat (length v) > m_filestore_max_inline_xattr_size cfg ->
      l_xattrs l !! k = None /\ l_omap_set l !! k = Some v)
  /\ (Z.of_nat (length v) <= m_filestore_max_inline_xattr_size cfg ->
      is_Some (l_xattrs l0 !! k) -> l_xattrs l !! k = Some v).

(** The names outside [keys] are left alone. *)
Definition same_elsewhere (keys : list string) (l0 l : locals) : Prop :=
  forall k, k ∉ keys ->
    l_xattrs l !! k = l_xattrs l0 !! k
    /\ l_omap_set l !! k = l_omap_set l0 !! k.

End WithChunks.

End Attrs.

(** ** The loop over the transactions of an op *)

Module DoTransactions.
Import Transaction Applier.

(** How a call of [_do_transactions] ends: it returns [r] after entering
    some transactions, [applied] holding for each the number of trips its
    loop made, or the process aborts inside one of them. *)
Inductive result :=
  | Done (r : Z) (applied : list nat)
  | Died (log : list event).

(** The loop [for (p = tls.begin(); p != tls.end(); ++p, trans_num++)] of
    [XStore::_do_transactions].  [_do_transaction] returns 0 when it
    returns. *)
Fixpoint do_transactions_loop (e : engine) (o_init : bool)
    (tls : list (list step)) (trans_num : Z) (r : Z) (applied : list nat)
    : result :=
  match tls with
  | [] => Done r applied
  | p :: tls =>
      match _do_transaction e o_init trans_num p with
      | Aborted log => Died log
      | Returned n _ =>
          let r := 0 in
          let applied := applied ++ [n] in
          if o_init then Done r applied                       (* break *)
          else if r <? 0 then Done r applied                  (* break *)
          else do_transactions_loop e o_init tls (trans_num + 1) r applied
      end
  end.

(** [XStore::_do_transactions(tls, op_seq, o, handle)].  [o_init] is
    [o && o->state == Op::STATE_INIT]. *)
Definition _do_transactions (e : engine) (o_init : bool)
    (tls : list (list step)) : result :=
  do_transactions_loop e o_init tls 0 0 [].

End DoTransactions.

(** ** The commit thread over several cycles *)

Module SyncThread.
Import SyncEntry.

(** The loop of [XStore::sync_entry]: the cycles one after the other, each
    with the result of [commit_start()] and the committing sequence.  [disk]
    follows the checkpoints of the backend along the calls made. *)
Fixpoint sync_entry (can_checkpoint : bool) (cycles : list (bool * Z))
    (snaps disk : list Z) : list Z * list Z :=
  match cycles with
  | [] => (snaps, disk)
  | (commit_start, cp) :: cycles =>
      let '(snaps', calls) :=
        sync_entry_cycle can_checkpoint commit_start cp snaps in
      sync_entry can_checkpoint cycles snaps' (foldl backend_apply disk calls)
  end.

End SyncThread.

(** ** Object attributes: reading and removing *)

Module AttrOps.
Import Attrs.

(** [XStore::_fgetattr(fd, name, bp, chunks)]: the length of the value and
    the value in [bp], or [-ENODATA] and [bp] as it was.  A value that does
    not fit the stack buffer is read in a second call with a buffer of its
    size ([-ERANGE]); the result is the same. *)
Definition _fgetattr (cfg : config) (f : file) (name : string)
    (bp : bufferptr) : option (Z * bufferptr) :=
  let '(l, bp) :=
    match xattrs f !! name with
    | Some val => (Z.of_nat (length val), val)
    | None => (- ENODATA, bp)
    end in
  (* assert(!m_filestore_fail_eio || l != -EIO) *)
  if m_filestore_fail_eio cfg && (l =? - EIO) then None else Some (l, bp).

(** [object_map->get_xattrs(oid, to_get, &got)]. *)
Definition get_xattrs_of (om : gmap ghobject_t (gmap string bufferptr))
    (oid : ghobject_t) (to_get : gset string) : Z * gmap string bufferptr :=
  match om !! oid with
  | None => (- ENOENT, ∅)
  | Some m => (0, filter (λ kv, kv.1 ∈ to_get) m)
  end.


(** [XStore::getattr(cid, oid, name, bp)]: the returned value and [bp]
    after the call.  [got] holds at most the one name asked for, so that
    [got.begin()] is its entry. *)
Definition getattr (cfg : config) (st : store) (cid : coll_t)
    (oid : ghobject_t) (name : string) (bp : bufferptr)
    : option (Z * bufferptr) :=
  let out (r : Z) (bp : bufferptr) :=
    (* assert(!m_filestore_fail_eio || r != -EIO) *)
    if m_filestore_fail_eio cfg && (r =? - EIO) then None
    else if debug_mdata_eio cfg oid then Some (- EIO, bp)
    else Some (r, bp) in
  match files st !! (cid, oid) with
  | None => out (- ENOENT) bp                          (* lfn_open failed *)
  | Some f =>
      '(r, bp) ← _fgetattr cfg f name bp;
      if r =? - ENODATA then
        let '(r, got) := get_xattrs_of (object_map st) oid {[name]} in
        if (r <? 0) && negb (r =? - ENOENT) then out r bp
        else
          match map_to_list got with
          | [] => Some (- ENODATA, bp)                      (* got.empty() *)
          | (_, val) :: _ => out (Z.of_nat (length val)) val
          end
      else out r bp
  end.

(** [XStore::_rmattr(cid, oid, name, spos)]. *)
Definition _rmattr (cfg : config) (st : store) (cid : coll_t)
    (oid : ghobject_t) (name : string) : option (Z * store) :=
  match files st !! (cid, oid) with
  | None => Some (- ENOENT, st)                        (* lfn_open failed *)
  | Some f =>
      let spill_out := negb (no_spill_out f) in
      let '(r, xs) := chain_fremovexattr (xattrs f) name in
      let put om :=
        Store (<[(cid, oid) := File xs (spill_out_xattr f)]> (files st)) om in
      if (r =? - ENODATA) && spill_out then
        let '(r, om) := remove_xattrs (object_map st) oid {[name]} in
        if (r <? 0) && negb (r =? - ENOENT) then
          (* assert(!m_filestore_fail_eio || r != -EIO) *)
          if m_filestore_fail_eio cfg && (r =? - EIO) then None
          else Some (r, put om)
        else Some (r, put om)
      else Some (r, put (object_map st))
  end.



Section WithChunks.

Variable nchunks : bufferptr -> Z.


End WithChunks.

(** The attributes of an object are kept in one place each: no name is both
    an xattr of the file and a key of the kv store, and a file whose
    sentinel says "no spill-out" has no attribute in the kv store. *)
Definition consistent (st : store) (cid : coll_t) (oid : ghobject_t)
    : Prop :=
  forall f, files st !! (cid, oid) = Some f ->
    let kv := default ∅ (object_map st !! oid) in
    (no_spill_out f = true -> kv = ∅)
    /\ (forall k, is_Some (xattrs f !! k) -> kv !! k = None).

End AttrOps.

(** ** The op_seq file *)

Module OpSeq.
Import Strings.Ascii DecimalString.

(** A [uint64_t] read as [int64_t] ([PRId64] applied to [seq]), and a
    [long long] stored into a [uint64_t]. *)
Definition to_int64 (x : Z) : Z :=
  if x mod 2 ^ 64 <? 2 ^ 63 then x mod 2 ^ 64 else x mod 2 ^ 64 - 2 ^ 64.
Definition to_uint64 (x : Z) : Z := x mod 2 ^ 64.

(** [isspace] in the C locale: space and the characters 9 to 13. *)
Definition isspace (c : ascii) : bool :=
  let n := nat_of_ascii c in
  (n =? 32)%nat || ((9 <=? n)%nat && (n <=? 13)%nat).

Definition digit_value (c : ascii) : option Z :=
  let n := Z.of_nat (nat_of_ascii c) in
  if (48 <=? n) && (n <=? 57) then Some (n - 48) else None.

(** The C string held in a buffer: its bytes up to the first NUL. *)
Fixpoint c_str (buf : list ascii) : list ascii :=
  match buf with
  | [] => []
  | c :: buf => if Strings.Ascii.eqb c Strings.Ascii.zero then [] else c :: c_str buf
  end.

Fixpoint skip_spaces (s : list ascii) : list ascii :=
  match s with
  | [] => []
  | c :: s' => if isspace c then skip_spaces s' else s
  end.

Fixpoint digits (s : list ascii) (acc : Z) : Z :=
  match s with
  | [] => acc
  | c :: s =>
      match digit_value c with
      | Some d => digits s (acc * 10 + d)
      | None => acc
      end
  end.

(** [atoll(s)], which is [strtoll(s, NULL, 10)]: white space, an optional
    sign, then decimal digits up to the first character that is none; a
    value outside [long long] is clamped. *)
Definition atoll (s : list ascii) : Z :=
  let s := skip_spaces s in
  let '(neg, s) :=
    match s with
    | c :: s' =>
        if Strings.Ascii.eqb c "-" then (true, s')
        else if Strings.Ascii.eqb c "+" then (false, s')
        else (false, s)
    | [] => (false, s)
    end in
  let v := digits s 0 in
  if neg then Z.max (- 2 ^ 63) (- v) else Z.min (2 ^ 63 - 1) v.

(** [snprintf(s, sizeof(s), "%" PRId64 "\n", seq)] with [char s[30]]: the
    decimal digits of [seq] read as a signed number, a newline, cut to 29
    characters. *)
Definition snprintf_seq (seq : Z) : list ascii :=
  take 29 (String.list_ascii_of_string
             (NilZero.string_of_int (Z.to_int (to_int64 seq)))
           ++ ["010"%char]).

(** [XStore::write_op_seq(fd, seq)] on the bytes of the file behind [fd]:
    [pwrite] at offset 0 replaces the first [strlen(s)] bytes and keeps the
    others.  The result is [ret] and the file. *)
Definition write_op_seq (content : list ascii) (seq : Z)
    : Z * list ascii :=
  let s := snprintf_seq seq in
  (Z.of_nat (length s), s ++ drop (length s) content).

(** [XStore::read_op_seq(seq)].  [op_fd] is what [open] with [O_CREAT]
    gives: a descriptor, or below 0 the negated [errno], and then [*seq]
    and the file stay as they were.  [open] makes a missing file ([None])
    an empty one; [safe_read] fills the zeroed [char s[40]] with at most 39
    bytes.  The result is the value returned, [*seq] and the file. *)
Definition read_op_seq (op_fd : Z) (file : option (list ascii)) (seq : Z)
    : Z * Z * option (list ascii) :=
  if op_fd <? 0 then (op_fd, seq, file)
  else
    let content := default [] file in
    let s := take 39 content in
    (op_fd, to_uint64 (atoll (c_str s)), Some content).

(** The stanza "write initial op_seq" of [XStore::mkfs]: the file it
    leaves, and whether it asked the backend for the checkpoint snap_1,
    with [create_checkpoint_r] the answer.  [None] is the jump to
    [close_fsid_fd]. *)
Definition mkfs_op_seq (op_fd : Z) (can_checkpoint : bool)
    (create_checkpoint_r : Z) (file : option (list ascii))
    : option (list ascii * bool) :=
  let initial_seq := 0 in
  let '(fd, initial_seq, file) := read_op_seq op_fd file initial_seq in
  if fd <? 0 then None
  else
    let content := default [] file in
    if initial_seq =? 0 then
      let '(err, content) := write_op_seq content 1 in
      if err <? 0 then None
      else if can_checkpoint && (create_checkpoint_r <? 0)
              && negb (create_checkpoint_r =? - EEXIST) then None
      else Some (content, can_checkpoint)
    else Some (content, false).

(** The reading of the op_seq file in [XStore::mount]: the value returned
    through [close_current_fd], or [initial_op_seq].  [initial_op_seq] is
    the variable before the call (mount has set it to 0) and [ret] is the
    variable [ret] when the stanza is reached: a failed [read_op_seq] jumps
    to [close_current_fd] without an assignment to [ret], so that mount
    returns the value [ret] had, which is the one of the last call that
    went through. *)
Definition mount_op_seq (op_fd : Z) (file : option (list ascii))
    (initial_op_seq : Z) (ret : Z) : Z + Z :=
  let '(fd, initial_op_seq, _) := read_op_seq op_fd file initial_op_seq in
  if fd <? 0 then inl ret
  else if initial_op_seq =? 0 then inl (- EINVAL)
  else inr initial_op_seq.

End OpSeq.

(** ** Splitting a collection *)

Module SplitCollection.
Import ReplayGuard.

(** [XStore::collection_exists(c)]: [stat] finds the directory. *)
Definition collection_exists (st : gmap coll_t collection) (c : coll_t)
    : bool :=
  bool_decide (is_Some (st !! c)).

(** [XStore::_set_global_replay_guard(cid, spos)].  [None] is one of its
    assertions: the directory cannot be opened. *)
Definition _set_global_replay_guard (e : engine)
    (st : gmap coll_t collection) (cid : coll_t) (spos : SequencerPosition)
    : option (gmap coll_t collection) :=
  if can_checkpoint e then Some st
  else
    match st !! cid with
    | None => None
    | Some c => Some (<[cid := Coll (Some spos) (c_guard c) (c_objects c)]> st)
    end.

(** [XStore::_set_replay_guard(cid, spos, in_progress)], on the directory
    of the collection: it is opened, with an assertion, before the backend
    is asked whether it can checkpoint. *)
Definition _set_replay_guard_coll (e : engine) (st : gmap coll_t collection)
    (cid : coll_t) (spos : SequencerPosition) (in_progress : bool)
    : option (gmap coll_t collection) :=
  match st !! cid with
  | None => None
  | Some c =>
      Some (<[cid := Coll (c_gguard c)
                          (_set_replay_guard e (c_guard c) spos in_progress)
                          (c_objects c)]> st)
  end.

(** [XStore::_close_replay_guard(cid, spos)]. *)
Definition _close_replay_guard_coll (e : engine)
    (st : gmap coll_t collection) (cid : coll_t) (spos : SequencerPosition)
    : option (gmap coll_t collection) :=
  match st !! cid with
  | None => None
  | Some c =>
      Some (<[cid := Coll (c_gguard c)
                          (_close_replay_guard e (c_guard c) spos)
                          (c_objects c)]> st)
  end.

(** Modelled from the spec: [from->split(rem, bits, to.index)] is the
    external index; it moves every object whose hash matches [rem] in the
    low [bits] bits into the destination.  [matches] is that test,
    [i->match(bits, rem)] in the source. *)
Definition split (matches : ghobject_t -> bool)
    (st : gmap coll_t collection) (cid dest : coll_t)
    : gmap coll_t collection :=
  match st !! cid, st !! dest with
  | Some c, Some d =>
      let moved := filter (λ kv, matches kv.1 = true) (c_objects c) in
      let kept := filter (λ kv, matches kv.1 = false) (c_objects c) in
      <[dest := Coll (c_gguard d) (c_guard d) (moved ∪ c_objects d)]>
        (<[cid := Coll (c_gguard c) (c_guard c) kept]> st)
  | _, _ => st
  end.

(** The block under [filestore_debug_verify_split]: no object left in the
    source matches, every object of the destination does. *)
Definition verify_split (matches : ghobject_t -> bool)
    (st : gmap coll_t collection) (cid dest : coll_t) : bool :=
  bool_decide (map_Forall (λ oid _, matches oid = false)
                 (default ∅ (c_objects <$> st !! cid)))
  && bool_decide (map_Forall (λ oid _, matches oid = true)
                    (default ∅ (c_objects <$> st !! dest))).

(** [XStore::_split_collection(cid, bits, rem, dest, spos)].  [None] is a
    failed assertion. *)
Definition _split_collection (e : engine)
    (filestore_debug_verify_split : bool) (matches : ghobject_t -> bool)
    (st : gmap coll_t collection) (cid dest : coll_t)
    (spos : SequencerPosition) : option (Z * gmap coll_t collection) :=
  if negb (collection_exists st cid) then
    (* assert(replaying) *)
    if replaying e then Some (0, st) else None
  else if negb (collection_exists st dest) then
    if replaying e then Some (0, st) else None
  else
    dstcmp ← _check_replay_guard_coll e st dest spos;
    if dstcmp <? 0 then Some (0, st)
    else
      srccmp ← _check_replay_guard_coll e st cid spos;
      if srccmp <? 0 then Some (0, st)
      else
        st ← _set_global_replay_guard e st cid spos;
        st ← _set_replay_guard_coll e st cid spos true;
        st ← _set_replay_guard_coll e st dest spos true;
        (* both indexes are found *)
        let st := split matches st cid dest in
        let r := 0 in
        st ← _close_replay_guard_coll e st cid spos;
        st ← _close_replay_guard_coll e st dest spos;
        if filestore_debug_verify_split
           && negb (verify_split matches st cid dest)
        then None
        else Some (r, st).

(** The guard xattr and the global guard xattr of the directory of a
    collection, when the collection exists. *)
Definition guard_of (st : gmap coll_t collection) (c : coll_t)
    : option (option guard) :=
  c_guard <$> st !! c.

Definition global_guard_of (st : gmap coll_t collection) (c : coll_t)
    : option (option SequencerPosition) :=
  c_gguard <$> st !! c.

End SplitCollection.

(** ** Object data *)

Module FileData.

Abbreviation coll_t := string (only parsing).
Abbreviation ghobject_t := string (only parsing).
Abbreviation bytes := (list Byte.byte) (only parsing).
Abbreviation ino_t := positive (only parsing).

(** The store, as far as object data goes: the collections that exist, the
    file that the index of a collection finds for an object, the bytes of
    each file, and the fd cache.  Files are named by their inode: two
    entries of the index for one inode are hard links, as [lfn_link] makes
    them.  The fd cache is keyed by the object alone, not by the
    collection, and holds the file of an open descriptor.

    Modelled from the spec: the index (LFNIndex, HashIndex), FDCache and
    the POSIX calls are outside src.  The index is a finite map, the cache
    a finite map that forgets nothing, the file system one that fails only
    as said below. *)
Record store := Store {
  colls : gset coll_t;
  index : gmap (coll_t * ghobject_t) ino_t;
  inodes : gmap ino_t bytes;
  fdcache : gmap ghobject_t ino_t
}.

Definition EFBIG : Z := 27.

(** A length or a [ssize_t] stored in an [int]. *)
Definition to_int (x : Z) : Z := (x + 2 ^ 31) mod 2 ^ 32 - 2 ^ 31.

(** A [uint64_t] passed where the system call takes an [off_t]:
    [(int64_t)offset]. *)
Definition off_t (x : Z) : Z :=
  if x mod 2 ^ 64 <? 2 ^ 63 then x mod 2 ^ 64 else x mod 2 ^ 64 - 2 ^ 64.

(** The bytes of the file behind a descriptor; a file of which [inodes]
    says nothing is empty. *)
Definition content_of (st : store) (fd : ino_t) : bytes :=
  default [] (inodes st !! fd).

(** The files that have a name, some bytes or an open descriptor. *)
Definition used (st : store) : gset ino_t :=
  dom (inodes st) ∪ map_img (index st) ∪ map_img (fdcache st).

(** [fdcache.add(oid, fd, &existed)], outside replay. *)
Definition fdcache_add (replaying : bool) (st : store) (oid : ghobject_t)
    (fd : ino_t) : store :=
  if replaying then st
  else Store (colls st) (index st) (inodes st) (<[oid := fd]> (fdcache st)).

(** [lfn_open(cid, oid, create, &fd)]: the value returned, the descriptor
    and the store.  [get_index] fails for a collection that does not exist.
    Outside replay a descriptor that the cache holds for [oid] is given
    back at once, whatever the collection it was opened in.  Otherwise the
    index of the collection is asked: [open] fails for a missing file
    unless [O_CREAT] is set, and then the file is created empty, a new
    file, [created] and the writing of the spill-out xattr going through;
    outside replay the descriptor goes into the cache. *)
Definition lfn_open (replaying : bool) (st : store) (cid : coll_t)
    (oid : ghobject_t) (create : bool) : Z * option ino_t * store :=
  if bool_decide (cid ∈ colls st) then
    match (if replaying then None else fdcache st !! oid) with
    | Some fd => (0, Some fd, st)
    | None =>
        match index st !! (cid, oid) with
        | Some fd => (0, Some fd, fdcache_add replaying st oid fd)
        | None =>
            if create then
              let fd := fresh (used st) in
              let st := Store (colls st) (<[(cid, oid) := fd]> (index st))
                              (<[fd := []]> (inodes st)) (fdcache st) in
              (0, Some fd, fdcache_add replaying st oid fd)
            else (- ENOENT, None, st)
        end
    end
  else (- ENOENT, None, st).

(** [XStore::lfn_link(c, newcid, o, newoid)]: the new name is one more
    entry of the index for the same file. *)
Definition lfn_link (st : store) (c newcid : coll_t) (o newoid : ghobject_t)
    : Z * store :=
  if negb (bool_decide (c ∈ colls st) && bool_decide (newcid ∈ colls st))
  then (- ENOENT, st)
  else
    match index st !! (c, o) with
    | None => (- ENOENT, st)
    | Some fd =>
        match index st !! (newcid, newoid) with
        | Some _ => (- EEXIST, st)
        | None =>
            (0, Store (colls st) (<[(newcid, newoid) := fd]> (index st))
                      (inodes st) (fdcache st))
        end
    end.

(** The bytes of a regular file after [len] bytes [data] were written at
    offset [off]: a gap between the old end and [off] reads as zeros. *)
Definition write_at (content : bytes) (off : nat) (data : bytes) : bytes :=
  take off content ++ replicate (off - length content) Byte.x00
  ++ data ++ drop (off + length data) content.

(** The bytes of a regular file after [ftruncate(fd, size)]. *)
Definition resize (content : bytes) (size : nat) : bytes :=
  take size content ++ replicate (size - length content) Byte.x00.

(** Writing back the bytes of the file behind a descriptor. *)
Definition put (st : store) (fd : ino_t) (content : bytes) : store :=
  Store (colls st) (index st) (<[fd := content]> (inodes st)) (fdcache st).

(** [XStore::_touch(cid, oid)]. *)
Definition _touch (replaying : bool) (st : store) (cid : coll_t)
    (oid : ghobject_t) : Z * store :=
  let '(r, _, st) := lfn_open replaying st cid oid true in
  (r, st).

(** [bl.write_fd(fd)] with the file offset at [pos], on a file system
    whose largest file is that of [off_t]: the value returned and the
    store.  It writes the bytes of [bl], all of them, and nothing at all
    when [bl] is empty; of a write that would end beyond the largest size
    the part that fits is written before [EFBIG] is met. *)
Definition write_fd (st : store) (fd : ino_t) (pos : Z) (bl : bytes)
    : Z * store :=
  let max := 2 ^ 63 - 1 in
  let content := content_of st fd in
  if bool_decide (bl = []) then (0, st)
  else if pos + Z.of_nat (length bl) <=? max then
    (0, put st fd (write_at content (Z.to_nat pos) bl))
  else if max <=? pos then (- EFBIG, st)
  else (- EFBIG,
        put st fd (write_at content (Z.to_nat pos)
                     (take (Z.to_nat (max - pos)) bl))).

(** [XStore::_write(cid, oid, offset, len, bl, fadvise_flags, osr)], with
    [m_filestore_sloppy_crc] off.  [lseek64] refuses a negative offset with
    [EINVAL]; what is written is [bl], whatever [len] says. *)
Definition _write (replaying : bool) (st : store) (cid : coll_t)
    (oid : ghobject_t) (offset len : Z) (bl : bytes) : Z * store :=
  match lfn_open replaying st cid oid true with
  | (r, Some fd, st) =>
      if r <? 0 then (r, st)
      else
        let actual := if off_t offset <? 0 then -1 else off_t offset in
        if actual <? 0 then (- EINVAL, st)
        else if negb (actual =? off_t offset) then (- EIO, st)
        else
          let '(r, st) := write_fd st fd actual bl in
          (* if (r == 0) r = bl.length() *)
          let r := if r =? 0 then to_int (Z.of_nat (length bl)) else r in
          (r, st)
  | (r, None, st) => (r, st)
  end.

(** [safe_pread(fd, buf, count, offset)] on a regular file: the value
    returned and the bytes read.  With [count] 0 nothing is asked of the
    kernel; [pread] refuses a negative offset with [EINVAL]. *)
Definition safe_pread (content : bytes) (count : Z) (offset : Z)
    : Z * bytes :=
  if (0 <? count) && (off_t offset <? 0) then (- EINVAL, [])
  else
    let data := take (Z.to_nat count) (drop (Z.to_nat (off_t offset)) content) in
    (Z.of_nat (length data), data).

(** [XStore::read(cid, oid, offset, len, bl, op_flags, allow_eio)], with
    [m_filestore_sloppy_crc] off: the value returned, [bl] after the call
    and the store, whose fd cache [lfn_open] may have filled; [None] is the
    failed assertion.  [inject] is
    [filestore_debug_inject_read_err && debug_data_eio(oid)]; [got] is an
    [int]. *)
Definition read (m_filestore_fail_eio inject replaying : bool) (st : store)
    (cid : coll_t) (oid : ghobject_t) (offset len : Z) (bl : bytes)
    (allow_eio : bool) : option (Z * bytes * store) :=
  match lfn_open replaying st cid oid false with
  | (r, Some fd, st) =>
      if r <? 0 then Some (r, bl, st)
      else
        let content := content_of st fd in
        (* if (len == 0) len = st.st_size *)
        let len := if len =? 0 then Z.of_nat (length content) else len in
        let '(got, data) := safe_pread content len offset in
        let got := to_int got in
        if got <? 0 then
          (* assert(allow_eio || !m_filestore_fail_eio || got != -EIO) *)
          if allow_eio || negb m_filestore_fail_eio || negb (got =? - EIO)
          then Some (got, bl, st) else None
        else
          (* bptr.set_length(got); bl.push_back(bptr) *)
          let bl := bl ++ take (Z.to_nat got) data in
          if inject then Some (- EIO, bl, st) else Some (got, bl, st)
  | (r, None, st) => Some (r, bl, st)
  end.

(** [XStore::lfn_stat(cid, oid, buf)]: the value returned and, when
    [stat] filled [buf], its [st_size].  The path comes from the index of
    the collection; the fd cache is not asked. *)
Definition lfn_stat (st : store) (cid : coll_t) (oid : ghobject_t)
    : Z * option Z :=
  if bool_decide (cid ∈ colls st) then
    match index st !! (cid, oid) with
    | Some fd => (0, Some (Z.of_nat (length (content_of st fd))))
    | None => (- ENOENT, None)
    end
  else (- ENOENT, None).

(** [XStore::stat(cid, oid, st, allow_eio)]: the value returned and
    [st->st_size]; [None] is the failed assertion.  [inject] is
    [filestore_debug_inject_read_err && debug_mdata_eio(oid)]. *)
Definition stat (m_filestore_fail_eio inject : bool) (st : store)
    (cid : coll_t) (oid : ghobject_t) (allow_eio : bool)
    : option (Z * option Z) :=
  let '(r, size) := lfn_stat st cid oid in
  (* assert(allow_eio || !m_filestore_fail_eio || r != -EIO) *)
  if negb (allow_eio || negb m_filestore_fail_eio || negb (r =? - EIO))
  then None
  else if inject then Some (- EIO, size) else Some (r, size).

(** [XStore::exists(cid, oid)]. *)
Definition exists_ (m_filestore_fail_eio inject : bool) (st : store)
    (cid : coll_t) (oid : ghobject_t) : option bool :=
  '(r, _) ← stat m_filestore_fail_eio inject st cid oid false;
  Some (r =? 0).

(** [XStore::_truncate(cid, oid, size)], which is [lfn_truncate]. *)
Definition _truncate (replaying : bool) (st : store) (cid : coll_t)
    (oid : ghobject_t) (size : Z) : Z * store :=
  match lfn_open replaying st cid oid false with
  | (r, Some fd, st) =>
      if r <? 0 then (r, st)
      else
        (* ftruncate(fd, length) *)
        if off_t size <? 0 then (- EINVAL, st)
        else (0, put st fd (resize (content_of st fd)
                              (Z.to_nat (off_t size))))
  | (r, None, st) => (r, st)
  end.

Section WithFallocate.

(** [fallocate(fd, FALLOC_FL_PUNCH_HOLE, offset, len)] on the bytes of the
    file: the value returned (0 or a negated errno) and the bytes after
    it.  The kernel decides; the source reads only the value. *)
Variable fallocate_punch_hole : bytes -> Z -> Z -> Z * bytes.

(** [XStore::_zero(cid, oid, offset, len, osr)], with
    [m_filestore_sloppy_crc] off. *)
Definition _zero (replaying : bool) (st : store) (cid : coll_t)
    (oid : ghobject_t) (offset len : Z) : Z * store :=
  match lfn_open replaying st cid oid false with
  | (ret, Some fd, st) =>
      if ret <? 0 then (ret, st)
      else
        let '(ret, content) :=
          fallocate_punch_hole (content_of st fd) offset len in
        let st := put st fd content in
        if ret =? 0 then (ret, st)                                (* yay! *)
        else if negb (ret =? - EOPNOTSUPP) then (ret, st)
        else
          (* kernel is old and doesn't support it: write zeros *)
          _write replaying st cid oid offset len
            (replicate (Z.to_nat len) Byte.x00)
  | (ret, None, st) => (ret, st)
  end.

End WithFallocate.

(** The fd cache does not stand in the way of [(cid, oid)]: the engine is
    replaying, when the cache is not asked, or a descriptor that the cache
    holds for [oid] is one of the file that the index of [cid] finds. *)
Definition cache_agrees (replaying : bool) (st : store) (cid : coll_t)
    (oid : ghobject_t) : Prop :=
  replaying = true
  \/ forall fd, fdcache st !! oid = Some fd -> index st !! (cid, oid) = Some fd.

(** Two stores with the same collections, names and bytes: they differ in
    the fd cache at most. *)
Definition same_files (st st' : store) : Prop :=
  colls st' = colls st /\ index st' = index st /\ inodes st' = inodes st.

(** The bytes of the object [(cid, oid)], as the index finds them. *)
Definition object_bytes (st : store) (cid : coll_t) (oid : ghobject_t)
    : option bytes :=
  content_of st <$> index st !! (cid, oid).

(** A store with two collections in which the object [o] of [c] was
    written outside replay, so that the fd cache holds its descriptor. *)
Definition written : store :=
  (_write false (Store {[ "c"%string; "d"%string ]} ∅ ∅ ∅) "c" "o" 0 3
     [Byte.x61; Byte.x62; Byte.x63]).2.

End FileData.

(** ** Copying a range of bytes *)

Module CopyRange.
Import FileData.

(** An open file descriptor: the bytes of the file and the file offset. *)
Record fd := Fd { f_bytes : bytes; f_pos : Z }.

(** [int buflen = 4096*32]. *)
Definition buflen : Z := 4096 * 32.

(** [lseek64(fd, offset, SEEK_SET)] with a [uint64_t] argument: the value
    returned and the descriptor.  A negative [off_t] is refused, the value
    is -1 and the offset stays. *)
Definition lseek64 (f : fd) (offset : Z) : Z * fd :=
  if off_t offset <? 0 then (-1, f)
  else (off_t offset, Fd (f_bytes f) (off_t offset)).

(** [read(fd, buf, l)] on a regular file: the value returned, the bytes
    put in [buf] and the descriptor. *)
Definition sys_read (f : fd) (l : Z) : Z * bytes * fd :=
  let data := take (Z.to_nat l) (drop (Z.to_nat (f_pos f)) (f_bytes f)) in
  (Z.of_nat (length data), data,
   Fd (f_bytes f) (f_pos f + Z.of_nat (length data))).

(** [safe_write(fd, buf, n)] on a regular file, for [n > 0]: 0 and the
    descriptor. *)
Definition safe_write (f : fd) (data : bytes) : Z * fd :=
  (0, Fd (write_at (f_bytes f) (Z.to_nat (f_pos f)) data)
         (f_pos f + Z.of_nat (length data))).

(** The loop [while (pos < end)] of [_do_copy_range].  Each trip reads at
    least one byte or ends the loop, so that [fuel] trips are enough when
    [fuel] is at least [end - pos]; [None] is a loop cut short by [fuel]. *)
Fixpoint copy_loop (fuel : nat) (from to : fd) (pos end_ : Z) (r : Z)
    : option (Z * fd * fd) :=
  if pos <? end_ then
    match fuel with
    | O => None
    | S fuel =>
        let l := Z.min (end_ - pos) buflen in
        let '(r, data, from) := sys_read from l in
        if r =? 0 then
          (* hrm, bad source range, wtf. *)
          Some (- ERANGE, from, to)
        else
          let '(r2, to) := safe_write to data in
          if r2 <? 0 then Some (r2, from, to)
          else copy_loop fuel from to (pos + r) end_ r
    end
  else Some (r, from, to).

(** [XStore::_do_copy_range(from, to, srcoff, len, dstoff)], with
    [m_filestore_sloppy_crc] off: the value returned and the two
    descriptors.  A failed [lseek64] makes it return [errno], a positive
    value. *)
Definition _do_copy_range (from to : fd) (srcoff len dstoff : Z)
    : option (Z * fd * fd) :=
  let r := 0 in
  let '(actual, from) := lseek64 from srcoff in
  if negb (actual =? off_t srcoff) then Some (EINVAL, from, to)
  else
    let '(actual, to) := lseek64 to dstoff in
    if negb (actual =? off_t dstoff) then Some (EINVAL, from, to)
    else
      let pos := off_t srcoff in
      let end_ := off_t (srcoff + len) in
      copy_loop (Z.to_nat (end_ - pos)) from to pos end_ r.

End CopyRange.

(** * Properties *)

(** ** Replay guards *)

Section ReplayGuardProofs.
Import ReplayGuard.

Lemma pos_compare_refl a : pos_compare a a = Eq.
Proof. unfold pos_compare. by rewrite !Z.compare_refl. Qed.

Lemma pos_compare_eq a b : pos_compare a b = Eq <-> a = b.
Proof.
  split; [|intros ->; apply pos_compare_refl].
  destruct a as [s t o], b as [s' t' o']; unfold pos_compare; simpl.
  destruct (Z.compare_spec s s'); try discriminate.
  destruct (Z.compare_spec t t'); try discriminate.
  destruct (Z.compare_spec o o'); try discriminate.
  intros _; congruence.
Qed.

Lemma pos_compare_antisym a b : pos_compare b a = CompOpp (pos_compare a b).
Proof.
  unfold pos_compare.
  rewrite (Z.compare_antisym (seq a) (seq b)).
  rewrite (Z.compare_antisym (trans a) (trans b)).
  rewrite (Z.compare_antisym (op a) (op b)).
  destruct (seq a ?= seq b), (trans a ?= trans b), (op a ?= op b); reflexivity.
Qed.

Lemma pos_le_refl a : pos_le a a.
Proof. unfold pos_le. by rewrite pos_compare_refl. Qed.

Lemma pos_lt_gt a b : pos_lt a b <-> pos_compare b a = Gt.
Proof.
  unfold pos_lt. rewrite (pos_compare_antisym a b).
  destruct (pos_compare a b); simpl; split; congruence.
Qed.

(** A check that does not say "skip" found no guard, or a guard that is not
    newer than the current position. *)
Lemma check_allows_le e old spos c :
  replaying e = true -> can_checkpoint e = false ->
  _check_replay_guard e (chain_fgetxattr_guard old) spos = Some c ->
  0 <= c ->
  forall g, old = Some g -> pos_le (g_pos g) spos.
Proof.
  intros Hrep Hcp Hchk Hc g ->. unfold _check_replay_guard in Hchk.
  rewrite Hrep, Hcp in Hchk. simpl in Hchk.
  unfold pos_le, pos_gt, pos_eq in *.
  destruct (pos_compare (g_pos g) spos); try discriminate.
  simplify_eq. lia.
Qed.

(** C1.  The replay check on an open file.  While replaying on a backend
    that cannot checkpoint it returns +1 when the stored position is
    strictly older than the current one or the xattr is absent, 0 when the
    positions are equal and the stored in_progress flag is true, -1 when the
    stored position is strictly newer, or equal without in_progress.  When
    not replaying, or when the backend can checkpoint, it returns +1. *)
Theorem check_replay_guard_cases (e : engine) (r : xattr_result)
    (spos : SequencerPosition) :
  (replaying e = true -> can_checkpoint e = false ->
     (forall g, r = inr g -> pos_lt (g_pos g) spos ->
        _check_replay_guard e r spos = Some 1)
     /\ (r = inl (- ENODATA) -> _check_replay_guard e r spos = Some 1)
     /\ (forall g, r = inr g -> g_pos g = spos -> g_in_progress g = Some true ->
        _check_replay_guard e r spos = Some 0)
     /\ (forall g, r = inr g -> pos_lt spos (g_pos g) ->
        _check_replay_guard e r spos = Some (-1))
     /\ (forall g, r = inr g -> g_pos g = spos -> g_in_progress g <> Some true ->
        _check_replay_guard e r spos = Some (-1)))
  /\ (replaying e = false \/ can_checkpoint e = true ->
      _check_replay_guard e r spos = Some 1).
Proof.
  split.
  - intros Hrep Hcp. unfold _check_replay_guard. rewrite Hrep, Hcp. simpl.
    repeat split.
    + intros g -> Hlt. unfold pos_gt, pos_eq. by rewrite Hlt.
    + intros ->. rewrite andb_false_intro2; [done|].
      apply Z.eqb_neq. unfold ENODATA, EIO. lia.
    + intros g -> <- Hip. unfold pos_gt, pos_eq.
      rewrite pos_compare_refl, Hip. done.
    + intros g -> Hlt. apply pos_lt_gt in Hlt. unfold pos_gt. by rewrite Hlt.
    + intros g -> <- Hip. unfold pos_gt, pos_eq.
      rewrite pos_compare_refl.
      destruct (g_in_progress g) as [[]|]; simpl; congruence.
  - intros [Hrep|Hcp]; unfold _check_replay_guard.
    + by rewrite Hrep.
    + rewrite Hcp. by rewrite orb_true_r.
Qed.

Lemma check_replay_guard_cases_witness :
  _check_replay_guard (Engine true false false)
    (inr (Guard (SPos 5 0 2) (Some true))) (SPos 5 0 2) = Some 0
  /\ _check_replay_guard (Engine true false false)
    (inr (Guard (SPos 5 0 2) (Some true))) (SPos 4 1 0) = Some (-1)
  /\ _check_replay_guard (Engine false false false)
    (inr (Guard (SPos 5 0 2) (Some true))) (SPos 4 1 0) = Some 1.
Proof.
  split; [|split].
  - destruct (proj1 (check_replay_guard_cases (Engine true false false)
             (inr (Guard (SPos 5 0 2) (Some true))) (SPos 5 0 2))
             eq_refl eq_refl) as (_ & _ & H & _).
    apply (H (Guard (SPos 5 0 2) (Some true))); reflexivity.
  - destruct (proj1 (check_replay_guard_cases (Engine true false false)
             (inr (Guard (SPos 5 0 2) (Some true))) (SPos 4 1 0))
             eq_refl eq_refl) as (_ & _ & _ & H & _).
    apply (H (Guard (SPos 5 0 2) (Some true))); reflexivity.
  - apply (proj2 (check_replay_guard_cases (Engine false false false)
             (inr (Guard (SPos 5 0 2) (Some true))) (SPos 4 1 0))).
    left; reflexivity.
Defined.

(** Reading back after [put_object]. *)
Lemma lfn_open_put_object st cid oid x c o :
  lfn_open (put_object st cid oid x) c o =
  if bool_decide (c = cid /\ o = oid) && bool_decide (is_Some (st !! cid))
  then Some x else lfn_open st c o.
Proof.
  unfold lfn_open, put_object.
  destruct (st !! cid) as [col|] eqn:Hcid; simpl.
  - rewrite andb_true_r.
    destruct (decide (c = cid)) as [->|Hc].
    + rewrite lookup_insert_eq, Hcid. simpl.
      destruct (decide (o = oid)) as [->|Ho].
      * rewrite lookup_insert_eq. by rewrite bool_decide_eq_true_2.
      * rewrite lookup_insert_ne by done.
        rewrite bool_decide_eq_false_2; [done|]. intros [_ ?]; done.
    + rewrite lookup_insert_ne by done.
      rewrite bool_decide_eq_false_2; [done|]. intros [? _]; done.
  - by rewrite andb_false_r.
Qed.

(** The check of an object that exists reads the guard of its file. *)
Lemma check_obj_allows_le e st cid oid spos c o g :
  replaying e = true -> can_checkpoint e = false ->
  _check_replay_guard_obj e st cid oid spos = Some c -> 0 <= c ->
  lfn_open st cid oid = Some o -> o_guard o = Some g ->
  pos_le (g_pos g) spos.
Proof.
  intros Hrep Hcp Hchk Hc Ho Hg. unfold _check_replay_guard_obj in Hchk.
  rewrite Hrep, Hcp in Hchk. simpl in Hchk.
  destruct (_check_global_replay_guard e st cid spos) as [r|]; [|done].
  simpl in Hchk. destruct (r <? 0) eqn:Hr.
  - simplify_eq. apply Z.ltb_lt in Hr. lia.
  - rewrite Ho in Hchk. by eapply check_allows_le.
Qed.

(** During replay a clone never lowers the position stored for any object:
    the guard of the destination is written only after the check allowed
    the operation. *)
Lemma clone_guard_monotone e st cid oldoid newoid spos copy_r r st' :
  replaying e = true ->
  _clone e st cid oldoid newoid spos copy_r = Some (r, st') ->
  forall c o p, stored_pos st c o = Some p ->
    exists p', stored_pos st' c o = Some p' /\ pos_le p p'.
Proof.
  intros Hrep Hclone c o p Hp. unfold _clone in Hclone.
  destruct (_check_replay_guard_obj e st cid newoid spos) as [chk|] eqn:Hchk;
    [|done].
  simpl in Hclone. destruct (chk <? 0) eqn:Hneg.
  { simplify_eq. eauto using pos_le_refl. }
  apply Z.ltb_ge in Hneg.
  destruct (lfn_open st cid oldoid) as [src|] eqn:Hsrc.
  2:{ simplify_eq. eauto using pos_le_refl. }
  assert (is_Some (st !! cid)) as Hcid.
  { unfold lfn_open in Hsrc. destruct (st !! cid); [eauto|done]. }
  assert (forall n',
    (forall g, lfn_open st cid newoid ≫= o_guard = Some g ->
       exists g', o_guard n' = Some g' /\ pos_le (g_pos g) (g_pos g')) ->
    exists p', stored_pos (put_object st cid newoid n') c o = Some p'
               /\ pos_le p p') as Hput.
  { intros n' Hn'. unfold stored_pos in *. rewrite lfn_open_put_object.
    rewrite (bool_decide_eq_true_2 _ Hcid), andb_true_r.
    case_bool_decide as Heq; [|eauto using pos_le_refl].
    destruct Heq as [-> ->]. simpl.
    destruct (lfn_open st cid newoid) as [n|]; [|done]. simpl in *.
    destruct (o_guard n) as [g|] eqn:Hg; [|done]. simplify_eq/=.
    destruct (Hn' g eq_refl) as (g' & -> & Hle). eauto. }
  destruct (copy_r <? 0).
  - destruct (m_filestore_fail_eio e && (copy_r =? - EIO)); [done|].
    simplify_eq. apply Hput. intros g Hg.
    destruct (lfn_open st cid newoid) as [n|]; [|done].
    simpl in *. eauto using pos_le_refl.
  - simplify_eq. apply Hput. intros g Hg. simpl.
    destruct (lfn_open st cid newoid) as [n|] eqn:Hn; [|done]. simpl in *.
    unfold _set_replay_guard. destruct (can_checkpoint e) eqn:Hcp.
    + eauto using pos_le_refl.
    + eexists; split; [done|]. simpl. by eapply check_obj_allows_le.
Qed.

(** C5, as stated, fails: outside replay the check is bypassed and the guard
    write is unconditional.  A clone applied at position (3,0,0) onto an
    object whose guard holds (5,0,0) leaves (3,0,0) in the guard. *)
Lemma guard_write_not_monotone :
  let e := Engine false false false in
  let dst := Obj (Some (Guard (SPos 5 0 0) (Some false))) in
  let st : gmap coll_t collection :=
    {[ "c"%string := Coll None None
         (<[ "src"%string := Obj None ]> {[ "dst"%string := dst ]}) ]} in
  fst <$> _clone e st "c" "src" "dst" (SPos 3 0 0) 0 = Some 0
  /\ stored_pos st "c" "dst" = Some (SPos 5 0 0)
  /\ (snd <$> _clone e st "c" "src" "dst" (SPos 3 0 0) 0)
       ≫= (λ st', stored_pos st' "c" "dst") = Some (SPos 3 0 0)
  /\ ~ pos_le (SPos 5 0 0) (SPos 3 0 0).
Proof.
  split; [vm_compute; reflexivity|].
  split; [vm_compute; reflexivity|].
  split; [vm_compute; reflexivity|].
  unfold pos_le. vm_compute. intros H; by apply H.
Qed.

(** C5, amended.  While replaying on a backend that cannot checkpoint, a
    guard write (set or close) that follows a replay check of the same file
    which did not return -1 stores a position at least the stored one, and
    a whole clone never lowers the position stored for any object.  On a
    backend that can checkpoint no guard is written.  When not replaying the
    check returns +1 without reading the guard and the write stores the
    current position, whatever was stored. *)
Theorem guard_write_monotone_on_replay (e : engine) (old : option guard)
    (spos : SequencerPosition) (in_progress : bool) :
  (replaying e = true -> can_checkpoint e = false ->
   forall c g,
     _check_replay_guard e (chain_fgetxattr_guard old) spos = Some c ->
     0 <= c -> old = Some g ->
     (exists g', _set_replay_guard e old spos in_progress = Some g'
                 /\ pos_le (g_pos g) (g_pos g'))
     /\ (exists g', _close_replay_guard e old spos = Some g'
                    /\ pos_le (g_pos g) (g_pos g')))
  /\ (replaying e = true ->
      forall st cid oldoid newoid copy_r r st',
        _clone e st cid oldoid newoid spos copy_r = Some (r, st') ->
        forall c o p, stored_pos st c o = Some p ->
          exists p', stored_pos st' c o = Some p' /\ pos_le p p')
  /\ (can_checkpoint e = true ->
      _set_replay_guard e old spos in_progress = old
      /\ _close_replay_guard e old spos = old)
  /\ (replaying e = false -> can_checkpoint e = false ->
      _check_replay_guard e (chain_fgetxattr_guard old) spos = Some 1
      /\ _set_replay_guard e old spos in_progress
         = Some (Guard spos (Some in_progress))
      /\ _close_replay_guard e old spos = Some (Guard spos (Some false))).
Proof.
  split; [|split; [|split]].
  - intros Hrep Hcp c g Hchk Hc Hold.
    unfold _set_replay_guard, _close_replay_guard. rewrite Hcp.
    split; (eexists; split; [done|]); simpl; by eapply check_allows_le.
  - intros Hrep st cid oldoid newoid copy_r r st' Hclone.
    by eapply clone_guard_monotone.
  - intros Hcp. unfold _set_replay_guard, _close_replay_guard.
    by rewrite Hcp.
  - intros Hrep Hcp.
    unfold _check_replay_guard, _set_replay_guard, _close_replay_guard.
    by rewrite Hrep, Hcp.
Qed.

Lemma guard_write_monotone_on_replay_witness :
  let e := Engine true false false in
  let old := Some (Guard (SPos 5 0 0) (Some true)) in
  exists g', _set_replay_guard e old (SPos 5 0 0) true = Some g'
             /\ pos_le (SPos 5 0 0) (g_pos g').
Proof.
  intros e old.
  destruct (guard_write_monotone_on_replay e old (SPos 5 0 0) true)
    as (H & _).
  destruct (H eq_refl eq_refl 0 (Guard (SPos 5 0 0) (Some true)))
    as (Hset & _).
  - reflexivity.
  - lia.
  - reflexivity.
  - exact Hset.
Defined.

End ReplayGuardProofs.

(** ** The admission throttle *)

Section ThrottleProofs.
Import Throttle.

Lemma u64_small x : 0 <= x < 2 ^ 64 -> u64 x = x.
Proof. intros H. unfold u64. by apply Z.mod_small. Qed.

(** The ceilings in force for a call, when nothing wraps. *)
Lemma ceilings_in_range cfg cp committing :
  0 <= m_filestore_queue_max_ops cfg ->
  0 <= m_filestore_queue_max_bytes cfg ->
  0 <= m_filestore_queue_committing_max_ops cfg ->
  0 <= m_filestore_queue_committing_max_bytes cfg ->
  m_filestore_queue_max_ops cfg
    + m_filestore_queue_committing_max_ops cfg < 2 ^ 64 ->
  m_filestore_queue_max_bytes cfg
    + m_filestore_queue_committing_max_bytes cfg < 2 ^ 64 ->
  ceilings cfg cp committing =
    (m_filestore_queue_max_ops cfg
       + (if cp && committing
          then m_filestore_queue_committing_max_ops cfg else 0),
     m_filestore_queue_max_bytes cfg
       + (if cp && committing
          then m_filestore_queue_committing_max_bytes cfg else 0)).
Proof.
  intros. unfold ceilings.
  rewrite (u64_small (m_filestore_queue_max_ops cfg)) by lia.
  rewrite (u64_small (m_filestore_queue_max_bytes cfg)) by lia.
  destruct (cp && committing).
  - rewrite !u64_small by lia. done.
  - by rewrite !Z.add_0_r.
Qed.

(** C3, as stated, fails.  For the bytes: an op larger than the ceiling is
    admitted when no bytes are in flight ("let single large ops through").
    For the moments between admissions: what was admitted under the raised
    ceilings of a commit is still in flight when the commit is over and the
    ceilings are the configured ones again. *)
Lemma single_large_op_exceeds_max_bytes :
  let cfg := Config 10 100 5 50 in
  (op_queue_reserve_throttle cfg false false (State 0 0) 200
     = Some (State 1 200)
   /\ (ceilings cfg false false).2 < 200)
  /\ (op_queue_reserve_throttle cfg true true (State 14 60) 10
        = Some (State 15 70)
      /\ (ceilings cfg true false).1 < 15).
Proof. repeat split; vm_compute; reflexivity. Qed.

(** The number of ops in flight along a history: it is the counter, and it
    stays within the raised ceiling. *)
Lemma run_ops_bounded (cfg : config) (cp : bool) (calls : list call)
    (st : state) (in_flight : list Z) (st' : state) (in_flight' : list Z) :
  0 < m_filestore_queue_max_ops cfg ->
  0 <= m_filestore_queue_max_bytes cfg ->
  0 <= m_filestore_queue_committing_max_ops cfg ->
  0 <= m_filestore_queue_committing_max_bytes cfg ->
  m_filestore_queue_max_ops cfg
    + m_filestore_queue_committing_max_ops cfg + 1 < 2 ^ 64 ->
  m_filestore_queue_max_bytes cfg
    + m_filestore_queue_committing_max_bytes cfg < 2 ^ 64 ->
  let top := m_filestore_queue_max_ops cfg
    + (if cp then m_filestore_queue_committing_max_ops cfg else 0) in
  op_queue_len st = Z.of_nat (length in_flight) -> op_queue_len st <= top ->
  run cfg cp st in_flight calls = Some (st', in_flight') ->
  op_queue_len st' = Z.of_nat (length in_flight') /\ op_queue_len st' <= top.
Proof.
  intros Hops Hbytes Hdops Hdbytes Hwops Hwbytes top.
  revert st in_flight.
  induction calls as [|[o_bytes committing|i] calls IH];
    intros st in_flight Hlen Htop Hrun; cbn [run] in Hrun.
  - by simplify_eq.
  - destruct (op_queue_reserve_throttle cfg cp committing st o_bytes)
      as [st1|] eqn:Hres; [|done].
    cbn in Hrun. apply IH in Hrun; [done| |].
    all: unfold op_queue_reserve_throttle in Hres;
      rewrite ceilings_in_range in Hres by lia;
      destruct (must_wait _ _ st o_bytes) eqn:Hwait; [done|];
      simplify_eq; cbn [op_queue_len];
      unfold must_wait in Hwait; apply orb_false_iff in Hwait as [Hw _];
      rewrite u64_small in Hw |- * by (unfold top in Htop; destruct cp; lia).
    + rewrite length_app. cbn [length]. lia.
    + apply andb_false_iff in Hw as [Hw|Hw].
      * apply negb_false_iff, Z.eqb_eq in Hw. destruct (cp && committing); lia.
      * rewrite Z.gtb_ltb in Hw. apply Z.ltb_ge in Hw.
        unfold top. destruct cp, committing; cbn [andb] in Hw; lia.
  - destruct (in_flight !! i) as [o_bytes|] eqn:Hi; [|done].
    cbn in Hrun. apply lookup_lt_Some in Hi as Hlt.
    apply IH in Hrun; [done| |]; cbn [op_queue_len op_queue_release_throttle].
    all: rewrite u64_small by (unfold top in Htop; destruct cp; lia).
    + rewrite length_delete by eauto. lia.
    + lia.
Qed.

(** C3, amended.  With nonzero configured ceilings and counters that do not
    wrap, an admission leaves the number of in-flight ops at most the
    max-ops ceiling in force for that call, and leaves the in-flight bytes
    at most the max-bytes ceiling in force unless no bytes were in flight
    before it, in which case the op is admitted whatever its size.  The
    ceiling in force is the configured one, raised by the committing delta
    exactly when the backend can checkpoint and a commit is in progress at
    the call.  At every moment the number of ops in flight is at most the
    max-ops ceiling raised by its delta when the backend can checkpoint,
    and at most the configured ceiling when it cannot. *)
Theorem reserve_respects_ceilings (cfg : config) (cp : bool) :
  0 < m_filestore_queue_max_ops cfg ->
  0 < m_filestore_queue_max_bytes cfg ->
  0 <= m_filestore_queue_committing_max_ops cfg ->
  0 <= m_filestore_queue_committing_max_bytes cfg ->
  m_filestore_queue_max_ops cfg
    + m_filestore_queue_committing_max_ops cfg + 1 < 2 ^ 64 ->
  m_filestore_queue_max_bytes cfg
    + m_filestore_queue_committing_max_bytes cfg < 2 ^ 64 ->
  (forall (committing : bool) (st st' : state) (o_bytes : Z),
     0 <= op_queue_len st -> op_queue_len st + 1 < 2 ^ 64 ->
     0 <= op_queue_bytes st -> 0 <= o_bytes ->
     op_queue_bytes st + o_bytes < 2 ^ 64 ->
     op_queue_reserve_throttle cfg cp committing st o_bytes = Some st' ->
     let raised := cp && committing in
     let max_ops := m_filestore_queue_max_ops cfg
       + (if raised then m_filestore_queue_committing_max_ops cfg else 0) in
     let max_bytes := m_filestore_queue_max_bytes cfg
       + (if raised then m_filestore_queue_committing_max_bytes cfg else 0) in
     op_queue_len st' = op_queue_len st + 1
     /\ op_queue_bytes st' = op_queue_bytes st + o_bytes
     /\ op_queue_len st' <= max_ops
     /\ (op_queue_bytes st <> 0 -> op_queue_bytes st' <= max_bytes))
  /\ (forall (calls : list call) (st : state) (in_flight : list Z),
       run cfg cp (State 0 0) [] calls = Some (st, in_flight) ->
       op_queue_len st = Z.of_nat (length in_flight)
       /\ op_queue_len st <= m_filestore_queue_max_ops cfg
            + (if cp then m_filestore_queue_committing_max_ops cfg else 0)).
Proof.
  intros Hops Hbytes Hdops Hdbytes Hwops Hwbytes. split.
  - intros committing st st' o_bytes Hlen Hlen' Hb Hob Hb' Hres.
    intros raised max_ops max_bytes.
    unfold op_queue_reserve_throttle in Hres.
    rewrite ceilings_in_range in Hres by lia.
    fold raised in Hres. fold max_ops in Hres. fold max_bytes in Hres.
    destruct (must_wait max_ops max_bytes st o_bytes) eqn:Hwait; [done|].
    simplify_eq. simpl. rewrite !u64_small by lia.
    unfold must_wait in Hwait. rewrite !u64_small in Hwait by lia.
    apply orb_false_iff in Hwait as [Hw1 Hw2].
    assert (0 < max_ops) by (unfold max_ops; destruct raised; lia).
    assert (0 < max_bytes) by (unfold max_bytes; destruct raised; lia).
    rewrite (proj2 (Z.eqb_neq max_ops 0)) in Hw1 by lia.
    rewrite (proj2 (Z.eqb_neq max_bytes 0)) in Hw2 by lia.
    simpl in *. repeat split.
    + rewrite Z.gtb_ltb in Hw1. apply Z.ltb_ge in Hw1. lia.
    + intros Hne. rewrite (proj2 (Z.eqb_neq _ 0) Hne) in Hw2. simpl in Hw2.
      rewrite Z.gtb_ltb in Hw2. apply Z.ltb_ge in Hw2. lia.
  - intros calls st in_flight Hrun.
    eapply run_ops_bounded in Hrun; try done; try lia.
    simpl. destruct cp; lia.
Qed.

Lemma reserve_respects_ceilings_witness :
  let cfg := Config 10 100 5 50 in
  op_queue_len (State 10 60) <= 10 + 5
  /\ (op_queue_bytes (State 9 20) <> 0 ->
      op_queue_bytes (State 10 60) <= 100 + 50).
Proof.
  intros cfg.
  unshelve refine (let H := proj1 (reserve_respects_ceilings cfg true
                                     _ _ _ _ _ _)
                              true (State 9 20) (State 10 60) 40
                              _ _ _ _ _ _ in _).
  13: { destruct H as (_ & _ & Hops & Hbytes).
        split; [exact Hops | exact Hbytes]. }
  1-11: simpl; lia.
  vm_compute; reflexivity.
Defined.

(** A release never raises a counter. *)
Lemma release_lowers st o_bytes :
  0 < op_queue_len st < 2 ^ 64 ->
  0 <= o_bytes <= op_queue_bytes st -> op_queue_bytes st < 2 ^ 64 ->
  op_queue_len (op_queue_release_throttle st o_bytes) = op_queue_len st - 1
  /\ op_queue_bytes (op_queue_release_throttle st o_bytes)
     = op_queue_bytes st - o_bytes.
Proof. intros. simpl. rewrite !u64_small by lia. done. Qed.

End ThrottleProofs.

(** ** The transaction applier *)

Section ApplierProofs.
Import Transaction Applier.

(** No branch of the policy tolerates ENOSPC, except the one that ignores
    every error of the advisory OP_SETALLOCHINT. *)
Lemma enospc_not_ok e op :
  op <> OP_SETALLOCHINT -> error_ok e op (- ENOSPC) = false.
Proof.
  intros Hop. unfold error_ok.
  rewrite (bool_decide_eq_false_2 _ Hop).
  replace (- ENOSPC =? - ENOENT) with false by reflexivity.
  replace (- ENOSPC =? - ENODATA) with false by reflexivity.
  replace (- ENOSPC =? - EEXIST) with false by reflexivity.
  replace (- ENOSPC =? - ERANGE) with false by reflexivity.
  simpl. by destruct (replaying e && negb (can_checkpoint e)).
Qed.

Lemma enospc_fatal_log op :
  fatal_log op (- ENOSPC) =
  [LogNotHandled (- ENOSPC); LogMsg "ENOSPC handling not implemented";
   DumpTransaction].
Proof.
  unfold fatal_log, error_msg.
  replace (- ENOSPC =? - ENOENT) with false by reflexivity.
  replace (- ENOSPC =? - ENOSPC) with true by reflexivity.
  replace (- ENOSPC =? - ENOTEMPTY) with false by reflexivity.
  replace (- ENOSPC =? - EMFILE) with false by reflexivity.
  reflexivity.
Qed.

(** The policy lets every result of OP_SETALLOCHINT pass. *)
Lemma setallochint_ok e r : error_ok e OP_SETALLOCHINT r = true.
Proof.
  unfold error_ok. rewrite (bool_decide_eq_true_2 _ eq_refl).
  rewrite !(bool_decide_eq_false_2 (OP_SETALLOCHINT = _)) by discriminate.
  rewrite !andb_false_r.
  destruct (replaying e && negb (can_checkpoint e)); [|done].
  destruct (r =? - ERANGE), (r =? - ENOENT); done.
Qed.

(** One trip for OP_SETALLOCHINT goes on to the next op, whatever it
    returned. *)
Lemma setallochint_step e o_init trans_num r p post n :
  do_transaction_loop e o_init trans_num (Step OP_SETALLOCHINT r p :: post) n
  = do_transaction_loop e o_init trans_num post (S n).
Proof.
  cbn [do_transaction_loop s_op s_r has_case negb].
  unfold write_assert, pauses. cbn [s_op].
  rewrite !(bool_decide_eq_false_2 (OP_SETALLOCHINT = OP_WRITE))
    by discriminate.
  cbn [andb negb]. rewrite setallochint_ok. cbn [negb].
  by rewrite andb_false_r.
Qed.

(** The loop reaches a step that follows steps that do not pause, unless it
    has aborted before. *)
Lemma loop_reaches e o_init trans_num pre s post n :
  Forall (λ x, pauses x = false) pre ->
  (exists log,
     do_transaction_loop e o_init trans_num (pre ++ s :: post) n = Aborted log)
  \/ do_transaction_loop e o_init trans_num (pre ++ s :: post) n
     = do_transaction_loop e o_init trans_num (s :: post) (n + length pre)%nat.
Proof.
  intros Hpre. revert n. induction Hpre as [|x pre Hx _ IH]; intros n.
  - right. simpl. by rewrite Nat.add_0_r.
  - replace (n + length (x :: pre))%nat with (S n + length pre)%nat
      by (cbn [length]; lia).
    rewrite <- app_comm_cons. cbn [do_transaction_loop].
    destruct (negb (has_case (s_op x))); [left; eauto|].
    destruct (negb (write_assert o_init trans_num n (s_op x)));
      [left; eauto|].
    destruct ((s_r x <? 0) && negb (error_ok e (s_op x) (s_r x)));
      [left; eauto|].
    rewrite Hx. destruct (IH (S n)) as [? | ->]; [by left|].
    by right.
Qed.

Lemma loop_passes e o_init trans_num pre rest n :
  all_pass e o_init trans_num n pre = true ->
  do_transaction_loop e o_init trans_num (pre ++ rest) n
  = do_transaction_loop e o_init trans_num rest (n + length pre)%nat.
Proof.
  revert n. induction pre as [|x pre IH]; intros n Hpre.
  - simpl. by rewrite Nat.add_0_r.
  - replace (n + length (x :: pre))%nat with (S n + length pre)%nat
      by (cbn [length]; lia).
    cbn [all_pass] in Hpre.
    apply andb_true_iff in Hpre as [Hx Hpre]. unfold passes in Hx.
    apply andb_true_iff in Hx as [Hx Hp].
    apply andb_true_iff in Hx as [Hx Hr].
    apply andb_true_iff in Hx as [Hc Hw].
    rewrite <- app_comm_cons. cbn [do_transaction_loop].
    rewrite Hc, Hw. cbn [negb].
    apply negb_true_iff in Hr, Hp. rewrite Hr, Hp.
    by rewrite IH.
Qed.

(** The same steps before an op give the same outcome when the op and
    what follows give the same outcome from every position. *)
Lemma loop_congr e o_init trans_num pre rest rest' n :
  (forall m, do_transaction_loop e o_init trans_num rest m
             = do_transaction_loop e o_init trans_num rest' m) ->
  do_transaction_loop e o_init trans_num (pre ++ rest) n
  = do_transaction_loop e o_init trans_num (pre ++ rest') n.
Proof.
  intros Hrest. revert n. induction pre as [|x pre IH]; intros n.
  - apply Hrest.
  - rewrite <- !app_comm_cons. cbn [do_transaction_loop]. by rewrite IH.
Qed.

(** C6, as stated, fails: every error of OP_SETALLOCHINT is ignored, ENOSPC
    included, in normal apply and in replay; the transaction goes on. *)
Lemma enospc_on_setallochint_tolerated :
  _do_transaction (Engine false false false) false 0
    [Step OP_SETALLOCHINT (- ENOSPC) false; Step OP_TOUCH 0 false]
    = Returned 2 false
  /\ _do_transaction (Engine true false false) false 0
    [Step OP_SETALLOCHINT (- ENOSPC) false; Step OP_TOUCH 0 false]
    = Returned 2 false.
Proof. split; vm_compute; reflexivity. Qed.

(** C6, amended.  If an operation other than the advisory OP_SETALLOCHINT
    returns ENOSPC, no operation before it having paused the transaction,
    the applier aborts the process, during normal apply and during replay
    alike: the call never returns to its caller.  When the operations
    before it let the loop go on, and the operation has a case in the
    switch and passes the assertion of OP_WRITE, the abort is the one of
    this operation, after the message "ENOSPC handling not implemented" and
    the dump of the transaction.  Every error of OP_SETALLOCHINT, ENOSPC
    included, is ignored: the transaction ends as it does when the
    operation returns 0, and when the operations before it let the loop go
    on, the loop goes on with the operation after it. *)
Theorem enospc_aborts (e : engine) (o_init : bool) (trans_num : Z)
    (pre post : list step) :
  (forall s : step,
     s_r s = - ENOSPC ->
     s_op s <> OP_SETALLOCHINT ->
     Forall (λ x, pauses x = false) pre ->
     (exists log,
        _do_transaction e o_init trans_num (pre ++ s :: post) = Aborted log)
     /\ (has_case (s_op s) = true ->
         write_assert o_init trans_num (length pre) (s_op s) = true ->
         all_pass e o_init trans_num 0 pre = true ->
         _do_transaction e o_init trans_num (pre ++ s :: post)
         = Aborted [LogNotHandled (- ENOSPC);
                    LogMsg "ENOSPC handling not implemented";
                    DumpTransaction]))
  /\ (forall (r : Z) (p : bool),
        _do_transaction e o_init trans_num
          (pre ++ Step OP_SETALLOCHINT r p :: post)
        = _do_transaction e o_init trans_num
            (pre ++ Step OP_SETALLOCHINT 0 p :: post)
        /\ (all_pass e o_init trans_num 0 pre = true ->
            do_transaction_loop e o_init trans_num
              (pre ++ Step OP_SETALLOCHINT r p :: post) 0
            = do_transaction_loop e o_init trans_num post (S (length pre)))).
Proof.
  split.
  - intros s Hr Hop Hpre.
    assert (forall n, exists log,
              do_transaction_loop e o_init trans_num (s :: post) n
              = Aborted log) as Hs.
    { intros n. simpl. destruct (negb (has_case (s_op s))); [eauto|].
      destruct (negb (write_assert o_init trans_num n (s_op s))); [eauto|].
      rewrite Hr, enospc_not_ok by done. simpl. eauto. }
    split.
    + unfold _do_transaction.
      destruct (loop_reaches e o_init trans_num pre s post 0 Hpre)
        as [[log ->] | ->]; [eauto|].
      destruct (Hs (0 + length pre)%nat) as [log ->]. eauto.
    + intros Hcase Hassert Hpass. unfold _do_transaction.
      rewrite loop_passes by done. simpl.
      rewrite Hcase, Hassert, Hr, enospc_not_ok by done. simpl.
      by rewrite enospc_fatal_log.
  - intros r p. split.
    + unfold _do_transaction.
      rewrite (loop_congr e o_init trans_num pre
                 (Step OP_SETALLOCHINT r p :: post)
                 (Step OP_SETALLOCHINT 0 p :: post)); [done|].
      intros m. by rewrite !setallochint_step.
    + intros Hpass. rewrite loop_passes by done.
      by rewrite setallochint_step.
Qed.

Lemma enospc_aborts_witness :
  _do_transaction (Engine true false false) false 0
    ([Step OP_TOUCH 0 false] ++ Step OP_WRITE (- ENOSPC) true
       :: [Step OP_SETATTRS 0 false])
  = Aborted [LogNotHandled (- ENOSPC);
             LogMsg "ENOSPC handling not implemented"; DumpTransaction].
Proof.
  apply (proj2 (proj1 (enospc_aborts (Engine true false false) false 0
                         [Step OP_TOUCH 0 false] [Step OP_SETATTRS 0 false])
                  (Step OP_WRITE (- ENOSPC) true)
                  eq_refl ltac:(discriminate)
                  ltac:(repeat constructor))).
  - reflexivity.
  - reflexivity.
  - reflexivity.
Defined.

End ApplierProofs.

(** ** The WAL classifier *)

Section WalProofs.
Import Transaction Wal.

(** The scan never reads beyond index 3: the counter [i] stops at 3 and [j]
    never overtakes it. *)
Lemma scan_reads_le_3 junk ops i j reads :
  (i <= 3)%nat -> (j <= i)%nat ->
  Forall (λ k, k <= 3)%nat reads ->
  Forall (λ k, k <= 3)%nat (scan junk ops i j reads).2.
Proof.
  revert i j reads.
  induction ops as [|op ops IH]; intros i j reads Hi Hj Hreads; [done|].
  cbn [scan].
  destruct (bool_decide (i = 2%nat) && bool_decide (op = OP_OMAP_RMKEYS))
    eqn:Hc.
  { apply andb_true_iff in Hc as [Hi2 _]. apply bool_decide_eq_true in Hi2.
    apply IH; [lia|lia|done]. }
  destruct (bool_decide (op = OP_WRITE_AHEAD)); [done|].
  assert (Forall (λ k, k <= 3)%nat (reads ++ [j])) as Hreads'.
  { apply Forall_app; split; [done|]. constructor; [lia|done]. }
  destruct (bool_decide (op ≠ read_not_wal_ops junk j)); [done|].
  destruct (bool_decide (not_wal_ops_len ≤ i)%nat) eqn:Hlen; [done|].
  apply bool_decide_eq_false in Hlen.
  unfold not_wal_ops_len in Hlen. simpl in Hlen.
  apply IH; [lia|lia|done].
Qed.

(** What lies behind the table does not change the verdict: a read at
    index 3 happens only when [i] is 3, and then the third operand of the
    [||] sets [wal] whatever was read. *)
Lemma scan_verdict_junk junk junk' ops i j reads reads' :
  (i <= 3)%nat -> (j <= i)%nat ->
  (scan junk ops i j reads).1 = (scan junk' ops i j reads').1.
Proof.
  revert i j reads reads'.
  induction ops as [|op ops IH]; intros i j reads reads' Hi Hj; [done|].
  cbn [scan].
  destruct (bool_decide (i = 2%nat) && bool_decide (op = OP_OMAP_RMKEYS))
    eqn:Hc.
  { apply andb_true_iff in Hc as [Hi2 _]. apply bool_decide_eq_true in Hi2.
    apply IH; lia. }
  destruct (bool_decide (op = OP_WRITE_AHEAD)); [done|].
  destruct (decide (j < 3)%nat) as [Hj3|Hj3].
  - assert (read_not_wal_ops junk j = read_not_wal_ops junk' j) as ->.
    { unfold read_not_wal_ops, not_wal_ops.
      destruct j as [|[|[|j]]]; simpl; try done. lia. }
    destruct (bool_decide (op ≠ read_not_wal_ops junk' j)); [done|].
    destruct (bool_decide (not_wal_ops_len ≤ i)%nat) eqn:Hlen; [done|].
    apply bool_decide_eq_false in Hlen.
    unfold not_wal_ops_len in Hlen. simpl in Hlen. apply IH; lia.
  - assert (bool_decide (not_wal_ops_len ≤ i)%nat = true) as ->.
    { apply bool_decide_eq_true. unfold not_wal_ops_len. simpl. lia. }
    by destruct (bool_decide (op ≠ read_not_wal_ops junk j)),
                (bool_decide (op ≠ read_not_wal_ops junk' j)).
Qed.

(** C10.  The table is read outside its bounds.  For the ops of an ordinary
    write (write, setattrs, two omap_setkeys) the scan compares the fourth
    opcode with [not_wal_ops[3]] before the bounds condition [i >= 3] is
    evaluated: the indices read are 0, 1, 2 and 3, and index 3 is outside
    the three-element table. *)
Theorem should_wal_reads_index_3 (junk : opcode) :
  _should_wal_trace junk
    [Txn false [OP_WRITE; OP_SETATTRS; OP_OMAP_SETKEYS; OP_OMAP_SETKEYS]]
  = (true, [0; 1; 2; 3]%nat)
  /\ not_wal_ops !! 3%nat = None.
Proof.
  split; [|done].
  destruct junk; vm_compute; reflexivity.
Qed.

(** Index 3 is the worst case: no list of transactions makes the scan read
    an index above 3. *)
Lemma should_wal_reads_le_3 junk tls :
  Forall (λ k, k <= 3)%nat (_should_wal_trace junk tls).2.
Proof.
  unfold _should_wal_trace. destruct (gather tls []); [|done].
  apply scan_reads_le_3; [lia|lia|constructor].
Qed.

End WalProofs.

(** ** The checkpoint stanza of mount *)

Section MountProofs.
Import Mount.

(** The loop keeps the numbers of the listing in order, and its assertion
    makes them increase: the last one is the highest. *)
Lemma scan_checkpoints_spec l prev snaps cs snaps' cs' :
  scan_checkpoints l prev snaps cs = Some (snaps', cs') ->
  snaps' = snaps ++ commit_seqs l
  /\ Forall (λ c, prev < c <= default prev (last (commit_seqs l)))
            (commit_seqs l).
Proof.
  revert prev snaps cs.
  induction l as [|[c|name|name] l IH]; intros prev snaps cs Hscan;
    cbn [scan_checkpoints] in Hscan.
  - simplify_eq. unfold commit_seqs. simpl. by rewrite app_nil_r.
  - destruct (c >? prev) eqn:Hc; [|done].
    rewrite Z.gtb_ltb in Hc. apply Z.ltb_lt in Hc.
    apply IH in Hscan as [-> Hall].
    change (commit_seqs (CommitSnap c :: l)) with (c :: commit_seqs l).
    split; [by rewrite <- app_assoc|].
    destruct (commit_seqs l) as [|c' l'] eqn:Hl.
    + constructor; [simpl; lia|constructor].
    + assert (last (c :: c' :: l') = last (c' :: l')) as -> by done.
      destruct (last (c' :: l')) as [m|] eqn:Hlast; simpl in *.
      * apply Forall_cons in Hall as Hall'. destruct Hall' as [Hc' _].
        constructor; [lia|].
        eapply Forall_impl; [exact Hall|]. simpl. intros; lia.
      * by apply last_None in Hlast.
  - by apply IH in Hscan.
  - by apply IH in Hscan.
Qed.


(** The cluster snapshots collected are those of the listing. *)
Lemma scan_checkpoints_cluster l prev snaps cs snaps' cs' name :
  scan_checkpoints l prev snaps cs = Some (snaps', cs') ->
  name ∈ cs' <-> name ∈ cs \/ ClusterSnap name ∈ l.
Proof.
  revert prev snaps cs.
  induction l as [|[c|n|n] l IH]; intros prev snaps cs Hscan;
    cbn [scan_checkpoints] in Hscan.
  - simplify_eq. rewrite elem_of_nil. tauto.
  - destruct (c >? prev); [|done]. rewrite (IH _ _ _ Hscan), elem_of_cons.
    intuition congruence.
  - rewrite (IH _ _ _ Hscan), elem_of_cons, elem_of_union, elem_of_singleton.
    intuition congruence.
  - rewrite (IH _ _ _ Hscan), elem_of_cons. intuition congruence.
Qed.




End MountProofs.

(** ** Snapshot pruning in the commit thread *)

Section SyncEntryProofs.
Import SyncEntry.

(** The loop pops the front while more than two snapshots remain: it keeps
    the last two and destroys the others, oldest first. *)
Lemma prune_snaps_spec snaps calls :
  prune_snaps snaps calls =
  (drop (length snaps - 2) snaps,
   calls ++ (DestroyCheckpoint <$> take (length snaps - 2) snaps)).
Proof.
  revert calls. induction snaps as [|front rest IH]; intros calls.
  - simpl. by rewrite app_nil_r.
  - cbn [prune_snaps]. destruct (2 <? length (front :: rest))%nat eqn:Hlen.
    + apply Nat.ltb_lt in Hlen. cbn [length] in Hlen.
      rewrite IH. cbn [length].
      replace (S (length rest) - 2)%nat with (S (length rest - 2)) by lia.
      cbn [drop take fmap list_fmap]. by rewrite <- app_assoc.
    + apply Nat.ltb_ge in Hlen. cbn [length] in *.
      replace (S (length rest) - 2)%nat with 0%nat by lia.
      simpl. by rewrite app_nil_r.
Qed.

(** Destroying the oldest checkpoints one by one leaves the others. *)
Lemma destroy_oldest disk n :
  foldl backend_apply disk (DestroyCheckpoint <$> take n disk) = drop n disk.
Proof.
  revert disk. induction n as [|n IH]; intros [|c disk]; try done.
  cbn [take fmap list_fmap foldl backend_apply remove_checkpoint drop].
  rewrite Z.eqb_refl. apply IH.
Qed.

(** C9.  A commit on a checkpoint-capable backend ends with at most two
    snapshots retained in [snaps]: the new checkpoint is appended, then the
    oldest retained checkpoint is destroyed, again and again, while more
    than two remain.  What is kept are the two newest, in [snaps] and, when
    the checkpoints of the backend were those of [snaps] and its calls
    succeed, on the backend. *)
Theorem commit_retains_at_most_two (cp : Z) (snaps : list Z) :
  let all := snaps ++ [cp] in
  let after := sync_entry_cycle true true cp snaps in
  (length after.1 <= 2)%nat
  /\ after.1 = drop (length all - 2) all
  /\ after.2 = CreateCheckpoint cp
               :: (DestroyCheckpoint <$> take (length all - 2) all)
  /\ foldl backend_apply snaps after.2 = after.1.
Proof.
  intros all after. unfold after, sync_entry_cycle. fold all.
  rewrite prune_snaps_spec. cbn [fst snd app]. repeat split.
  - rewrite length_drop. lia.
  - cbn [foldl backend_apply]. apply destroy_oldest.
Qed.

End SyncEntryProofs.

(** ** Object attributes *)

Section AttrsProofs.
Import Attrs.

Variable nchunks : list Byte.byte -> Z.

Ltac simpl_locals :=
  unfold omap_set_push;
  cbn [l_xattrs l_inline_set l_omap_set l_omap_remove fst snd].

(** With the reliable backend a C string is stored under its own name. *)
Lemma fsetattr_reliable (xs : gmap string (list Byte.byte)) k v chunks :
  c_str k = k -> _fsetattr reliable xs k v chunks = (0, <[k := v]> xs).
Proof. intros Hc. unfold _fsetattr. by rewrite Hc. Qed.

Lemma set_xattrs_reliable om oid (m : gmap string (list Byte.byte)) :
  set_xattrs reliable om oid m
  = (0, <[oid := m ∪ default ∅ (om !! oid)]> om).
Proof. done. Qed.

(** A trip that goes on to the next entry is the trip of the reliable
    backend: the one write of a trip has gone through. *)
Lemma setattrs_step_transfer b cfg ii spill_out k v r l r' l' :
  setattrs_step b cfg ii spill_out k v r l = inr (r', l') ->
  setattrs_step reliable cfg ii spill_out k v r l = inr (r', l').
Proof.
  unfold setattrs_step. cbv zeta.
  destruct ii; [done|].
  destruct (Z.of_nat (length v) >? m_filestore_max_inline_xattr_size cfg);
    [done|].
  destruct (bool_decide (l_inline_set l !! k = None)
            && (Z.of_nat (size (l_inline_set l))
                >=? m_filestore_max_inline_xattrs cfg)); [done|].
  unfold _fsetattr. cbn [chain_fsetxattr_r reliable].
  change (0 <? 0) with false. cbv iota zeta.
  destruct (l_inline_set l !! k) as [c|]; [destruct (c >? 0)|];
    destruct (chain_fsetxattr_r b (c_str k) v <? 0) eqn:Hneg;
    cbv beta iota zeta; rewrite ?Hneg; change (0 <? 0) with false;
    done.
Qed.

Lemma setattrs_loop_transfer b cfg ii spill_out aset r l r' l' :
  setattrs_loop b cfg ii spill_out aset r l = inr (r', l') ->
  setattrs_loop reliable cfg ii spill_out aset r l = inr (r', l').
Proof.
  revert r l. induction aset as [|[k v] aset IH]; intros r l;
    cbn [setattrs_loop]; [done|].
  destruct (setattrs_step b cfg ii spill_out k v r l) as [?|[r1 l1]] eqn:Hs;
    [done|].
  apply setattrs_step_transfer in Hs. rewrite Hs. apply IH.
Qed.

(** The loop jumps to [out_close] with a negative value only. *)
Lemma setattrs_step_inl b cfg ii spill_out k v r l r' l' :
  setattrs_step b cfg ii spill_out k v r l = inl (r', l') -> r' < 0.
Proof.
  unfold setattrs_step. cbv zeta.
  destruct ii; [done|].
  destruct (Z.of_nat (length v) >? m_filestore_max_inline_xattr_size cfg).
  { destruct (l_inline_set l !! k); [|done].
    destruct (chain_fremovexattr (l_xattrs l) (c_str k)) as [r1 xs].
    destruct (r1 <? 0) eqn:Hneg; [|done].
    intros [= <- _]. by apply Z.ltb_lt. }
  destruct (bool_decide (l_inline_set l !! k = None)
            && (Z.of_nat (size (l_inline_set l))
                >=? m_filestore_max_inline_xattrs cfg)); [done|].
  destruct (l_inline_set l !! k) as [c|]; [destruct (c >? 0)|];
    destruct (_fsetattr b (l_xattrs l) k v _) as [r1 xs];
    destruct (r1 <? 0) eqn:Hneg; try done;
    intros [= <- _]; by apply Z.ltb_lt.
Qed.

Lemma setattrs_loop_inl b cfg ii spill_out aset r l r' l' :
  setattrs_loop b cfg ii spill_out aset r l = inl (r', l') -> r' < 0.
Proof.
  revert r l. induction aset as [|[k v] aset IH]; intros r l;
    cbn [setattrs_loop]; [done|].
  destruct (setattrs_step b cfg ii spill_out k v r l) as [[r1 l1]|[r1 l1]]
    eqn:Hs.
  - intros [= <- _]. by apply setattrs_step_inl in Hs.
  - apply IH.
Qed.

(** One trip through the loop, for a name that [omap_set] does not hold
    yet: it never jumps to [out_close], since an xattr that the listing
    reported can be removed. *)
Lemma setattrs_step_ok cfg spill_out k v l :
  c_str k = k ->
  dom (l_inline_set l) = dom (l_xattrs l) ->
  l_omap_set l !! k = None ->
  exists l1,
    setattrs_step reliable cfg false spill_out k v 0 l = inr (0, l1)
    /\ dom (l_inline_set l1) = dom (l_xattrs l1)
    /\ same_elsewhere [k] l l1
    /\ stored cfg k v l l1.
Proof.
  intros Hcstr Hdom Hfresh. unfold setattrs_step. rewrite Hcstr. cbv zeta.
  assert (forall c, l_inline_set l !! k = Some c -> is_Some (l_xattrs l !! k))
    as Hin.
  { intros c Hc. apply elem_of_dom. rewrite <- Hdom. apply elem_of_dom. eauto. }
  assert (l_inline_set l !! k = None -> l_xattrs l !! k = None) as Hout.
  { intros Hc. apply not_elem_of_dom. rewrite <- Hdom.
    by apply not_elem_of_dom. }
  assert (forall k', k' ∉ [k] -> k ≠ k') as Hne.
  { intros k' Hk' ->. apply Hk'. by left. }
  assert (forall l', l_omap_set l' = l_omap_set l ->
            forall k', k' ∉ [k] ->
            l_omap_set (omap_set_push l' k v) !! k' = l_omap_set l !! k')
    as Hpush.
  { intros l' Hl' k' Hk'. simpl_locals. rewrite Hl'.
    apply lookup_insert_ne. by apply Hne. }
  destruct (Z.of_nat (length v) >? m_filestore_max_inline_xattr_size cfg)
    eqn:Hlarge.
  - rewrite Z.gtb_ltb in Hlarge. apply Z.ltb_lt in Hlarge.
    destruct (l_inline_set l !! k) as [c|] eqn:Hk.
    + destruct (Hin c eq_refl) as [old Hold].
      unfold chain_fremovexattr. rewrite Hold. cbn [Z.ltb Z.compare].
      eexists. split; [done|]. simpl_locals. split; [|split].
      * by rewrite !dom_delete_L, Hdom.
      * intros k' Hk'. split.
        -- apply lookup_delete_ne. by apply Hne.
        -- apply lookup_insert_ne. by apply Hne.
      * rewrite Hfresh. unfold stored. simpl_locals. cbn [default app].
        repeat split; intros; try lia; try right;
          rewrite ?lookup_delete_eq, ?lookup_insert_eq; done.
    + eexists. split; [done|]. split; [done|]. split.
      * intros k' Hk'. split; [done|]. by apply Hpush.
      * specialize (Hout eq_refl). unfold stored. simpl_locals.
        rewrite Hfresh. cbn [default app].
        repeat split; intros; try lia; try right;
          rewrite ?lookup_insert_eq; done.
  - rewrite Z.gtb_ltb in Hlarge. apply Z.ltb_ge in Hlarge.
    destruct (bool_decide (l_inline_set l !! k = None)
              && (Z.of_nat (size (l_inline_set l))
                  >=? m_filestore_max_inline_xattrs cfg)) eqn:Hfull.
    + apply andb_true_iff in Hfull as [Hk _]. apply bool_decide_eq_true in Hk.
      specialize (Hout Hk).
      eexists. split; [done|]. split; [done|]. split.
      * intros k' Hk'. split; [done|]. by apply Hpush.
      * unfold stored. simpl_locals. rewrite Hfresh. cbn [default app].
        split; [|split].
        -- right. by rewrite lookup_insert_eq.
        -- intros; lia.
        -- intros _ [old Hold]. congruence.
    + clear Hfull. unfold _fsetattr. rewrite ?Hcstr.
      cbn [chain_fsetxattr_r reliable]. change (0 <? 0) with false.
      cbv iota zeta.
      assert (forall inline_set,
        dom inline_set = dom (<[k:=v]> (l_xattrs l)) ->
        forall omap_remove,
        let l1 := Locals (<[k:=v]> (l_xattrs l)) inline_set (l_omap_set l)
                         omap_remove in
        dom (l_inline_set l1) = dom (l_xattrs l1)
        /\ same_elsewhere [k] l l1 /\ stored cfg k v l l1) as Hset.
      { intros inline_set Hd omap_remove l1. split; [done|]. split.
        - intros k' Hk'. split; [|done]. apply lookup_insert_ne.
          by apply Hne.
        - unfold stored, l1. simpl_locals. rewrite lookup_insert_eq.
          split; [by left|]. split; [intros; lia|done]. }
      destruct (l_inline_set l !! k) as [c|] eqn:Hk.
      * assert (dom (l_inline_set l) = dom (<[k:=v]> (l_xattrs l))) as Hd.
        { rewrite dom_insert_L, Hdom. destruct (Hin c eq_refl) as [old Hold].
          apply elem_of_dom_2 in Hold.
          symmetry. apply subseteq_union_1_L.
          by apply singleton_subseteq_l. }
        destruct (c >? 0); eexists; (split; [done|]); by apply Hset.
      * eexists. split; [done|]. apply Hset.
        by rewrite !dom_insert_L, Hdom.
Qed.

(** The whole loop ends normally with [r = 0], and every entry is stored. *)
Lemma setattrs_loop_ok cfg spill_out aset l :
  Forall (λ k, c_str k = k) aset.*1 ->
  NoDup aset.*1 ->
  dom (l_inline_set l) = dom (l_xattrs l) ->
  (forall k, k ∈ aset.*1 -> l_omap_set l !! k = None) ->
  exists l',
    setattrs_loop reliable cfg false spill_out aset 0 l = inr (0, l')
    /\ dom (l_inline_set l') = dom (l_xattrs l')
    /\ same_elsewhere aset.*1 l l'
    /\ (forall k v, (k, v) ∈ aset -> stored cfg k v l l').
Proof.
  revert l. induction aset as [|[k v] aset IH]; intros l Hcs Hnd Hdom Hfresh.
  - exists l. split; [done|]. split; [done|]. split; [done|].
    intros k v Hin. by apply elem_of_nil in Hin.
  - cbn [fmap list_fmap fst] in *. apply NoDup_cons in Hnd as [Hk Hnd].
    apply Forall_cons in Hcs as [Hck Hcs].
    destruct (setattrs_step_ok cfg spill_out k v l Hck Hdom)
      as (l1 & Hstep & Hdom1 & Hframe1 & Hstored1).
    { apply Hfresh. by left. }
    assert (forall k', k' ∈ aset.*1 -> k' ∉ [k]) as Hother.
    { intros k' Hk' ->%list_elem_of_singleton. done. }
    destruct (IH l1 Hcs Hnd Hdom1) as (l' & Hloop & Hdom' & Hframe & Hstored).
    { intros k' Hk'. destruct (Hframe1 k') as [_ ->]; [by apply Hother|].
      apply Hfresh. by right. }
    exists l'. cbn [setattrs_loop]. rewrite Hstep. split; [done|].
    split; [done|]. split; [|].
    + intros k0 [Hk0 Hk0']%not_elem_of_cons.
      destruct (Hframe k0) as [-> ->]; [done|].
      apply Hframe1. by intros ->%list_elem_of_singleton.
    + intros k0 v0 [Heq|Hin]%elem_of_cons.
      * simplify_eq. destruct (Hframe k) as [Hx Ho]; [done|].
        unfold stored in *. rewrite Hx, Ho. done.
      * assert (k0 ∈ aset.*1) as Hk0.
        { apply list_elem_of_fmap. by exists (k0, v0). }
        specialize (Hstored k0 v0 Hin). unfold stored in *.
        destruct (Hframe1 k0) as [Hx _]; [by apply Hother|].
        rewrite Hx in Hstored. done.
Qed.

(** What one trip adds to [omap_remove], and that it never leaves a name
    both as an xattr and in [omap_set]. *)
Lemma setattrs_step_remove cfg spill_out k v l l1 :
  c_str k = k ->
  dom (l_inline_set l) = dom (l_xattrs l) ->
  l_omap_set l !! k = None ->
  setattrs_step reliable cfg false spill_out k v 0 l = inr (0, l1) ->
  (is_Some (l_xattrs l1 !! k) -> l_omap_set l1 !! k = None)
  /\ (forall k', k' ∈ l_omap_remove l1 <->
        k' ∈ l_omap_remove l
        \/ (spill_out <> 0 /\ k' = k /\ is_Some (l_xattrs l1 !! k))).
Proof.
  intros Hcstr Hdom Hfresh. unfold setattrs_step. rewrite Hcstr. cbv zeta.
  assert (l_inline_set l !! k = None -> l_xattrs l !! k = None) as Hout.
  { intros Hc. apply not_elem_of_dom. rewrite <- Hdom.
    by apply not_elem_of_dom. }
  assert (forall (xs : gmap string (list Byte.byte)) (R : gset string)
                 (w : option (list Byte.byte)),
            xs !! k = None ->
            (is_Some (xs !! k) -> w = None)
            /\ (forall k', k' ∈ R <->
                  k' ∈ R \/ (spill_out <> 0 /\ k' = k /\ is_Some (xs !! k))))
    as Hkv.
  { intros xs R w Hx. rewrite Hx. split; [by intros [? ?]|].
    intros k'. split; [by left|]. intros [?|(_ & _ & [? ?])]; done. }
  destruct (Z.of_nat (length v) >? m_filestore_max_inline_xattr_size cfg).
  - destruct (l_inline_set l !! k) as [c|] eqn:Hk.
    + unfold chain_fremovexattr.
      destruct (l_xattrs l !! k) as [old|] eqn:Hold.
      * cbn [Z.ltb Z.compare]. intros [= <-]. simpl_locals.
        rewrite lookup_insert_eq. apply Hkv. apply lookup_delete_eq.
      * change (- ENODATA <? 0) with true. cbv iota. done.
    + intros [= <-]. simpl_locals. rewrite lookup_insert_eq.
      apply Hkv. by apply Hout.
  - destruct (bool_decide (l_inline_set l !! k = None)
              && (Z.of_nat (size (l_inline_set l))
                  >=? m_filestore_max_inline_xattrs cfg)) eqn:Hfull.
    + apply andb_true_iff in Hfull as [Hk _]. apply bool_decide_eq_true in Hk.
      intros [= <-]. simpl_locals. rewrite lookup_insert_eq.
      apply Hkv. by apply Hout.
    + clear Hfull. unfold _fsetattr. rewrite ?Hcstr.
      cbn [chain_fsetxattr_r reliable]. change (0 <? 0) with false.
      cbv iota zeta.
      assert (forall inline_set,
        let l1 := Locals (<[k:=v]> (l_xattrs l)) inline_set (l_omap_set l)
                    (if negb (spill_out =? 0) then {[k]} ∪ l_omap_remove l
                     else l_omap_remove l) in
        (is_Some (l_xattrs l1 !! k) -> l_omap_set l1 !! k = None)
        /\ (forall k', k' ∈ l_omap_remove l1 <->
              k' ∈ l_omap_remove l
              \/ (spill_out <> 0 /\ k' = k /\ is_Some (l_xattrs l1 !! k))))
        as Hset.
      { intros inline_set l2. unfold l2. simpl_locals. split; [done|].
        intros k'. rewrite lookup_insert_eq.
        destruct (spill_out =? 0) eqn:Hs; cbn [negb].
        - apply Z.eqb_eq in Hs. split; [by left|].
          intros [?|(? & _)]; done.
        - apply Z.eqb_neq in Hs.
          rewrite elem_of_union, elem_of_singleton. split.
          + intros [->|?]; [right|by left]. eauto.
          + intros [?|(_ & -> & _)]; [by right|by left]. }
      destruct (l_inline_set l !! k) as [c|] eqn:Hk.
      * destruct (c >? 0); intros [= <-]; apply Hset.
      * intros [= <-]. apply Hset.
Qed.

(** The loop of [_setattrs], with what it leaves in [omap_remove]. *)
Lemma setattrs_loop_inv cfg spill_out aset l :
  Forall (λ k, c_str k = k) aset.*1 ->
  NoDup aset.*1 ->
  dom (l_inline_set l) = dom (l_xattrs l) ->
  (forall k, k ∈ aset.*1 -> l_omap_set l !! k = None) ->
  exists l',
    setattrs_loop reliable cfg false spill_out aset 0 l = inr (0, l')
    /\ same_elsewhere aset.*1 l l'
    /\ (forall k v, (k, v) ∈ aset -> stored cfg k v l l')
    /\ (forall k, k ∈ aset.*1 -> is_Some (l_xattrs l' !! k) ->
          l_omap_set l' !! k = None)
    /\ (forall k, k ∈ l_omap_remove l' <->
          k ∈ l_omap_remove l
          \/ (spill_out <> 0 /\ k ∈ aset.*1 /\ is_Some (l_xattrs l' !! k))).
Proof.
  revert l. induction aset as [|[k v] aset IH]; intros l Hcs Hnd Hdom Hfresh.
  - exists l. split; [done|]. split; [done|].
    split; [intros k v Hin; by apply elem_of_nil in Hin|].
    split; [intros k Hin; by apply elem_of_nil in Hin|].
    intros k. split; [by left|]. intros [?|(_ & Hin & _)]; [done|].
    by apply elem_of_nil in Hin.
  - cbn [fmap list_fmap fst] in *. apply NoDup_cons in Hnd as [Hk Hnd].
    apply Forall_cons in Hcs as [Hck Hcs].
    destruct (setattrs_step_ok cfg spill_out k v l Hck Hdom)
      as (l1 & Hstep & Hdom1 & Hframe1 & Hstored1).
    { apply Hfresh. by left. }
    destruct (setattrs_step_remove cfg spill_out k v l l1 Hck Hdom)
      as [Hdisj1 Hrem1]; [apply Hfresh; by left|done|].
    assert (forall k', k' ∈ aset.*1 -> k' ∉ [k]) as Hother.
    { intros k' Hk' ->%list_elem_of_singleton. done. }
    destruct (IH l1 Hcs Hnd Hdom1)
      as (l' & Hloop & Hframe & Hstored & Hdisj & Hrem).
    { intros k' Hk'. destruct (Hframe1 k') as [_ ->]; [by apply Hother|].
      apply Hfresh. by right. }
    destruct (Hframe k Hk) as [Hxk Hok].
    exists l'. cbn [setattrs_loop]. rewrite Hstep. split; [done|].
    split; [|split; [|split]].
    + intros k0 [Hk0 Hk0']%not_elem_of_cons.
      destruct (Hframe k0) as [-> ->]; [done|].
      apply Hframe1. by intros ->%list_elem_of_singleton.
    + intros k0 v0 [Heq|Hin]%elem_of_cons.
      * simplify_eq. unfold stored in *. rewrite Hxk, Hok. done.
      * assert (k0 ∈ aset.*1) as Hk0.
        { apply list_elem_of_fmap. by exists (k0, v0). }
        specialize (Hstored k0 v0 Hin). unfold stored in *.
        destruct (Hframe1 k0) as [Hx _]; [by apply Hother|].
        rewrite Hx in Hstored. done.
    + intros k0 [->|Hin]%elem_of_cons.
      * rewrite Hxk, Hok. done.
      * by apply Hdisj.
    + intros k0. rewrite Hrem, Hrem1, elem_of_cons.
      split.
      * intros [[?|(? & -> & ?)]|(? & ? & ?)]; auto.
        right. rewrite Hxk. auto.
      * intros [?|(? & [->|?] & ?)]; auto.
        left. right. by rewrite <- Hxk.
Qed.

(** The store that a setattrs leaves when it returns a value that is not
    an error, whatever the backend, in terms of the locals at the end of
    its loop: every write but the one of the sentinel has gone through. *)
Lemma setattrs_store b cfg st cid oid aset f r st' :
  files st !! (cid, oid) = Some f ->
  Forall (λ k, c_str k = k) aset.*1 ->
  NoDup aset.*1 ->
  _setattrs nchunks b cfg st cid oid aset = Some (r, st') ->
  0 <= r ->
  let l0 := Locals (xattrs f) (nchunks <$> xattrs f) ∅ ∅ in
  let kv := default ∅ (object_map st !! oid) in
  exists l' sentinel om',
    st' = Store (<[(cid, oid) := File (l_xattrs l') sentinel]> (files st)) om'
    /\ same_elsewhere aset.*1 l0 l'
    /\ (forall k v, (k, v) ∈ aset -> stored cfg k v l0 l')
    /\ (forall k, is_Some (l_xattrs l' !! k) -> l_omap_set l' !! k = None)
    /\ (forall k, k ∈ l_omap_remove l' <->
          no_spill_out f = false /\ k ∈ aset.*1
          /\ is_Some (l_xattrs l' !! k))
    /\ sentinel = (if no_spill_out f
                      && negb (bool_decide (l_omap_set l' = ∅))
                      && negb (set_spill_out_r b <? 0)
                   then Some XATTR_SPILL_OUT else spill_out_xattr f)
    /\ (forall o, o <> oid -> om' !! o = object_map st !! o)
    /\ (forall k, default ∅ (om' !! oid) !! k =
          match l_omap_set l' !! k with
          | Some v => Some v
          | None => if bool_decide (k ∈ l_omap_remove l') then None
                    else kv !! k
          end).
Proof.
  intros Hf Hcs Hnd Hset Hr l0 kv. unfold _setattrs in Hset.
  rewrite Hf in Hset. unfold _fgetattrs_chunks in Hset.
  replace (0 =? - E2BIG) with false in Hset by reflexivity.
  replace (0 =? - EIO) with false in Hset by reflexivity.
  rewrite andb_false_r in Hset.
  set (spill_out := if no_spill_out f then 0 else 1) in *.
  destruct (setattrs_loop_inv cfg spill_out aset l0 Hcs Hnd)
    as (l & Hloop & Hframe & Hstored & Hdisj & Hrem).
  { unfold l0. cbn [l_inline_set l_xattrs]. by rewrite dom_fmap_L. }
  { intros k _. unfold l0. cbn [l_omap_set]. apply lookup_empty. }
  fold l0 in Hset.
  destruct (setattrs_loop b cfg false spill_out aset 0 l0)
    as [[r1 l1]|[r1 l1]] eqn:Hloopb.
  { apply setattrs_loop_inl in Hloopb. injection Hset as Hr1 _. lia. }
  apply setattrs_loop_transfer in Hloopb. rewrite Hloop in Hloopb.
  injection Hloopb as <- <-.
  assert (negb (spill_out =? 1) = no_spill_out f) as Hs1.
  { unfold spill_out. by destruct (no_spill_out f). }
  assert (negb (spill_out =? 0) = negb (no_spill_out f)) as Hs0.
  { unfold spill_out. by destruct (no_spill_out f). }
  assert (spill_out <> 0 <-> no_spill_out f = false) as Hs.
  { unfold spill_out. destruct (no_spill_out f); split; done. }
  rewrite Hs1, Hs0 in Hset.
  set (sentinel := if no_spill_out f && negb (bool_decide (l_omap_set l = ∅))
                      && negb (set_spill_out_r b <? 0)
                   then Some XATTR_SPILL_OUT else spill_out_xattr f) in *.
  (* the kv store after the removals *)
  set (om1 := if negb (no_spill_out f)
                 && negb (bool_decide (l_omap_remove l = ∅))
              then (remove_xattrs (object_map st) oid (l_omap_remove l)).2
              else object_map st).
  assert ((if negb (no_spill_out f)
              && negb (bool_decide (l_omap_remove l = ∅))
           then
             let '(r', om) :=
               remove_xattrs (object_map st) oid (l_omap_remove l) in
             if (r' <? 0) && negb (r' =? - ENOENT) then (r', om, true)
             else (0, om, false)
           else (0, object_map st, false)) = (0, om1, false)) as Hrm.
  { unfold om1. destruct (negb (no_spill_out f)
              && negb (bool_decide (l_omap_remove l = ∅))); [|done].
    unfold remove_xattrs. by destruct (object_map st !! oid). }
  rewrite Hrm in Hset. clear Hrm.
  set (om' := if negb (bool_decide (l_omap_set l = ∅))
              then <[oid := l_omap_set l ∪ default ∅ (om1 !! oid)]> om1
              else om1).
  exists l, sentinel, om'.
  split.
  { unfold om'. destruct (negb (bool_decide (l_omap_set l = ∅))).
    - unfold set_xattrs in Hset. cbv zeta in Hset.
      destruct (set_xattrs_r b oid (l_omap_set l) <? 0) eqn:Hneg;
        rewrite ?Hneg in Hset.
      + apply Z.ltb_lt in Hneg.
        destruct (m_filestore_fail_eio cfg && (_ =? - EIO)); [done|].
        injection Hset as Hr1 _. lia.
      + by injection Hset as _ <-.
    - by injection Hset as _ <-. }
  split; [done|]. split; [done|].
  split.
  { intros k Hk. destruct (decide (k ∈ aset.*1)) as [Hin|Hout].
    - by apply Hdisj.
    - destruct (Hframe k Hout) as [_ ->]. unfold l0. cbn [l_omap_set].
      apply lookup_empty. }
  assert (forall k, k ∈ l_omap_remove l <->
            no_spill_out f = false /\ k ∈ aset.*1
            /\ is_Some (l_xattrs l !! k)) as Hrem'.
  { intros k. rewrite Hrem, Hs. unfold l0. cbn [l_omap_remove].
    rewrite elem_of_empty. tauto. }
  split; [done|]. split; [done|].
  assert (forall o, o <> oid -> om1 !! o = object_map st !! o) as Hom1o.
  { intros o Ho. unfold om1, remove_xattrs.
    destruct (negb (no_spill_out f)
              && negb (bool_decide (l_omap_remove l = ∅))); [|done].
    destruct (object_map st !! oid); [|done]. cbn [snd].
    by rewrite lookup_insert_ne. }
  assert (forall k, default ∅ (om1 !! oid) !! k =
            if bool_decide (k ∈ l_omap_remove l) then None else kv !! k)
    as Hom1.
  { intros k. unfold om1, remove_xattrs, kv.
    destruct (negb (no_spill_out f)
              && negb (bool_decide (l_omap_remove l = ∅))) eqn:Hc.
    - destruct (object_map st !! oid) as [m|] eqn:Hm; cbn [snd].
      + rewrite lookup_insert_eq. cbn [default from_option id].
        destruct (decide (k ∈ l_omap_remove l)) as [Hk|Hk].
        * rewrite (bool_decide_eq_true_2 _ Hk).
          apply map_lookup_filter_None_2. right. intros v _. cbn. tauto.
        * rewrite (bool_decide_eq_false_2 _ Hk).
          destruct (m !! k) as [v|] eqn:Hv.
          -- apply map_lookup_filter_Some. by split.
          -- apply map_lookup_filter_None_2. by left.
      + rewrite Hm. cbn [default from_option id].
        rewrite lookup_empty. by destruct (bool_decide (k ∈ l_omap_remove l)).
    - rewrite bool_decide_eq_false_2; [done|].
      intros Hk. apply andb_false_iff in Hc as [Hc|Hc].
      + apply negb_false_iff in Hc. apply Hrem' in Hk as [? _]. congruence.
      + apply negb_false_iff, bool_decide_eq_true in Hc.
        rewrite Hc in Hk. by apply elem_of_empty in Hk. }
  split.
  - intros o Ho. unfold om'.
    destruct (negb (bool_decide (l_omap_set l = ∅)));
      rewrite ?lookup_insert_ne by done; by apply Hom1o.
  - intros k. unfold om'.
    destruct (bool_decide (l_omap_set l = ∅)) eqn:He; cbn [negb].
    + apply bool_decide_eq_true in He. rewrite He, lookup_empty.
      apply Hom1.
    + rewrite lookup_insert_eq. cbn [default from_option id].
      destruct (l_omap_set l !! k) as [v|] eqn:Hv.
      * by apply lookup_union_Some_l.
      * rewrite lookup_union_r by done. apply Hom1.
Qed.

(** What [getattrs] reads from the xattrs of a file: everything but the
    attribute with the empty name. *)
Lemma fgetattrs_lookup f k :
  k ≠ ""%string ->
  (fst <$> (_fgetattrs nchunks f).2) !! k = xattrs f !! k.
Proof.
  intros Hk. unfold _fgetattrs. cbn [snd]. rewrite !lookup_fmap.
  destruct (xattrs f !! k) as [v|] eqn:Hx.
  - rewrite (proj2 (map_lookup_filter_Some _ _ k v)); [done|]. by split.
  - rewrite map_lookup_filter_None_2; [done|]. by left.
Qed.



(** It fails too for a name that holds a NUL: the xattr is named after the
    characters before the NUL, and getattrs returns the value under that
    shorter name. *)
Lemma nul_name_cut_short :
  let cfg := Config 4 2 false (λ _, false) in
  let st := Store {[ ("c", "o")%string := File ∅ (Some XATTR_NO_SPILL_OUT) ]}
                  ∅ in
  let k := "a" +:+ String Strings.Ascii.zero "b" in
  fst <$> _setattrs (λ _, 1) reliable cfg st "c" "o" [(k, [Byte.x31])]
    = Some 0
  /\ (snd <$> _setattrs (λ _, 1) reliable cfg st "c" "o" [(k, [Byte.x31])])
       ≫= (λ st', getattrs (λ _, 1) cfg st' "c" "o" ∅)
     = Some (0, {[ "a"%string := [Byte.x31] ]}).
Proof. split; vm_compute; reflexivity. Qed.

(** And it fails when the write of the sentinel fails, since the source
    drops the value that write returns: the value above the inline limit
    is in the kv store, setattrs returns 0, and getattrs, for a file still
    marked "no spill-out", does not look there. *)
Lemma sentinel_failure_hides :
  let cfg := Config 4 2 false (λ _, false) in
  let st := Store {[ ("c", "o")%string := File ∅ (Some XATTR_NO_SPILL_OUT) ]}
                  ∅ in
  let b := Backend (λ _ _, 0) (- ENOSPC) (λ _ _, 0) in
  let big := [Byte.x61; Byte.x62; Byte.x63; Byte.x64; Byte.x65] in
  fst <$> _setattrs (λ _, 1) b cfg st "c" "o" [("k"%string, big)]
    = Some 0
  /\ (snd <$> _setattrs (λ _, 1) b cfg st "c" "o" [("k"%string, big)])
       ≫= (λ st', getattrs (λ _, 1) cfg st' "c" "o" ∅)
     = Some (0, ∅).
Proof. split; vm_compute; reflexivity. Qed.


End AttrsProofs.

Section AttrsWitness.
Import Attrs.


End AttrsWitness.

(** * Further properties

    The sections below cover code around the places studied above: what the
    WAL classifier accepts, the accounting of the throttle, replays of a
    clone, the other outcomes of the checkpoint stanza of mount, several
    commit cycles in a row, the loop over the transactions of an op, the
    reading and removing of object attributes, the op_seq file, the split of
    a collection, and the data of objects: write, read, zero, truncate,
    the fd cache, hard links and the copy of a range. *)

(** ** The WAL classifier: what it lets through *)

Section WalClassProofs.
Import Transaction Wal.

(** The first loop appends the op buffers, unless a transaction uses the
    table encoding. *)
Lemma gather_spec tls ops_bl :
  gather tls ops_bl =
  if existsb get_use_tbl tls then None
  else Some (ops_bl ++ mjoin (op_bl <$> tls)).
Proof.
  revert ops_bl. induction tls as [|p tls IH]; intros ops_bl.
  - simpl. by rewrite app_nil_r.
  - cbn [gather existsb fmap list_fmap mjoin list_join].
    destruct (get_use_tbl p); [done|]. cbn [orb].
    rewrite IH. destruct (existsb get_use_tbl tls); [done|].
    by rewrite <- app_assoc.
Qed.

(** The op lists that the scan lets through. *)
Lemma scan_false_iff junk ops :
  (scan junk ops 0 0 []).1 = false <->
  ops ∈ [ []; [OP_WRITE]; [OP_WRITE; OP_SETATTRS];
          [OP_WRITE; OP_SETATTRS; OP_OMAP_SETKEYS];
          [OP_WRITE; OP_SETATTRS; OP_OMAP_RMKEYS] ].
Proof.
  split.
  - intros H.
    destruct ops as [|o0 ops]; [set_solver|].
    cbn [scan] in H. 
    repeat (case_bool_decide; simplify_eq/=; try done).
    destruct ops as [|o1 ops]; [set_solver|].
    cbn [scan] in H. 
    repeat (case_bool_decide; simplify_eq/=; try done).
    destruct ops as [|o2 ops]; [set_solver|].
    cbn [scan] in H. 
    repeat (case_bool_decide; simplify_eq/=; try done).
    + destruct ops as [|o3 ops]; [set_solver|].
      cbn [scan] in H. 
      repeat (case_bool_decide; simplify_eq/=; try done).
    + destruct ops as [|o3 ops]; [set_solver|].
      cbn [scan] in H. 
      repeat (case_bool_decide; simplify_eq/=; try done).
  - intros H. repeat (apply elem_of_cons in H as [->|H]); try done.
    by apply elem_of_nil in H.
Qed.

(** X1.  [_should_wal] answers "no WAL" for exactly five shapes of the
    concatenated op stream of a transaction list none of whose transactions
    uses the table encoding: no op at all, a write, a write and a setattrs,
    and these two followed by one omap_setkeys or by one omap_rmkeys.  Every
    other list goes through the WAL path, whatever lies behind the table
    [not_wal_ops]. *)
Theorem should_wal_false_iff (junk : opcode) (tls : list t) :
  _should_wal junk tls = false <->
  Forall (λ p, get_use_tbl p = false) tls
  /\ mjoin (op_bl <$> tls) ∈
       [ []; [OP_WRITE]; [OP_WRITE; OP_SETATTRS];
         [OP_WRITE; OP_SETATTRS; OP_OMAP_SETKEYS];
         [OP_WRITE; OP_SETATTRS; OP_OMAP_RMKEYS] ].
Proof.
  unfold _should_wal, _should_wal_trace. rewrite gather_spec.
  destruct (existsb get_use_tbl tls) eqn:Htbl.
  - split; [done|]. intros [Hall _].
    apply existsb_exists in Htbl as (p & Hp & Hp').
    rewrite Forall_forall in Hall.
    apply list_elem_of_In in Hp. specialize (Hall p Hp). congruence.
  - cbn [app]. rewrite scan_false_iff.
    split; [|by intros [_ ?]]. intros H. split; [|done].
    apply Forall_forall. intros p Hp.
    destruct (get_use_tbl p) eqn:Hp'; [|done].
    assert (existsb get_use_tbl tls = true); [|congruence].
    apply existsb_exists. exists p. split; [|done].
    by apply list_elem_of_In.
Qed.

End WalClassProofs.

(** ** The admission throttle: accounting *)

Section ThrottleAccounting.
Import Throttle.

Lemma u64_add_idemp a b : u64 (u64 a + b) = u64 (a + b).
Proof. unfold u64. by rewrite Zplus_mod_idemp_l. Qed.

Lemma u64_sub_idemp a b : u64 (u64 a - b) = u64 (a - b).
Proof. unfold u64. by rewrite Zminus_mod_idemp_l. Qed.

Lemma sum_snoc (l : list Z) x :
  foldr Z.add 0 (l ++ [x]) = foldr Z.add 0 l + x.
Proof. induction l as [|y l IH]; cbn [app foldr]; [lia|]. rewrite IH. lia. Qed.

Lemma sum_delete (l : list Z) i x :
  l !! i = Some x -> foldr Z.add 0 (delete i l) = foldr Z.add 0 l - x.
Proof.
  revert i. induction l as [|y l IH]; intros [|i] Hi; simplify_eq/=.
  - lia.
  - rewrite (IH i Hi). lia.
Qed.

(** The counters follow the ops in flight, step by step. *)
Lemma run_counters cfg cp calls st in_flight st' in_flight' :
  op_queue_len st = u64 (Z.of_nat (length in_flight)) ->
  op_queue_bytes st = u64 (foldr Z.add 0 in_flight) ->
  run cfg cp st in_flight calls = Some (st', in_flight') ->
  op_queue_len st' = u64 (Z.of_nat (length in_flight'))
  /\ op_queue_bytes st' = u64 (foldr Z.add 0 in_flight').
Proof.
  revert st in_flight.
  induction calls as [|[o_bytes committing|i] calls IH];
    intros st in_flight Hlen Hbytes Hrun; cbn [run] in Hrun.
  - by simplify_eq.
  - destruct (op_queue_reserve_throttle cfg cp committing st o_bytes)
      as [st1|] eqn:Hres; [|done].
    cbn in Hrun. apply IH in Hrun; [done| |].
    all: unfold op_queue_reserve_throttle in Hres;
      destruct (ceilings cfg cp committing) as [max_ops max_bytes];
      destruct (must_wait _ _ st o_bytes); [done|];
      simplify_eq; cbn [op_queue_len op_queue_bytes].
    + rewrite Hlen, u64_add_idemp, length_app. cbn [length]. f_equal. lia.
    + rewrite Hbytes, u64_add_idemp. f_equal. by rewrite sum_snoc.
  - destruct (in_flight !! i) as [o_bytes|] eqn:Hi; [|done].
    cbn in Hrun. apply lookup_lt_Some in Hi as Hlt.
    apply IH in Hrun; [done| |]; cbn [op_queue_len op_queue_bytes op_queue_release_throttle].
    + rewrite Hlen, u64_sub_idemp, length_delete by eauto. f_equal. lia.
    + rewrite Hbytes, u64_sub_idemp. f_equal. by rewrite (sum_delete _ _ _ Hi).
Qed.

(** X2.  Along every history of admissions and releases that starts with
    an empty queue, the two counters of the throttle are the number of ops
    in flight and the sum of their bytes, as [uint64_t] values (modulo
    2^64), whatever the configured ceilings are. *)
Theorem throttle_counters_account (cfg : config) (cp : bool)
    (calls : list call) (st : state) (in_flight : list Z) :
  run cfg cp (State 0 0) [] calls = Some (st, in_flight) ->
  op_queue_len st = u64 (Z.of_nat (length in_flight))
  /\ op_queue_bytes st = u64 (foldr Z.add 0 in_flight).
Proof. intros Hrun. by eapply run_counters in Hrun. Qed.

Lemma throttle_counters_account_witness :
  op_queue_len (State 1 30) = u64 (Z.of_nat (length [30]))
  /\ op_queue_bytes (State 1 30) = u64 (foldr Z.add 0 [30]).
Proof.
  apply (throttle_counters_account (Config 10 100 5 50) false
           [Reserve 20 false; Reserve 30 true; Release 0]).
  vm_compute; reflexivity.
Defined.

(** X3.  Releasing an op right after its admission gives back the counters
    as they were before the admission, also when the additions wrapped
    around 2^64. *)
Theorem release_undoes_reserve (cfg : config) (cp committing : bool)
    (st st' : state) (o_bytes : Z) :
  0 <= op_queue_len st < 2 ^ 64 ->
  0 <= op_queue_bytes st < 2 ^ 64 ->
  op_queue_reserve_throttle cfg cp committing st o_bytes = Some st' ->
  op_queue_release_throttle st' o_bytes = st.
Proof.
  intros Hlen Hbytes Hres. unfold op_queue_reserve_throttle in Hres.
  destruct (ceilings cfg cp committing) as [max_ops max_bytes].
  destruct (must_wait _ _ st o_bytes); [done|]. simplify_eq.
  unfold op_queue_release_throttle. cbn [op_queue_len op_queue_bytes].
  rewrite !u64_sub_idemp.
  replace (op_queue_len st + 1 - 1) with (op_queue_len st) by lia.
  replace (op_queue_bytes st + o_bytes - o_bytes) with (op_queue_bytes st) by lia.
  rewrite !u64_small by done. by destruct st.
Qed.

Lemma release_undoes_reserve_witness :
  op_queue_release_throttle (State 0 (2 ^ 64 - 6)) (2 ^ 64 - 1)
  = State (2 ^ 64 - 1) (2 ^ 64 - 5).
Proof.
  apply (release_undoes_reserve (Config 0 0 0 0) false false
           (State (2 ^ 64 - 1) (2 ^ 64 - 5)) (State 0 (2 ^ 64 - 6))
           (2 ^ 64 - 1)).
  - simpl; lia.
  - simpl; lia.
  - vm_compute; reflexivity.
Defined.

End ThrottleAccounting.

(** ** Replay guards: a clone is applied once *)

Section CloneReplayProofs.
Import ReplayGuard.

(** The order of positions, spelled out. *)
Lemma pos_compare_spec a b :
  match pos_compare a b with
  | Lt => seq a < seq b
          \/ (seq a = seq b
              /\ (trans a < trans b \/ (trans a = trans b /\ op a < op b)))
  | Eq => a = b
  | Gt => seq b < seq a
          \/ (seq a = seq b
              /\ (trans b < trans a \/ (trans a = trans b /\ op b < op a)))
  end.
Proof.
  destruct a as [s t o], b as [s' t' o']. unfold pos_compare. simpl.
  destruct (Z.compare_spec s s'); [|lia|lia].
  destruct (Z.compare_spec t t'); [|lia|lia].
  destruct (Z.compare_spec o o'); [congruence|lia|lia].
Qed.

Lemma pos_le_trans a b c : pos_le a b -> pos_le b c -> pos_le a c.
Proof.
  unfold pos_le. intros Hab Hbc.
  pose proof (pos_compare_spec a b). pose proof (pos_compare_spec b c).
  pose proof (pos_compare_spec a c).
  destruct (pos_compare a b), (pos_compare b c), (pos_compare a c);
    try done; simplify_eq; try lia.
Qed.

(** A guard that is newer than the position, or as old and closed, makes
    the check of the object say "skip". *)
Lemma check_obj_skips e st cid oid spos o g :
  replaying e = true -> can_checkpoint e = false ->
  lfn_open st cid oid = Some o -> o_guard o = Some g ->
  pos_le spos (g_pos g) ->
  (spos = g_pos g -> g_in_progress g <> Some true) ->
  exists c, _check_replay_guard_obj e st cid oid spos = Some c /\ c < 0.
Proof.
  intros Hrep Hcp Ho Hg Hle Hclosed. unfold _check_replay_guard_obj.
  rewrite Hrep, Hcp. cbn [negb orb].
  assert (exists r, _check_global_replay_guard e st cid spos = Some r)
    as [r ->].
  { unfold _check_global_replay_guard. rewrite Hrep, Hcp. cbn [negb orb].
    destruct (st !! cid) as [c|]; [|eauto].
    destruct (c_gguard c); eauto. }
  cbn. destruct (r <? 0) eqn:Hr.
  { apply Z.ltb_lt in Hr. eauto. }
  rewrite Ho. unfold _check_replay_guard. rewrite Hrep, Hcp. cbn [negb orb].
  rewrite Hg. cbn [chain_fgetxattr_guard].
  unfold pos_le in Hle. unfold pos_gt, pos_eq.
  rewrite (pos_compare_antisym spos (g_pos g)).
  pose proof (pos_compare_spec spos (g_pos g)) as Hspec.
  destruct (pos_compare spos (g_pos g)); cbn [CompOpp]; [| |done].
  - specialize (Hclosed Hspec).
    destruct (g_in_progress g) as [[]|]; cbn [default]; try done;
      eexists; (split; [done|lia]).
  - eexists; split; [done|lia].
Qed.

(** What makes the global check say "skip" keeps doing so for an older
    position. *)
Lemma check_global_skip_mono e st cid spos spos' r :
  _check_global_replay_guard e st cid spos = Some r -> r < 0 ->
  pos_le spos' spos ->
  exists r', _check_global_replay_guard e st cid spos' = Some r' /\ r' < 0.
Proof.
  unfold _check_global_replay_guard. intros Hchk Hr Hle.
  destruct (negb (replaying e) || can_checkpoint e); [simplify_eq; lia|].
  destruct (st !! cid) as [c|]; [|simplify_eq; lia].
  destruct (c_gguard c) as [opos|]; [|simplify_eq; lia].
  unfold pos_ge in *. 
  destruct (pos_compare spos opos) eqn:Hso; simplify_eq; try lia.
  assert (pos_le spos' opos) as Hle'.
  { eapply pos_le_trans; [done|]. unfold pos_le. by rewrite Hso. }
  unfold pos_le in Hle, Hle'.
  pose proof (pos_compare_spec spos' opos) as H1.
  pose proof (pos_compare_spec spos opos) as H2.
  pose proof (pos_compare_spec spos' spos) as H3.
  rewrite Hso in H2.
  destruct (pos_compare spos' opos); cbn;
    [|eexists; split; [done|lia]|done].
  subst spos'. destruct (pos_compare opos spos); try done; simplify_eq; lia.
Qed.

(** A check of an object that says "skip" says so for every older
    position. *)
Lemma check_obj_skip_mono e st cid oid spos spos' c :
  replaying e = true -> can_checkpoint e = false ->
  _check_replay_guard_obj e st cid oid spos = Some c -> c < 0 ->
  pos_le spos' spos ->
  exists c', _check_replay_guard_obj e st cid oid spos' = Some c' /\ c' < 0.
Proof.
  intros Hrep Hcp Hchk Hc Hle.
  pose proof Hchk as Hchk0.
  unfold _check_replay_guard_obj in Hchk. rewrite Hrep, Hcp in Hchk.
  cbn [negb orb] in Hchk.
  destruct (_check_global_replay_guard e st cid spos) as [r|] eqn:Hg; [|done].
  cbn in Hchk. destruct (r <? 0) eqn:Hr.
  - apply Z.ltb_lt in Hr.
    destruct (check_global_skip_mono _ _ _ _ _ _ Hg Hr Hle) as (r' & Hg' & Hr').
    unfold _check_replay_guard_obj. rewrite Hrep, Hcp, Hg'. cbn.
    rewrite (proj2 (Z.ltb_lt r' 0) Hr'). eauto.
  - destruct (lfn_open st cid oid) as [o|] eqn:Ho; [|simplify_eq; lia].
    unfold _check_replay_guard in Hchk. rewrite Hrep, Hcp in Hchk.
    cbn [negb orb] in Hchk.
    destruct (o_guard o) as [g|] eqn:Hgd; cbn [chain_fgetxattr_guard] in Hchk.
    2:{ destruct (m_filestore_fail_eio e && _); simplify_eq; lia. }
    unfold pos_gt, pos_eq in Hchk.
    pose proof (pos_compare_spec (g_pos g) spos) as Hspec.
    assert (pos_le spos (g_pos g)) as Hle1.
    { unfold pos_le. rewrite (pos_compare_antisym (g_pos g) spos).
      destruct (pos_compare (g_pos g) spos); cbn [CompOpp]; try done.
      simplify_eq; lia. }
    eapply check_obj_skips; try done.
    + by eapply pos_le_trans.
    + intros ->. 
      assert (g_pos g = spos) as Heq.
      { unfold pos_le in Hle, Hle1.
        pose proof (pos_compare_spec (g_pos g) spos) as H1.
        pose proof (pos_compare_spec spos (g_pos g)) as H2.
        destruct (pos_compare (g_pos g) spos), (pos_compare spos (g_pos g));
          try done; simplify_eq; try done; lia. }
      rewrite Heq, pos_compare_refl in Hchk.
      destruct (g_in_progress g) as [[]|]; simpl in Hchk;
        simplify_eq; try done; lia.
Qed.

(** Writing back an object does not touch the global guards. *)
Lemma check_global_put_object e st cid oid x c spos :
  _check_global_replay_guard e (put_object st cid oid x) c spos
  = _check_global_replay_guard e st c spos.
Proof.
  unfold _check_global_replay_guard, put_object.
  destruct (negb (replaying e) || can_checkpoint e); [done|].
  destruct (st !! cid) as [col|] eqn:Hcid; [|done].
  destruct (decide (c = cid)) as [->|Hne].
  - by rewrite lookup_insert_eq, Hcid.
  - by rewrite lookup_insert_ne.
Qed.

(** X4.  While replaying on a backend that cannot checkpoint, a clone that
    returned without an error is not applied again: the same call at the
    same journal position or at an older one returns 0 and leaves the store
    as it is, whatever the copy would have returned. *)
Theorem clone_not_replayed (e : engine) (st st' : gmap string collection)
    (cid oldoid newoid : string) (spos spos' : SequencerPosition)
    (copy_r copy_r' r : Z) :
  replaying e = true -> can_checkpoint e = false ->
  _clone e st cid oldoid newoid spos copy_r = Some (r, st') ->
  0 <= r ->
  pos_le spos' spos ->
  _clone e st' cid oldoid newoid spos' copy_r' = Some (0, st').
Proof.
  intros Hrep Hcp Hclone Hr Hle.
  assert (exists c', _check_replay_guard_obj e st' cid newoid spos' = Some c'
                     /\ c' < 0) as (c' & Hchk' & Hc').
  2:{ unfold _clone. rewrite Hchk'. cbn.
      by rewrite (proj2 (Z.ltb_lt c' 0) Hc'). }
  unfold _clone in Hclone.
  destruct (_check_replay_guard_obj e st cid newoid spos) as [c|] eqn:Hchk;
    [|done].
  cbn in Hclone. destruct (c <? 0) eqn:Hc.
  { simplify_eq. apply Z.ltb_lt in Hc. by eapply check_obj_skip_mono. }
  destruct (lfn_open st cid oldoid) as [src|] eqn:Hsrc.
  2:{ simplify_eq. unfold ENOENT in Hr. lia. }
  assert (is_Some (st !! cid)) as Hcid.
  { unfold lfn_open in Hsrc. destruct (st !! cid); [eauto|done]. }
  destruct (copy_r <? 0) eqn:Hcopy.
  { apply Z.ltb_lt in Hcopy.
    destruct (m_filestore_fail_eio e && (copy_r =? - EIO)); [done|].
    simplify_eq. lia. }
  simplify_eq.
  eapply check_obj_skips; try done.
  - rewrite lfn_open_put_object.
    rewrite (bool_decide_eq_true_2 _ Hcid), andb_true_r.
    by rewrite bool_decide_eq_true_2.
  - unfold _set_replay_guard. by rewrite Hcp.
  - done.
  - done.
Qed.

Lemma clone_not_replayed_witness :
  let e := Engine true false false in
  let st : gmap string collection :=
    {[ "c"%string := Coll None None {[ "src"%string := Obj None ]} ]} in
  let st' : gmap string collection :=
    {[ "c"%string := Coll None None
         (<[ "dst"%string := Obj (Some (Guard (SPos 7 0 1) (Some false))) ]>
            {[ "src"%string := Obj None ]}) ]} in
  _clone e st' "c" "src" "dst" (SPos 7 0 1) 0 = Some (0, st').
Proof.
  intros e st st'.
  apply (clone_not_replayed e st st' "c" "src" "dst" (SPos 7 0 1) (SPos 7 0 1)
           0 0 0).
  - reflexivity.
  - reflexivity.
  - vm_compute; reflexivity.
  - lia.
  - apply pos_le_refl.
Defined.

End CloneReplayProofs.

(** ** The checkpoint stanza of mount: the other outcomes *)

Section MountMoreProofs.
Import Mount.

(** The assertion of the loop holds all along exactly when the sequence
    numbers listed increase, the first one being above 0. *)
Lemma scan_checkpoints_is_Some l prev snaps cs :
  is_Some (scan_checkpoints l prev snaps cs)
  <-> Sorted Z.lt (prev :: commit_seqs l).
Proof.
  revert prev snaps cs.
  induction l as [|[c|name|name] l IH]; intros prev snaps cs;
    cbn [scan_checkpoints].
  - split; [|eauto]. intros _. repeat constructor.
  - change (commit_seqs (CommitSnap c :: l)) with (c :: commit_seqs l).
    destruct (c >? prev) eqn:Hc; rewrite Z.gtb_ltb in Hc.
    + apply Z.ltb_lt in Hc. rewrite IH. split.
      * intros Hs. constructor; [done|]. by constructor.
      * intros Hs. by apply Sorted_inv in Hs as [Hs _].
    + apply Z.ltb_ge in Hc. split; [by intros [? ?]|].
      intros Hs. apply Sorted_inv in Hs as [_ Hs].
      apply HdRel_inv in Hs. lia.
  - apply IH.
  - apply IH.
Qed.

(** X5.  The checkpoint stanza of mount dies on its assertion exactly when
    the sequence numbers of the snap_<seq> checkpoints, in the order of the
    listing, do not increase strictly from above 0: a snap_0, a repeated
    number or a listing out of order ends the process, whatever the backend
    can do and whatever is configured. *)
Theorem mount_asserts_iff_unordered (i : input) :
  mount_checkpoints i = AssertFailed
  <-> ~ Sorted Z.lt (0 :: commit_seqs (ls i)).
Proof.
  rewrite <- scan_checkpoints_is_Some with (snaps := []) (cs := ∅).
  unfold mount_checkpoints.
  destruct (scan_checkpoints (ls i) 0 [] ∅) as [[snaps cs]|].
  - split; [|intros H; destruct H; eauto].
    destruct (rollback_decision i snaps cs); try done.
    by destruct (rollback_to i s =? 0).
  - split; [|done]. by intros _ [? ?].
Qed.



(** X7.  When the listing holds no snap_<seq> checkpoint, mount never
    rolls back: it returns ENOENT if a cluster snapshot is configured and
    is not in the listing, and goes on without a rollback otherwise; so a
    configured cluster snapshot that exists is not rolled back to. *)
Theorem mount_without_commit_snaps (i : input) :
  commit_seqs (ls i) = [] ->
  (m_osd_rollback_to_cluster_snap i <> ""%string ->
   ClusterSnap (m_osd_rollback_to_cluster_snap i) ∉ ls i ->
   mount_checkpoints i = Refused (- ENOENT))
  /\ (m_osd_rollback_to_cluster_snap i = ""%string
      \/ ClusterSnap (m_osd_rollback_to_cluster_snap i) ∈ ls i ->
      mount_checkpoints i = Proceeds None).
Proof.
  intros Hnone. unfold mount_checkpoints.
  destruct (scan_checkpoints (ls i) 0 [] ∅) as [[snaps cs]|] eqn:Hscan.
  2:{ assert (is_Some (scan_checkpoints (ls i) 0 [] ∅)) as [? ?]; [|congruence].
      apply scan_checkpoints_is_Some. rewrite Hnone. repeat constructor. }
  destruct (scan_checkpoints_spec _ _ _ _ _ _ Hscan) as [Hsnaps _].
  cbn [app] in Hsnaps. subst snaps.
  pose proof (scan_checkpoints_cluster _ _ _ _ _ _
                (m_osd_rollback_to_cluster_snap i) Hscan) as Hcs.
  unfold rollback_decision. rewrite Hnone. cbn [last].
  assert (negb (String.length (m_osd_rollback_to_cluster_snap i) =? 0)%nat
          = bool_decide (m_osd_rollback_to_cluster_snap i <> ""%string))
    as ->.
  { destruct (m_osd_rollback_to_cluster_snap i); by cbn. }
  split.
  - intros Hopt Hin. rewrite (bool_decide_eq_true_2 _ Hopt). cbn [andb].
    rewrite bool_decide_eq_true_2; [done|].
    intros Hl. apply Hcs in Hl as [Hl|Hl]; [|done].
    by apply elem_of_empty in Hl.
  - intros Hcase.
    assert (bool_decide (m_osd_rollback_to_cluster_snap i <> ""%string)
            && bool_decide (m_osd_rollback_to_cluster_snap i ∉ cs) = false)
      as ->.
    { destruct Hcase as [Hopt|Hin].
      - rewrite bool_decide_eq_false_2; [done|]. by intros ?.
      - rewrite andb_comm, bool_decide_eq_false_2; [done|].
        intros Hl. apply Hl, Hcs. by right. }
    by destruct (can_checkpoint i).
Qed.

Lemma mount_without_commit_snaps_witness :
  mount_checkpoints
    (Input true [ClusterSnap "clustersnap_a"] "clustersnap_a" false false
           (λ _, 0))
  = Proceeds None.
Proof.
  apply (mount_without_commit_snaps
           (Input true [ClusterSnap "clustersnap_a"] "clustersnap_a" false
                  false (λ _, 0))).
  - reflexivity.
  - right. left.
Defined.

End MountMoreProofs.

(** ** The commit thread over several cycles *)

Section SyncThreadProofs.
Import SyncEntry SyncThread.

(** Keeping the last two twice is keeping the last two. *)
Lemma last_two_app (l m : list Z) :
  drop (length (drop (length l - 2) l ++ m) - 2) (drop (length l - 2) l ++ m)
  = drop (length (l ++ m) - 2) (l ++ m).
Proof.
  rewrite !length_app, length_drop.
  destruct (decide (length l <= 2)%nat) as [Hle|Hgt].
  - replace (length l - 2)%nat with 0%nat by lia. by rewrite !drop_0, Nat.sub_0_r.
  - replace (l ++ m)
      with (take (length l - 2) l ++ (drop (length l - 2) l ++ m))
      by (by rewrite app_assoc, take_drop).
    rewrite (drop_app_ge (take _ _)) by (rewrite length_take; lia).
    f_equal. rewrite length_take. lia.
Qed.

(** X8.  On a checkpoint-capable backend whose checkpoints are those of
    [snaps], any run of cycles of the commit thread leaves the backend with
    the checkpoints of [snaps] again; once a cycle has committed, these are
    the last two of the checkpoints held at the start followed by the
    committed ones. *)
Theorem sync_entry_keeps_last_two (cycles : list (bool * Z))
    (snaps : list Z) :
  let cps := (filter (λ c, c.1 = true) cycles).*2 in
  let kept := match cps with
              | [] => snaps
              | _ => drop (length (snaps ++ cps) - 2) (snaps ++ cps)
              end in
  sync_entry true cycles snaps snaps = (kept, kept).
Proof.
  revert snaps. induction cycles as [|[[] cp] cycles IH]; intros snaps.
  - done.
  - cbn [sync_entry]. unfold sync_entry_cycle.
    rewrite prune_snaps_spec. cbn [app foldl backend_apply].
    rewrite destroy_oldest, IH.
    rewrite filter_cons_True by done. cbn [fmap list_fmap snd].
    cbv zeta.
    destruct ((filter (λ c, c.1 = true) cycles).*2) as [|cp' cps] eqn:Hc.
    + done.
    + rewrite last_two_app, <- app_assoc. done.
  - cbn [sync_entry]. unfold sync_entry_cycle. cbn [foldl].
    rewrite IH. by rewrite filter_cons_False by done.
Qed.

End SyncThreadProofs.

(** ** The loop over the transactions of an op *)

Section DoTransactionsProofs.
Import Transaction Applier DoTransactions.

(** When the loop returns, every trip it made was let through. *)
Lemma loop_returned e o_init trans_num ops n m paused :
  do_transaction_loop e o_init trans_num ops n = Returned m paused ->
  exists pre post,
    ops = pre ++ post
    /\ m = (n + length pre)%nat
    /\ Forall (λ s, has_case (s_op s) = true
                    /\ (s_r s < 0 -> error_ok e (s_op s) (s_r s) = true)) pre
    /\ (forall i s, pre !! i = Some s ->
          write_assert o_init trans_num (n + i) (s_op s) = true)
    /\ Forall (λ s, pauses s = false) (removelast pre)
    /\ (if paused then exists s, last pre = Some s /\ pauses s = true
        else post = [] /\ Forall (λ s, pauses s = false) pre).
Proof.
  revert n. induction ops as [|s ops IH]; intros n Hloop;
    cbn [do_transaction_loop] in Hloop.
  - simplify_eq. exists [], []. rewrite Nat.add_0_r.
    split; [done|]. split; [done|]. split; [done|]. split; [|done].
    intros i s Hi. by rewrite lookup_nil in Hi.
  - destruct (has_case (s_op s)) eqn:Hcase; [|done]. cbn [negb] in Hloop.
    destruct (write_assert o_init trans_num n (s_op s)) eqn:Hassert;
      [|done]. cbn [negb] in Hloop.
    destruct ((s_r s <? 0) && negb (error_ok e (s_op s) (s_r s))) eqn:Herr;
      [done|].
    assert (s_r s < 0 -> error_ok e (s_op s) (s_r s) = true) as Hok.
    { intros Hneg. apply Z.ltb_lt in Hneg. rewrite Hneg in Herr.
      by apply negb_false_iff in Herr. }
    destruct (pauses s) eqn:Hpause.
    + simplify_eq. exists [s], ops. split; [done|].
      split; [cbn; lia|]. split; [by repeat constructor|].
      split.
      { intros [|i] s' Hi; [|done]. simplify_eq/=.
        by rewrite Nat.add_0_r. }
      split; [constructor|]. by exists s.
    + apply IH in Hloop as (pre & post & -> & -> & Hall & Hw & Hnp & Hend).
      exists (s :: pre), post. split; [done|].
      split; [cbn [length]; lia|]. split; [by constructor|].
      split.
      { intros [|i] s' Hi.
        - simplify_eq/=. by rewrite Nat.add_0_r.
        - cbn in Hi. replace (n + S i)%nat with (S n + i)%nat by lia.
          by apply Hw. }
      split.
      * destruct pre as [|s' pre]; [constructor|].
        cbn [removelast] in *. by constructor.
      * destruct paused.
        -- destruct Hend as (s' & Hlast & Hs'). exists s'. split; [|done].
           destruct pre; [done|]. done.
        -- destruct Hend as [-> Hall']. split; [done|]. by constructor.
Qed.

Lemma pauses_spec s :
  pauses s = true <-> s_op s = OP_WRITE /\ s_pause s = true.
Proof.
  unfold pauses. rewrite andb_true_iff, bool_decide_eq_true. done.
Qed.

(** X9.  When [_do_transaction] returns, the ops it applied are a prefix of
    the transaction; each of them has a case in the switch and ended
    without an error or with an error that the policy tolerates; none but
    the last one paused the transaction.  It stopped before the end only
    because the last op applied was a write that paused it.  With an op in
    state INIT it returns only from transaction 0 and only after one op,
    the first of the transaction, a write that paused it. *)
Theorem do_transaction_returns (e : engine) (o_init : bool) (trans_num : Z)
    (ops : list step) (n : nat) (paused : bool) :
  _do_transaction e o_init trans_num ops = Returned n paused ->
  exists pre post,
    ops = pre ++ post
    /\ n = length pre
    /\ Forall (λ s, has_case (s_op s) = true
                    /\ (s_r s < 0 -> error_ok e (s_op s) (s_r s) = true)) pre
    /\ Forall (λ s, pauses s = false) (removelast pre)
    /\ (if paused
        then exists s, last pre = Some s /\ s_op s = OP_WRITE
                       /\ s_pause s = true
        else post = [] /\ Forall (λ s, pauses s = false) pre)
    /\ (o_init = true ->
        paused = true /\ trans_num = 0
        /\ exists s, pre = [s] /\ s_op s = OP_WRITE /\ s_pause s = true).
Proof.
  unfold _do_transaction. intros Hdo.
  destruct (do_transaction_loop e o_init trans_num ops 0) as [m p|] eqn:Hloop;
    [|done].
  destruct (o_init && negb (p && (trans_num =? 0))) eqn:Hinit; [done|].
  simplify_eq.
  apply loop_returned in Hloop
    as (pre & post & -> & -> & Hall & Hw & Hnp & Hend).
  exists pre, post. split; [done|]. split; [done|]. split; [done|].
  split; [done|]. split.
  { destruct paused; [|done]. destruct Hend as (s & Hlast & Hs).
    apply pauses_spec in Hs as [Hop Hp]. by exists s. }
  intros ->. cbn [andb] in Hinit. apply negb_false_iff in Hinit.
  apply andb_true_iff in Hinit as [-> Hnum]. apply Z.eqb_eq in Hnum.
  split; [done|]. split; [done|].
  destruct Hend as (s & Hlast & Hs). apply pauses_spec in Hs as [Hop Hp].
  exists s. split; [|done].
  apply last_Some in Hlast as [pre' ->].
  specialize (Hw (length pre') s).
  rewrite lookup_app_r, Nat.sub_diag in Hw by lia.
  specialize (Hw eq_refl). unfold write_assert in Hw.
  rewrite Hop, (bool_decide_eq_true_2 _ eq_refl) in Hw. cbn [andb] in Hw.
  apply andb_true_iff in Hw as [_ Hz]. apply Z.eqb_eq in Hz.
  destruct pre'; [done|]. cbn [length] in Hz. lia.
Qed.

Lemma do_transaction_returns_witness :
  exists s,
    [Step OP_WRITE 3 true] = [s] /\ s_op s = OP_WRITE /\ s_pause s = true.
Proof.
  destruct (do_transaction_returns (Engine false false false) true 0
              [Step OP_WRITE 3 true; Step OP_SETATTRS 0 false] 1 true)
    as (pre & post & Hops & Hn & _ & _ & _ & Hinit).
  - vm_compute; reflexivity.
  - destruct (Hinit eq_refl) as (_ & _ & s & Hpre & Hop & Hp).
    exists s. subst pre. injection Hops as <- _. done.
Defined.

(** For an op in state INIT no trip after the first pauses the
    transaction: a write there fails the assertion. *)
Lemma loop_init_later e trans_num ops n m paused :
  (0 < n)%nat ->
  do_transaction_loop e true trans_num ops n = Returned m paused ->
  paused = false.
Proof.
  revert n. induction ops as [|s ops IH]; intros n Hn Hloop;
    cbn [do_transaction_loop] in Hloop.
  - by simplify_eq.
  - destruct (has_case (s_op s)); [|done]. cbn [negb] in Hloop.
    unfold write_assert, pauses in Hloop.
    destruct (bool_decide (s_op s = OP_WRITE)); cbn [andb negb] in Hloop.
    + rewrite (proj2 (Z.eqb_neq (Z.of_nat n) 0)) in Hloop by lia.
      by rewrite andb_false_r in Hloop.
    + destruct ((s_r s <? 0) && negb (error_ok e (s_op s) (s_r s)));
        [done|].
      eapply (IH (S n)); [lia|done].
Qed.

(** One transaction, for an op in state INIT: it returns exactly when its
    first op is a write that pauses it and whose result passes. *)
Lemma do_transaction_init e ops n paused :
  _do_transaction e true 0 ops = Returned n paused
  <-> exists s post,
        ops = s :: post /\ s_op s = OP_WRITE /\ s_pause s = true
        /\ (s_r s < 0 -> error_ok e OP_WRITE (s_r s) = true)
        /\ n = 1%nat /\ paused = true.
Proof.
  split.
  - unfold _do_transaction. destruct ops as [|s post];
      cbn [do_transaction_loop]; [done|].
    destruct (has_case (s_op s)); [|done]. cbn [negb].
    destruct (write_assert true 0 0 (s_op s)); [|done]. cbn [negb].
    destruct ((s_r s <? 0) && negb (error_ok e (s_op s) (s_r s))) eqn:Herr;
      [done|].
    destruct (pauses s) eqn:Hpause.
    + cbn. intros Hret. simplify_eq.
      apply pauses_spec in Hpause as [Hop Hp]. exists s, post.
      split; [done|]. split; [done|]. split; [done|]. split; [|done].
      intros Hneg. apply Z.ltb_lt in Hneg. rewrite Hneg, Hop in Herr.
      by apply negb_false_iff in Herr.
    + destruct (do_transaction_loop e true 0 post 1) as [m p|log] eqn:Hloop;
        [|done].
      apply loop_init_later in Hloop as ->; [|lia]. done.
  - intros (s & post & -> & Hop & Hp & Hok & -> & ->).
    unfold _do_transaction. cbn [do_transaction_loop].
    unfold write_assert, pauses. rewrite Hop, Hp.
    rewrite (bool_decide_eq_true_2 _ eq_refl). cbn.
    destruct (s_r s <? 0) eqn:Hneg; [|done].
    apply Z.ltb_lt in Hneg. by rewrite (Hok Hneg).
Qed.

(** X10.  With an op in state INIT, [_do_transactions] returns in two cases
    only: the list is empty, or the first op of the first transaction is a
    write that the replay guard lets through and whose result the error
    policy lets pass.  It then returns 0 and has applied that write alone,
    whatever follows it.  Every other list ends the process: a first
    transaction without an op, or one that starts with another op. *)
Theorem do_transactions_enters (e : engine) (tls : list (list step))
    (r : Z) (applied : list nat) :
  _do_transactions e true tls = Done r applied
  <-> r = 0
      /\ ((tls = [] /\ applied = [])
          \/ exists s post tls',
               tls = (s :: post) :: tls'
               /\ s_op s = OP_WRITE /\ s_pause s = true
               /\ (s_r s < 0 -> error_ok e OP_WRITE (s_r s) = true)
               /\ applied = [1%nat]).
Proof.
  unfold _do_transactions. destruct tls as [|p tls];
    cbn [do_transactions_loop].
  - split.
    + intros Hd. simplify_eq. split; [done|]. by left.
    + intros [-> [[_ ->]|(s & post & tls' & Hnil & _)]]; done.
  - destruct (_do_transaction e true 0 p) as [n paused|log] eqn:Hp.
    + apply do_transaction_init in Hp
        as (s & post & -> & Hop & Hpause & Hok & -> & ->).
      cbn [app]. split.
      * intros Hd. simplify_eq. split; [done|]. right.
        by exists s, post, tls.
      * intros [-> [[Hnil _]|(s' & post' & tls' & Heq & _ & _ & _ & ->)]];
          done.
    + split; [done|].
      intros [_ [[Hnil _]|(s & post & tls' & Heq & Hop & Hpause & Hok & _)]];
        [done|].
      simplify_eq.
      assert (_do_transaction e true 0 (s :: post) = Returned 1 true) as Hr.
      { apply do_transaction_init. by exists s, post. }
      congruence.
Qed.

Lemma do_transactions_enters_witness :
  _do_transactions (Engine false false false) true
    [[Step OP_WRITE 3 true; Step OP_SETATTRS 0 false];
     [Step OP_TOUCH 0 false]]
  = Done 0 [1%nat].
Proof.
  apply (proj2 (do_transactions_enters (Engine false false false)
                  [[Step OP_WRITE 3 true; Step OP_SETATTRS 0 false];
                   [Step OP_TOUCH 0 false]] 0 [1%nat])).
  split; [reflexivity|]. right.
  exists (Step OP_WRITE 3 true), [Step OP_SETATTRS 0 false],
    [[Step OP_TOUCH 0 false]].
  split; [reflexivity|]. split; [reflexivity|]. split; [reflexivity|].
  split; [simpl; lia|reflexivity].
Defined.

End DoTransactionsProofs.

(** ** Object attributes: reading and removing *)

Section AttrOpsProofs.
Import Attrs AttrOps.

Variable nchunks : list Byte.byte -> Z.

Ltac simpl_locals :=
  unfold omap_set_push;
  cbn [l_xattrs l_inline_set l_omap_set l_omap_remove fst snd].

(** What [get_xattrs] returns for a single name. *)
Lemma get_one_xattr (m : gmap string (list Byte.byte)) (name : string) :
  map_to_list (filter (λ kv, kv.1 ∈ ({[name]} : gset string)) m)
  = match m !! name with Some v => [(name, v)] | None => [] end.
Proof.
  assert (filter (λ kv, kv.1 ∈ ({[name]} : gset string)) m
          = match m !! name with Some v => {[name := v]} | None => ∅ end)
    as ->.
  { apply map_eq. intros k.
    destruct (decide (k = name)) as [->|Hne].
    - destruct (m !! name) as [v|] eqn:Hv.
      + rewrite lookup_singleton_eq. apply map_lookup_filter_Some.
        split; [done|]. cbn. by apply elem_of_singleton.
      + rewrite lookup_empty. apply map_lookup_filter_None_2. by left.
    - transitivity (@None (list Byte.byte)).
      + apply map_lookup_filter_None_2. right. intros v _. cbn.
        by rewrite elem_of_singleton.
      + destruct (m !! name); [by rewrite lookup_singleton_ne|].
        by rewrite lookup_empty. }
  destruct (m !! name).
  - apply map_to_list_singleton.
  - apply map_to_list_empty.
Qed.

(** [getattr] reads the xattr of the file, and the kv store when the file
    has no xattr of that name, whatever the sentinel says. *)
Lemma getattr_spec cfg st cid oid f name bp :
  files st !! (cid, oid) = Some f ->
  getattr cfg st cid oid name bp =
    match xattrs f !! name with
    | Some v =>
        Some (if debug_mdata_eio cfg oid then - EIO else Z.of_nat (length v),
              v)
    | None =>
        match default ∅ (object_map st !! oid) !! name with
        | Some v =>
            Some (if debug_mdata_eio cfg oid then - EIO
                  else Z.of_nat (length v), v)
        | None => Some (- ENODATA, bp)
        end
    end.
Proof.
  intros Hf. unfold getattr, _fgetattr. rewrite Hf.
  assert (forall n : nat, (Z.of_nat n =? - EIO) = false) as Heio.
  { intros n. apply Z.eqb_neq. unfold EIO. lia. }
  assert (forall n : nat, (Z.of_nat n =? - ENODATA) = false) as Hnodata.
  { intros n. apply Z.eqb_neq. unfold ENODATA. lia. }
  destruct (xattrs f !! name) as [v|] eqn:Hv.
  - rewrite Heio, andb_false_r. cbn. rewrite Hnodata, Heio, andb_false_r.
    by destruct (debug_mdata_eio cfg oid).
  - replace (- ENODATA =? - EIO) with false by reflexivity.
    rewrite andb_false_r. cbn.
    replace (- ENODATA =? - ENODATA) with true by reflexivity.
    unfold get_xattrs_of.
    destruct (object_map st !! oid) as [m|]; cbn [default from_option id].
    + change (0 <? 0) with false. cbn [andb]. rewrite get_one_xattr.
      destruct (m !! name) as [v|]; [|done].
      rewrite Heio, andb_false_r. by destruct (debug_mdata_eio cfg oid).
    + change (- ENOENT <? 0) with true.
      replace (- ENOENT =? - ENOENT) with true by reflexivity.
      cbn [andb negb]. by rewrite map_to_list_empty, lookup_empty.
Qed.

(** X11.  After a setattrs on an existing object that returned a value
    that is not an error, for attribute names that hold no NUL, getattr
    returns, for every name that was set, the value that was set with its
    length, the empty name and values above the inline limit included, and
    whatever became of the write of the sentinel (with the debug injection
    on, -EIO and the value); every other name reads as before. *)
Theorem setattrs_then_getattr (b : backend) (cfg : config) (st st' : store)
    (cid oid : string) (aset : list (string * list Byte.byte)) (f : file)
    (r : Z) :
  files st !! (cid, oid) = Some f ->
  NoDup aset.*1 ->
  Forall (λ k, c_str k = k) aset.*1 ->
  _setattrs nchunks b cfg st cid oid aset = Some (r, st') ->
  0 <= r ->
  (forall k v bp, (k, v) ∈ aset ->
     getattr cfg st' cid oid k bp =
       Some (if debug_mdata_eio cfg oid then - EIO
             else Z.of_nat (length v), v))
  /\ (forall k bp, k ∉ aset.*1 ->
        getattr cfg st' cid oid k bp = getattr cfg st cid oid k bp).
Proof.
  intros Hf Hnd Hcs Hset Hr.
  destruct (setattrs_store nchunks b cfg st cid oid aset f r st'
              Hf Hcs Hnd Hset Hr)
    as (l & sentinel & om' & -> & Hframe & Hstored & Hdisj & Hrem & _ & _
        & Hkv).
  assert (forall k bp,
    getattr cfg (Store (<[(cid, oid) := File (l_xattrs l) sentinel]>
                          (files st)) om') cid oid k bp
    = match l_xattrs l !! k with
      | Some v =>
          Some (if debug_mdata_eio cfg oid then - EIO
                else Z.of_nat (length v), v)
      | None =>
          match default ∅ (om' !! oid) !! k with
          | Some v =>
              Some (if debug_mdata_eio cfg oid then - EIO
                    else Z.of_nat (length v), v)
          | None => Some (- ENODATA, bp)
          end
      end) as Hget.
  { intros k bp. erewrite getattr_spec; [|apply lookup_insert_eq]. done. }
  split.
  - intros k v bp Hin. rewrite Hget.
    destruct (Hstored k v Hin) as ([Hx|[Hx Ho]] & _).
    + by rewrite Hx.
    + by rewrite Hx, Hkv, Ho.
  - intros k bp Hout. rewrite Hget, (getattr_spec _ _ _ _ f) by done.
    destruct (Hframe k Hout) as [Hx Ho]. cbn [l_xattrs l_omap_set] in Hx, Ho.
    rewrite Hx, Hkv, Ho, lookup_empty.
    rewrite bool_decide_eq_false_2; [done|].
    intros (_ & Hk & _)%Hrem. done.
Qed.

(** X12.  A setattrs that returned a value that is not an error, for
    attribute names that hold no NUL, keeps the attributes of the object
    in one place each, provided the file was not marked "no spill-out" or
    the write of the sentinel went through: if no name was both an xattr
    and a key of the kv store, and the kv store held nothing for a file
    marked "no spill-out", the same holds afterwards. *)
Theorem setattrs_keeps_consistent (b : backend) (cfg : config)
    (st st' : store) (cid oid : string)
    (aset : list (string * list Byte.byte)) (f : file) (r : Z) :
  files st !! (cid, oid) = Some f ->
  NoDup aset.*1 ->
  Forall (λ k, c_str k = k) aset.*1 ->
  _setattrs nchunks b cfg st cid oid aset = Some (r, st') ->
  0 <= r ->
  no_spill_out f = false \/ 0 <= set_spill_out_r b ->
  consistent st cid oid ->
  consistent st' cid oid.
Proof.
  intros Hf Hnd Hcs Hset Hr Hwrite Hwf.
  destruct (setattrs_store nchunks b cfg st cid oid aset f r st'
              Hf Hcs Hnd Hset Hr)
    as (l & sentinel & om' & -> & Hframe & Hstored & Hdisj & Hrem & Hsent
        & _ & Hkv).
  destruct (Hwf f Hf) as [Hempty Hone].
  intros f' Hf'. cbn [files object_map] in *.
  rewrite lookup_insert_eq in Hf'. simplify_eq. cbn [xattrs].
  split.
  - unfold no_spill_out at 1. cbn [spill_out_xattr].
    destruct (no_spill_out f) eqn:Hns; cbn [andb].
    + destruct Hwrite as [?|Hw]; [done|].
      rewrite (proj2 (Z.ltb_ge _ _) Hw). cbn [negb]. rewrite andb_true_r.
      destruct (bool_decide (l_omap_set l = ∅)) eqn:He; cbn [negb].
      * intros _. apply bool_decide_eq_true in He.
        apply map_eq. intros k. rewrite Hkv, He, !lookup_empty.
        rewrite Hempty by done. rewrite lookup_empty.
        by destruct (bool_decide (k ∈ l_omap_remove l)).
      * done.
    + fold (no_spill_out f). by rewrite Hns.
  - intros k Hk. rewrite Hkv, (Hdisj k Hk).
    destruct (decide (k ∈ l_omap_remove l)) as [Hr'|Hr'].
    { by rewrite (bool_decide_eq_true_2 _ Hr'). }
    rewrite (bool_decide_eq_false_2 _ Hr').
    destruct (decide (k ∈ aset.*1)) as [Hin|Hout].
    + destruct (no_spill_out f) eqn:Hns.
      * rewrite Hempty by done. apply lookup_empty.
      * destruct Hr'. by apply Hrem.
    + apply Hone. destruct (Hframe k Hout) as [Hx _].
      cbn [l_xattrs] in Hx. by rewrite <- Hx.
Qed.

(** X13.  On an object whose attributes are in one place each, rmattr
    returns 0, -ENODATA or -ENOENT, and 0 when getattr found the attribute
    before; afterwards getattr of that name returns -ENODATA, every other
    name reads as before, and the attributes are still in one place each. *)
Theorem rmattr_removes (cfg : config) (st : store) (cid oid : string)
    (name : string) (f : file) :
  files st !! (cid, oid) = Some f ->
  consistent st cid oid ->
  exists r st',
    _rmattr cfg st cid oid name = Some (r, st')
    /\ (r = 0 \/ r = - ENODATA \/ r = - ENOENT)
    /\ (forall bp r0 v, getattr cfg st cid oid name bp = Some (r0, v) ->
          0 <= r0 -> r = 0)
    /\ consistent st' cid oid
    /\ (forall bp, getattr cfg st' cid oid name bp = Some (- ENODATA, bp))
    /\ (forall k bp, k <> name ->
          getattr cfg st' cid oid k bp = getattr cfg st cid oid k bp).
Proof.
  intros Hf Hwf. destruct (Hwf f Hf) as [Hempty Hone].
  unfold _rmattr. rewrite Hf. unfold chain_fremovexattr.
  assert (forall xs sentinel om k bp,
    getattr cfg (Store (<[(cid, oid) := File xs sentinel]> (files st)) om)
      cid oid k bp
    = match xs !! k with
      | Some v =>
          Some (if debug_mdata_eio cfg oid then - EIO
                else Z.of_nat (length v), v)
      | None =>
          match default ∅ (om !! oid) !! k with
          | Some v =>
              Some (if debug_mdata_eio cfg oid then - EIO
                    else Z.of_nat (length v), v)
          | None => Some (- ENODATA, bp)
          end
      end) as Hget.
  { intros xs sentinel om k bp.
    erewrite getattr_spec; [|apply lookup_insert_eq]. done. }
  assert (forall bp r0 v, getattr cfg st cid oid name bp = Some (r0, v) ->
            0 <= r0 ->
            is_Some (xattrs f !! name)
            \/ is_Some (default ∅ (object_map st !! oid) !! name)) as Hwas.
  { intros bp r0 v Hg Hr0. rewrite (getattr_spec _ _ _ _ f) in Hg by done.
    destruct (xattrs f !! name); [left; eauto|].
    destruct (default ∅ (object_map st !! oid) !! name); [right; eauto|].
    simplify_eq. unfold ENODATA in Hr0. lia. }
  destruct (xattrs f !! name) as [old|] eqn:Hold.
  - change ((0 =? - ENODATA) && negb (no_spill_out f)) with false.
    cbv iota.
    eexists _, _. split; [done|]. split; [by left|]. split; [done|].
    split; [|split].
    + intros f' Hf'. cbn [files object_map] in *.
      rewrite lookup_insert_eq in Hf'. simplify_eq.
      split; [exact Hempty|]. cbn [xattrs]. intros k Hk. apply Hone.
      destruct (decide (k = name)) as [->|Hne]; [eauto|].
      by rewrite lookup_delete_ne in Hk.
    + intros bp. rewrite Hget, lookup_delete_eq, Hone; [done|eauto].
    + intros k bp Hne. rewrite Hget, (getattr_spec _ _ _ _ f) by done.
      by rewrite lookup_delete_ne.
  - replace (- ENODATA =? - ENODATA) with true by reflexivity. cbn [andb].
    assert (File (xattrs f) (spill_out_xattr f) = f) as Hsame
      by (by destruct f).
    destruct (no_spill_out f) eqn:Hns; cbn [negb].
    + eexists _, _. split; [done|]. split; [right; by left|].
      split.
      { intros bp r0 v Hg Hr0.
        destruct (Hwas bp r0 v Hg Hr0) as [[? ?]|[? Hkv]]; [done|].
        rewrite Hempty, lookup_empty in Hkv; done. }
      rewrite Hsame. split; [|split].
      * intros f' Hf'. cbn [files object_map] in *.
        rewrite lookup_insert_eq in Hf'. simplify_eq. by apply Hwf.
      * intros bp. rewrite <- Hsame at 1. rewrite Hget, Hold.
        by rewrite Hempty, lookup_empty.
      * intros k bp Hne. rewrite <- Hsame at 1.
        by rewrite Hget, (getattr_spec _ _ _ _ f).
    + unfold remove_xattrs.
      destruct (object_map st !! oid) as [m|] eqn:Hm.
      * change (0 <? 0) with false. cbn [andb].
        eexists _, _. split; [done|]. split; [by left|]. split; [done|].
        rewrite Hsame. cbn [default from_option id] in Hone.
        split; [|split].
        -- intros f' Hf'. cbn [files object_map] in *.
           rewrite lookup_insert_eq in Hf'. simplify_eq.
           split; [congruence|]. intros k Hk.
           rewrite lookup_insert_eq. cbn [default from_option id].
           apply map_lookup_filter_None_2. left. by apply Hone.
        -- intros bp. rewrite <- Hsame at 1.
           rewrite Hget, Hold, lookup_insert_eq.
           cbn [default from_option id].
           rewrite map_lookup_filter_None_2; [done|].
           right. intros v _. cbn. intros Hn. apply Hn.
           by apply elem_of_singleton.
        -- intros k bp Hne. rewrite <- Hsame at 1.
           rewrite Hget, (getattr_spec _ _ _ _ f), Hm by done.
           rewrite lookup_insert_eq. cbn [default from_option id].
           destruct (xattrs f !! k); [done|].
           destruct (m !! k) as [v|] eqn:Hv.
           ++ rewrite (proj2 (map_lookup_filter_Some _ _ k v)); [done|].
              split; [done|]. cbn. by rewrite elem_of_singleton.
           ++ rewrite map_lookup_filter_None_2; [done|]. by left.
      * change (- ENOENT <? 0) with true.
        replace (- ENOENT =? - ENOENT) with true by reflexivity.
        cbn [andb negb].
        eexists _, _. split; [done|]. split; [by right; right|].
        split.
        { intros bp r0 v Hg Hr0.
          destruct (Hwas bp r0 v Hg Hr0) as [[? ?]|[? Hkv]]; [done|].
          cbn in Hkv. by rewrite lookup_empty in Hkv. }
        rewrite Hsame. split; [|split].
        -- intros f' Hf'. cbn [files object_map] in *.
           rewrite lookup_insert_eq in Hf'. simplify_eq.
           rewrite Hm. by split.
        -- intros bp. rewrite <- Hsame at 1. rewrite Hget, Hold, Hm.
           cbn [default from_option id]. by rewrite lookup_empty.
        -- intros k bp Hne. rewrite <- Hsame at 1.
           by rewrite Hget, (getattr_spec _ _ _ _ f).
Qed.




(** X15.  The two read paths agree: on an object whose attributes are in
    one place each, and without the debug injection, getattr of a non-empty
    name returns the value that getattrs lists under that name with its
    length, and -ENODATA when getattrs lists none. *)
Theorem getattr_agrees_with_getattrs (cfg : config) (st : store)
    (cid oid : string) (f : file) (k : string) (bp : list Byte.byte) :
  files st !! (cid, oid) = Some f ->
  consistent st cid oid ->
  k <> ""%string ->
  debug_mdata_eio cfg oid = false ->
  exists m,
    getattrs nchunks cfg st cid oid ∅ = Some (0, m)
    /\ getattr cfg st cid oid k bp =
       match m !! k with
       | Some v => Some (Z.of_nat (length v), v)
       | None => Some (- ENODATA, bp)
       end.
Proof.
  intros Hf Hwf Hk Hdbg. destruct (Hwf f Hf) as [Hempty _].
  rewrite (getattr_spec _ _ _ _ f), Hdbg by done.
  unfold getattrs. rewrite Hf, Hdbg.
  pose proof (fgetattrs_lookup nchunks f k Hk) as Hread.
  destruct (_fgetattrs nchunks f) as [r0 orig_set] eqn:Hfg.
  assert (r0 = 0) as -> by (unfold _fgetattrs in Hfg; congruence).
  cbn [snd] in Hread. change (0 <? 0) with false. cbv beta iota.
  replace (0 =? - EIO) with false by reflexivity.
  rewrite andb_false_r, map_union_empty.
  destruct (no_spill_out f) eqn:Hns; cbn [negb].
  - eexists. split; [done|]. rewrite Hread.
    destruct (xattrs f !! k); [done|]. by rewrite Hempty, lookup_empty.
  - unfold get_xattrs.
    destruct (object_map st !! oid) as [m'|]; cbn [default from_option id].
    + change (0 <? 0) with false. cbn [andb].
      replace (0 =? - ENOENT) with false by reflexivity. cbv iota.
      replace (0 =? - EIO) with false by reflexivity. rewrite andb_false_r.
      eexists. split; [done|]. rewrite lookup_union, Hread.
      destruct (xattrs f !! k), (m' !! k); done.
    + change (- ENOENT <? 0) with true.
      replace (- ENOENT =? - ENOENT) with true by reflexivity.
      cbn [andb negb]. cbv iota.
      replace (0 =? - EIO) with false by reflexivity. rewrite andb_false_r.
      eexists. split; [done|]. rewrite map_union_empty, Hread, lookup_empty.
      by destruct (xattrs f !! k).
Qed.

End AttrOpsProofs.

Section AttrOpsWitness.
Import Attrs AttrOps.

Lemma setattrs_then_getattr_witness :
  let cfg := Config 4 2 false (λ _, false) in
  let st := Store {[ ("c", "o")%string := File {[ "a"%string := [Byte.x30] ]}
                                             (Some XATTR_NO_SPILL_OUT) ]} ∅ in
  let big := [Byte.x61; Byte.x62; Byte.x63; Byte.x64; Byte.x65] in
  (* the write of the sentinel fails *)
  let b := Backend (λ _ _, 0) (- ENOSPC) (λ _ _, 0) in
  let st' :=
    Store {[ ("c", "o")%string :=
               File (<[ ""%string := [Byte.x31] ]>
                       {[ "a"%string := [Byte.x30] ]})
                    (Some XATTR_NO_SPILL_OUT) ]}
          {[ "o"%string := {[ "b"%string := big ]} ]} in
  _setattrs (λ _, 1) b cfg st "c" "o"
    [(""%string, [Byte.x31]); ("b"%string, big)] = Some (0, st')
  /\ getattr cfg st' "c" "o" "" [] = Some (1, [Byte.x31])
  /\ getattr cfg st' "c" "o" "b" [] = Some (5, big).
Proof.
  intros cfg st big b st'.
  assert (_setattrs (λ _, 1) b cfg st "c" "o"
            [(""%string, [Byte.x31]); ("b"%string, big)] = Some (0, st'))
    as Hset by (vm_compute; reflexivity).
  split; [exact Hset|].
  destruct (setattrs_then_getattr (λ _, 1) b cfg st st' "c" "o"
              [(""%string, [Byte.x31]); ("b"%string, big)]
              (File {[ "a"%string := [Byte.x30] ]} (Some XATTR_NO_SPILL_OUT))
              0)
    as (Hget & _).
  - vm_compute; reflexivity.
  - cbn [fmap list_fmap fst]. apply NoDup_cons.
    split; [by intros ?%list_elem_of_singleton|apply NoDup_singleton].
  - repeat constructor.
  - exact Hset.
  - lia.
  - split.
    + apply (Hget ""%string [Byte.x31] []). left.
    + apply (Hget "b"%string big []). right; left.
Defined.

Lemma setattrs_keeps_consistent_witness :
  let cfg := Config 4 2 false (λ _, false) in
  let st := Store {[ ("c", "o")%string := File {[ "a"%string := [Byte.x30] ]}
                                             (Some XATTR_NO_SPILL_OUT) ]} ∅ in
  let big := [Byte.x61; Byte.x62; Byte.x63; Byte.x64; Byte.x65] in
  let st' :=
    Store {[ ("c", "o")%string := File {[ "a"%string := [Byte.x30] ]}
                                       (Some XATTR_SPILL_OUT) ]}
          {[ "o"%string := {[ "b"%string := big ]} ]} in
  _setattrs (λ _, 1) reliable cfg st "c" "o" [("b"%string, big)]
    = Some (0, st')
  /\ consistent st' "c" "o".
Proof.
  intros cfg st big st'.
  assert (_setattrs (λ _, 1) reliable cfg st "c" "o" [("b"%string, big)]
          = Some (0, st')) as Hset by (vm_compute; reflexivity).
  split; [exact Hset|].
  apply (setattrs_keeps_consistent (λ _, 1) reliable cfg st st' "c" "o"
           [("b"%string, big)]
           (File {[ "a"%string := [Byte.x30] ]} (Some XATTR_NO_SPILL_OUT))
           0).
  - vm_compute; reflexivity.
  - apply NoDup_singleton.
  - repeat constructor.
  - exact Hset.
  - lia.
  - right. vm_compute. discriminate.
  - intros f Hf. unfold st in Hf. cbn [files] in Hf.
    apply lookup_singleton_Some in Hf as [_ <-].
    split; [done|]. intros k _. apply lookup_empty.
Defined.

Lemma rmattr_removes_witness :
  let cfg := Config 4 2 false (λ _, false) in
  let st := Store {[ ("c", "o")%string := File {[ "a"%string := [Byte.x30] ]}
                                             (Some XATTR_NO_SPILL_OUT) ]} ∅ in
  exists r st',
    _rmattr cfg st "c" "o" "a" = Some (r, st')
    /\ getattr cfg st' "c" "o" "a" [] = Some (- ENODATA, []).
Proof.
  intros cfg st.
  destruct (rmattr_removes cfg st "c" "o" "a"
              (File {[ "a"%string := [Byte.x30] ]} (Some XATTR_NO_SPILL_OUT)))
    as (r & st' & Hrm & _ & _ & _ & Hget & _).
  - vm_compute; reflexivity.
  - intros f Hf. unfold st in Hf. cbn [files] in Hf.
    apply lookup_singleton_Some in Hf as [_ <-].
    split; [done|]. intros k _. apply lookup_empty.
  - exists r, st'. split; [exact Hrm|apply Hget].
Defined.


Lemma getattr_agrees_with_getattrs_witness :
  let cfg := Config 4 2 false (λ _, false) in
  let st := Store {[ ("c", "o")%string := File {[ "a"%string := [Byte.x30] ]}
                                             (Some XATTR_SPILL_OUT) ]}
                  {[ "o"%string := {[ "b"%string := [Byte.x31] ]} ]} in
  exists m,
    getattrs (λ _, 1) cfg st "c" "o" ∅ = Some (0, m)
    /\ getattr cfg st "c" "o" "b" [] =
       match m !! "b"%string with
       | Some v => Some (Z.of_nat (length v), v)
       | None => Some (- ENODATA, [])
       end.
Proof.
  intros cfg st.
  apply (getattr_agrees_with_getattrs (λ _, 1) cfg st "c" "o"
           (File {[ "a"%string := [Byte.x30] ]} (Some XATTR_SPILL_OUT))
           "b" []).
  - vm_compute; reflexivity.
  - intros f Hf. unfold st in Hf. cbn [files] in Hf.
    apply lookup_singleton_Some in Hf as [_ <-].
    split; [done|]. intros k [v Hk]. cbn [xattrs] in Hk.
    apply lookup_singleton_Some in Hk as [<- _]. vm_compute; reflexivity.
  - discriminate.
  - reflexivity.
Defined.

End AttrOpsWitness.

(** ** The op_seq file: what is written is what is read *)

Section OpSeqProofs.
Import Strings.Ascii DecimalString DecimalZ DecimalPos DecimalFacts.
Import OpSeq.

(** The characters that [%lld] prints for a number in decimal notation. *)
Abbreviation chars d :=
  (String.list_ascii_of_string (NilEmpty.string_of_uint d)).

Lemma digits_chars_pos d p rest :
  digits (chars d ++ rest) (Z.pos p)
  = digits rest (Z.pos (Pos.of_uint_acc d p)).
Proof.
  revert p. induction d as [|d IH|d IH|d IH|d IH|d IH|d IH|d IH|d IH|d IH|d IH];
    intros p; [done|..]; cbn [NilEmpty.string_of_uint
      String.list_ascii_of_string app digits Pos.of_uint_acc];
    match goal with
    | |- context [digit_value ?c] =>
        let v := eval vm_compute in (digit_value c) in
        change (digit_value c) with v
    end; cbv iota; rewrite <- IH; f_equal; lia.
Qed.

Lemma digits_chars d rest :
  digits (chars d ++ rest) 0 = digits rest (Z.of_N (Pos.of_uint d)).
Proof.
  induction d as [|d IH|d IH|d IH|d IH|d IH|d IH|d IH|d IH|d IH|d IH];
    [done|..]; cbn [NilEmpty.string_of_uint
      String.list_ascii_of_string app digits Pos.of_uint];
    match goal with
    | |- context [digit_value ?c] =>
        let v := eval vm_compute in (digit_value c) in
        change (digit_value c) with v
    end; cbv iota; [exact IH|..];
    cbn [Z.mul Z.add Z.of_N]; apply digits_chars_pos.
Qed.

Lemma chars_are_digits d : Forall (λ c, is_Some (digit_value c)) (chars d).
Proof.
  induction d; cbn [NilEmpty.string_of_uint String.list_ascii_of_string];
    constructor; try done; vm_compute; eauto.
Qed.

Lemma digit_not_special c :
  is_Some (digit_value c) ->
  isspace c = false /\ Strings.Ascii.eqb c Strings.Ascii.zero = false
  /\ Strings.Ascii.eqb c "-" = false /\ Strings.Ascii.eqb c "+" = false.
Proof.
  destruct c as [[] [] [] [] [] [] [] []]; intros [v Hv];
    try discriminate Hv; done.
Qed.

Lemma c_str_digits l rest :
  Forall (λ c, is_Some (digit_value c)) l ->
  c_str (l ++ rest) = l ++ c_str rest.
Proof.
  induction 1 as [|c l Hc _ IH]; [done|]. cbn [app c_str].
  destruct (digit_not_special c Hc) as (_ & -> & _). by rewrite IH.
Qed.

(** The value of a number is at least the power of ten of its length. *)
Lemma of_uint_acc_ge d p :
  Z.pos p * 10 ^ Z.of_nat (length (chars d)) <= Z.pos (Pos.of_uint_acc d p).
Proof.
  revert p. induction d as [|d IH|d IH|d IH|d IH|d IH|d IH|d IH|d IH|d IH|d IH];
    intros p; cbn [NilEmpty.string_of_uint String.list_ascii_of_string
                   length Pos.of_uint_acc]; [simpl; lia|..];
    rewrite Nat2Z.inj_succ, Z.pow_succ_r by lia;
    (etransitivity; [|apply IH]);
    assert (0 <= 10 ^ Z.of_nat (length (chars d))) by (apply Z.pow_nonneg; lia);
    nia.
Qed.

Lemma to_uint_head p :
  exists d, Pos.to_uint p = d /\ d <> Decimal.Nil
            /\ (forall l, d <> Decimal.D0 l).
Proof.
  exists (Pos.to_uint p). split; [done|].
  split; [apply Unsigned.to_uint_nonnil|].
  intros l Hl.
  assert (Pos.to_uint p = Decimal.unorm (Pos.to_uint p)) as Hn.
  { rewrite <- (DecimalPos.Unsigned.to_of (Pos.to_uint p)).
    by rewrite DecimalPos.Unsigned.of_to. }
  assert (forall d l', Decimal.nzhead d <> Decimal.D0 l') as Hnz.
  { intros d. induction d; intros l'; simpl; try discriminate. apply IHd. }
  unfold Decimal.unorm in Hn.
  destruct (Decimal.nzhead (Pos.to_uint p)) eqn:Hh; try congruence.
  - exact (Unsigned.to_uint_nonzero p Hn).
  - exact (Hnz _ _ Hh).
Qed.

Lemma chars_length_bound p :
  Z.pos p <= 2 ^ 63 -> (length (chars (Pos.to_uint p)) <= 19)%nat.
Proof.
  intros Hp. destruct (to_uint_head p) as (d & Hd & Hnil & Hd0).
  pose proof (DecimalPos.Unsigned.of_to p) as Hof. rewrite Hd in *.
  assert (forall l k, Pos.of_uint_acc l k = p ->
            (S (length (chars l)) <= 19)%nat) as Hbound.
  { intros l k <-. pose proof (of_uint_acc_ge l k) as Hge.
    destruct (decide (length (chars l) < 19)%nat) as [?|Hbig]; [lia|].
    assert (10 ^ 19 <= 10 ^ Z.of_nat (length (chars l))).
    { apply Z.pow_le_mono_r; lia. }
    assert (2 ^ 63 < 10 ^ 19) by (vm_compute; reflexivity).
    nia. }
  destruct d; cbn [NilEmpty.string_of_uint String.list_ascii_of_string length];
    try (cbn [Pos.of_uint] in Hof; injection Hof as Hof; by eapply Hbound).
  - done.
  - by destruct (Hd0 d).
Qed.

Lemma atoll_digits_then_newline d rest :
  d <> Decimal.Nil ->
  digits (c_str (chars d ++ "010"%char :: rest)) 0
  = Z.of_N (Pos.of_uint d).
Proof.
  intros _. rewrite c_str_digits by apply chars_are_digits.
  rewrite digits_chars. done.
Qed.

Lemma skip_spaces_digits d rest :
  d <> Decimal.Nil ->
  skip_spaces (chars d ++ rest) = chars d ++ rest.
Proof.
  intros Hd. pose proof (chars_are_digits d) as Hall.
  destruct d; try done;
    cbn [NilEmpty.string_of_uint String.list_ascii_of_string app] in *;
    apply Forall_cons in Hall as [Hc _];
    cbn [skip_spaces]; by destruct (digit_not_special _ Hc) as (-> & _).
Qed.

(** What was printed is read back, whatever follows the newline. *)
Lemma atoll_printed z rest :
  - 2 ^ 63 <= z < 2 ^ 63 ->
  let printed :=
    String.list_ascii_of_string (NilZero.string_of_int (Z.to_int z)) in
  (0 < length printed <= 20)%nat
  /\ atoll (c_str (take 39 (printed ++ "010"%char :: rest))) = z.
Proof.
  intros Hz printed.
  assert (forall n : nat, (n <= 20)%nat ->
            forall l, length l = n ->
            take 39 (l ++ "010"%char :: rest)
            = l ++ "010"%char :: take (38 - n) rest) as Htake.
  { intros n Hn l Hl. rewrite take_app_ge by lia. f_equal.
    replace (39 - length l)%nat with (S (38 - n)) by lia. done. }
  assert (forall d rest', d <> Decimal.Nil ->
            (forall l, d <> Decimal.D0 l) \/ d = Decimal.D0 Decimal.Nil ->
            atoll (c_str (chars d ++ "010"%char :: rest'))
            = Z.min (2 ^ 63 - 1) (Z.of_N (Pos.of_uint d))) as Hpos.
  { intros d rest' Hd _. unfold atoll.
    rewrite c_str_digits by apply chars_are_digits.
    cbn [c_str]. change (Strings.Ascii.eqb "010" zero) with false. cbv iota.
    rewrite skip_spaces_digits by done.
    pose proof (chars_are_digits d) as Hall.
    pose proof (digits_chars d ("010"%char :: c_str rest')) as Hdig.
    destruct (chars d) as [|c l] eqn:Hc.
    { destruct d; [done|discriminate Hc..]. }
    apply Forall_cons in Hall as [Hc' _]. cbn [app] in *.
    destruct (digit_not_special _ Hc') as (_ & _ & -> & ->).
    rewrite Hdig. cbn [digits].
    change (digit_value "010") with (@None Z). done. }
  destruct z as [|p|p].
  - split; [vm_compute; lia|]. vm_compute. done.
  - unfold printed. cbn [Z.to_int NilZero.string_of_int].
    destruct (to_uint_head p) as (d & Hd & Hnil & Hd0).
    assert (NilZero.string_of_uint (Pos.to_uint p)
            = NilEmpty.string_of_uint (Pos.to_uint p)) as ->.
    { rewrite Hd. by destruct d. }
    pose proof (chars_length_bound p ltac:(lia)) as Hlen.
    split.
    { split; [|lia]. rewrite Hd. destruct d; try done; cbn; lia. }
    rewrite (Htake (length (chars (Pos.to_uint p))) ltac:(lia) _ eq_refl).
    rewrite Hpos; [|by rewrite Hd|left; by rewrite Hd].
    rewrite DecimalPos.Unsigned.of_to. cbn [Z.of_N]. lia.
  - unfold printed. cbn [Z.to_int NilZero.string_of_int].
    destruct (to_uint_head p) as (d & Hd & Hnil & Hd0).
    assert (NilZero.string_of_uint (Pos.to_uint p)
            = NilEmpty.string_of_uint (Pos.to_uint p)) as ->.
    { rewrite Hd. by destruct d. }
    pose proof (chars_length_bound p ltac:(lia)) as Hlen.
    cbn [String.list_ascii_of_string length].
    split; [lia|].
    rewrite <- app_comm_cons.
    change (take 39 ("-"%char :: ?l)) with ("-"%char :: take 38 l).
    rewrite take_app_ge by lia.
    replace (38 - length (chars (Pos.to_uint p)))%nat
      with (S (37 - length (chars (Pos.to_uint p)))) by lia.
    cbn [take c_str]. change (Strings.Ascii.eqb "-" zero) with false. cbv iota.
    unfold atoll. cbn [skip_spaces].
    change (isspace "-") with false. cbv iota.
    change (Strings.Ascii.eqb "-" "-") with true. cbv iota.
    rewrite c_str_digits by apply chars_are_digits.
    rewrite digits_chars. cbn [c_str].
    change (Strings.Ascii.eqb "010" zero) with false. cbv iota. cbn [digits].
    change (digit_value "010") with (@None Z). cbv iota.
    rewrite DecimalPos.Unsigned.of_to. cbn [Z.of_N]. lia.
Qed.

Lemma to_uint64_to_int64 seq :
  0 <= seq < 2 ^ 64 ->
  - 2 ^ 63 <= to_int64 seq < 2 ^ 63 /\ to_uint64 (to_int64 seq) = seq.
Proof.
  intros Hseq. unfold to_int64, to_uint64.
  rewrite (Z.mod_small seq) by done.
  destruct (seq <? 2 ^ 63) eqn:Hlt.
  - apply Z.ltb_lt in Hlt. split; [lia|]. by apply Z.mod_small.
  - apply Z.ltb_ge in Hlt. split; [lia|].
    replace (seq - 2 ^ 64) with (seq + (-1) * 2 ^ 64) by lia.
    rewrite Z.mod_add by lia. by apply Z.mod_small.
Qed.

(** Writing a sequence number and reading the file again. *)
Lemma read_after_write content seq op_fd seq0 :
  0 <= seq < 2 ^ 64 -> 0 <= op_fd ->
  0 < (write_op_seq content seq).1
  /\ read_op_seq op_fd (Some (write_op_seq content seq).2) seq0
     = (op_fd, seq, Some (write_op_seq content seq).2).
Proof.
  intros Hseq Hfd. destruct (to_uint64_to_int64 seq Hseq) as [Hrange Hback].
  unfold write_op_seq, snprintf_seq. cbn [fst snd].
  set (printed := String.list_ascii_of_string
                    (NilZero.string_of_int (Z.to_int (to_int64 seq)))).
  destruct (atoll_printed (to_int64 seq)
              (drop (length (printed ++ ["010"%char])) content) Hrange)
    as [Hlen Hread].
  fold printed in Hlen, Hread.
  rewrite take_ge by (rewrite length_app; cbn [length]; lia).
  split; [rewrite length_app; cbn [length]; lia|].
  unfold read_op_seq. rewrite (proj2 (Z.ltb_ge op_fd 0)) by done.
  cbn [default from_option id].
  rewrite <- app_assoc. cbn [app]. by rewrite Hread, Hback.
Qed.

(** X16.  A sequence number written by [write_op_seq] is the one
    [read_op_seq] reads back, for every [uint64_t] value (those from 2^63
    on are printed with a minus sign and come back by wrap-around) and
    whatever the file held before, longer or shorter. *)
Theorem op_seq_roundtrip (content : list ascii) (seq op_fd seq0 : Z) :
  0 <= seq < 2 ^ 64 -> 0 <= op_fd ->
  exists ret content',
    write_op_seq content seq = (ret, content')
    /\ 0 < ret
    /\ read_op_seq op_fd (Some content') seq0 = (op_fd, seq, Some content').
Proof.
  intros Hseq Hfd.
  destruct (read_after_write content seq op_fd seq0 Hseq Hfd) as [Hret Hread].
  destruct (write_op_seq content seq) as [ret content'].
  by exists ret, content'.
Qed.

(** X17.  After the op_seq stanza of mkfs went through, mount reads a
    sequence number other than 0 and does not return [-EINVAL]: it is 1 on
    a file that was missing, empty or held 0 (and only then is the
    checkpoint snap_1 asked for, when the backend can checkpoint), and the
    number found in the file otherwise, the file being left alone. *)
Theorem mkfs_then_mount (op_fd op_fd' : Z) (can_checkpoint : bool)
    (create_checkpoint_r seq0 ret : Z) (file : option (list ascii)) :
  0 <= op_fd -> 0 <= op_fd' ->
  (can_checkpoint = true -> create_checkpoint_r < 0 ->
   create_checkpoint_r = - EEXIST) ->
  let old_seq := (read_op_seq op_fd file 0).1.2 in
  exists content' snap_1,
    mkfs_op_seq op_fd can_checkpoint create_checkpoint_r file
    = Some (content', snap_1)
    /\ exists seq, mount_op_seq op_fd' (Some content') seq0 ret = inr seq
       /\ seq <> 0
       /\ (old_seq = 0 -> seq = 1 /\ snap_1 = can_checkpoint)
       /\ (old_seq <> 0 ->
           seq = old_seq /\ snap_1 = false /\ content' = default [] file).
Proof.
  intros Hfd Hfd' Hckpt old_seq. unfold mkfs_op_seq, mount_op_seq.
  assert (read_op_seq op_fd file 0
          = (op_fd, old_seq, Some (default [] file))) as Hread0.
  { unfold old_seq, read_op_seq.
    by rewrite (proj2 (Z.ltb_ge op_fd 0)) by done. }
  rewrite Hread0. rewrite (proj2 (Z.ltb_ge op_fd 0)) by done.
  cbn [default from_option id].
  destruct (old_seq =? 0) eqn:Hzero.
  - apply Z.eqb_eq in Hzero.
    destruct (read_after_write (default [] file) 1 op_fd' seq0
                ltac:(lia) Hfd') as [Hret Hread].
    destruct (write_op_seq (default [] file) 1) as [err content'].
    cbn [fst snd] in *.
    rewrite (proj2 (Z.ltb_ge err 0)) by lia.
    assert (can_checkpoint && (create_checkpoint_r <? 0)
            && negb (create_checkpoint_r =? - EEXIST) = false) as ->.
    { destruct can_checkpoint; [|done]. cbn [andb].
      destruct (create_checkpoint_r <? 0) eqn:Hneg; [|done].
      apply Z.ltb_lt in Hneg. rewrite (Hckpt eq_refl Hneg).
      by rewrite Z.eqb_refl. }
    eexists _, _. split; [done|]. rewrite Hread.
    rewrite (proj2 (Z.ltb_ge op_fd' 0)) by done.
    exists 1. split; [done|]. split; [done|]. split; [done|]. lia.
  - apply Z.eqb_neq in Hzero.
    eexists _, _. split; [done|].
    assert (read_op_seq op_fd' (Some (default [] file)) seq0
            = (op_fd', old_seq, Some (default [] file))) as ->.
    { unfold old_seq, read_op_seq.
      rewrite (proj2 (Z.ltb_ge op_fd 0)), (proj2 (Z.ltb_ge op_fd' 0)) by done.
      done. }
    rewrite (proj2 (Z.ltb_ge op_fd' 0)) by done.
    rewrite (proj2 (Z.eqb_neq old_seq 0)) by done.
    exists old_seq. split; [done|]. split; [done|]. split; [lia|done].
Qed.

End OpSeqProofs.

Section OpSeqWitness.
Import Strings.Ascii OpSeq.

Lemma op_seq_roundtrip_witness :
  exists ret content',
    write_op_seq (String.list_ascii_of_string "1000") 5 = (ret, content')
    /\ 0 < ret
    /\ read_op_seq 3 (Some content') 0 = (3, 5, Some content').
Proof. apply (op_seq_roundtrip _ 5 3 0); lia. Defined.

Lemma mkfs_then_mount_witness :
  exists content' snap_1,
    mkfs_op_seq 3 true 0 None = Some (content', snap_1)
    /\ exists seq, mount_op_seq 4 (Some content') 0 0 = inr seq
       /\ seq = 1 /\ snap_1 = true.
Proof.
  destruct (mkfs_then_mount 3 4 true 0 0 0 None)
    as (c & s & Hmkfs & q & Hmount & _ & Hnew & _).
  - lia.
  - lia.
  - intros _ H. lia.
  - exists c, s. split; [exact Hmkfs|]. exists q. split; [exact Hmount|].
    apply Hnew. reflexivity.
Defined.

End OpSeqWitness.

(** ** The split of a collection and its replay *)

Section SplitCollectionProofs.
Import ReplayGuard SplitCollection.

(** A guard at or after the position, closed when at the position, makes
    the check say "skip". *)
Lemma check_guard_closed e g spos :
  replaying e = true -> can_checkpoint e = false ->
  pos_le spos (g_pos g) ->
  (spos = g_pos g -> g_in_progress g <> Some true) ->
  _check_replay_guard e (inr g) spos = Some (-1).
Proof.
  intros Hrep Hcp Hle Hclosed. unfold _check_replay_guard.
  rewrite Hrep, Hcp. cbn [negb orb].
  unfold pos_le in Hle. unfold pos_gt, pos_eq.
  rewrite (pos_compare_antisym spos (g_pos g)).
  destruct (pos_compare spos (g_pos g)) eqn:Hc; cbn [CompOpp]; [|done|done].
  apply pos_compare_eq in Hc. specialize (Hclosed Hc).
  by destruct (g_in_progress g) as [[]|].
Qed.

(** A check that says "skip" found such a guard. *)
Lemma check_guard_skip_inv e old spos r :
  _check_replay_guard e (chain_fgetxattr_guard old) spos = Some r -> r < 0 ->
  exists g, old = Some g /\ pos_le spos (g_pos g)
            /\ (spos = g_pos g -> g_in_progress g <> Some true).
Proof.
  unfold _check_replay_guard. intros Hchk Hr.
  destruct (negb (replaying e) || can_checkpoint e); [simplify_eq; lia|].
  destruct old as [g|]; cbn [chain_fgetxattr_guard] in Hchk.
  2:{ destruct (m_filestore_fail_eio e && _); simplify_eq; lia. }
  exists g. split; [done|]. unfold pos_gt, pos_eq in Hchk. unfold pos_le.
  rewrite (pos_compare_antisym (g_pos g) spos).
  destruct (pos_compare (g_pos g) spos) eqn:Hc; cbn [CompOpp].
  - apply pos_compare_eq in Hc. split; [done|]. intros _.
    destruct (g_in_progress g) as [[]|]; simpl in Hchk; simplify_eq;
      try done; lia.
  - simplify_eq. lia.
  - split; [done|]. intros ->. by rewrite pos_compare_refl in Hc.
Qed.

(** The check of a collection reads the guard of its directory. *)
Lemma check_coll_guard_of e st c spos :
  replaying e = true -> can_checkpoint e = false ->
  _check_replay_guard_coll e st c spos =
  match guard_of st c with
  | None => Some 1
  | Some old => _check_replay_guard e (chain_fgetxattr_guard old) spos
  end.
Proof.
  intros Hrep Hcp. unfold _check_replay_guard_coll, guard_of.
  rewrite Hrep, Hcp. cbn [negb orb]. by destruct (st !! c).
Qed.

Lemma check_coll_is_Some e st c spos :
  is_Some (_check_replay_guard_coll e st c spos).
Proof.
  unfold _check_replay_guard_coll.
  destruct (negb (replaying e) || can_checkpoint e); [eauto|].
  destruct (st !! c) as [col|]; [|eauto].
  unfold _check_replay_guard.
  destruct (negb (replaying e) || can_checkpoint e); [eauto|].
  destruct (c_guard col) as [g|]; cbn [chain_fgetxattr_guard].
  - destruct (pos_gt _ _); [eauto|].
    destruct (pos_eq _ _); [|eauto]. destruct (default false _); eauto.
  - replace (- ENODATA =? - EIO) with false by reflexivity.
    rewrite andb_false_r. eauto.
Qed.

(** A check of a collection that says "skip" says so for every older
    position, and in every later replay. *)
Lemma check_coll_skip_mono e e' st c spos spos' r :
  replaying e' = true -> can_checkpoint e' = false ->
  _check_replay_guard_coll e st c spos = Some r -> r < 0 ->
  pos_le spos' spos ->
  _check_replay_guard_coll e' st c spos' = Some (-1).
Proof.
  intros Hrep Hcp Hchk Hr Hle.
  rewrite check_coll_guard_of by done.
  unfold _check_replay_guard_coll, guard_of in *.
  destruct (negb (replaying e) || can_checkpoint e); [simplify_eq; lia|].
  destruct (st !! c) as [col|]; [|simplify_eq; lia]. cbn [fmap option_fmap option_map].
  destruct (check_guard_skip_inv _ _ _ _ Hchk Hr) as (g & -> & Hle' & Hcl).
  cbn [chain_fgetxattr_guard]. apply check_guard_closed; try done.
  - by eapply pos_le_trans.
  - intros ->. assert (spos = g_pos g) as Heq.
    { unfold pos_le in *.
      pose proof (pos_compare_spec (g_pos g) spos) as H1.
      pose proof (pos_compare_spec spos (g_pos g)) as H2.
      destruct (pos_compare (g_pos g) spos), (pos_compare spos (g_pos g));
        try done; simplify_eq; try done; lia. }
    by apply Hcl.
Qed.

(** How each step of the split changes the guards. *)
Lemma set_global_guard_spec e st cid spos :
  can_checkpoint e = false -> is_Some (st !! cid) ->
  exists st',
    _set_global_replay_guard e st cid spos = Some st'
    /\ (forall c, guard_of st' c = guard_of st c)
    /\ global_guard_of st' cid = Some (Some spos).
Proof.
  intros Hcp [col Hcol]. unfold _set_global_replay_guard.
  rewrite Hcp, Hcol. eexists. split; [done|].
  unfold guard_of, global_guard_of. split.
  - intros c. destruct (decide (c = cid)) as [->|Hne].
    + by rewrite lookup_insert_eq, Hcol.
    + by rewrite lookup_insert_ne.
  - by rewrite lookup_insert_eq.
Qed.

Lemma set_guard_coll_spec e st cid spos in_progress :
  can_checkpoint e = false -> is_Some (st !! cid) ->
  exists st',
    _set_replay_guard_coll e st cid spos in_progress = Some st'
    /\ guard_of st' cid = Some (Some (Guard spos (Some in_progress)))
    /\ (forall c, c <> cid -> guard_of st' c = guard_of st c)
    /\ (forall c, is_Some (st' !! c) <-> is_Some (st !! c))
    /\ (forall c, global_guard_of st' c = global_guard_of st c).
Proof.
  intros Hcp [col Hcol]. unfold _set_replay_guard_coll, _set_replay_guard.
  rewrite Hcp, Hcol. eexists. split; [done|].
  unfold guard_of, global_guard_of. split; [|split; [|split]].
  - by rewrite lookup_insert_eq.
  - intros c Hne. by rewrite lookup_insert_ne.
  - intros c. destruct (decide (c = cid)) as [->|Hne].
    + rewrite lookup_insert_eq, Hcol. split; eauto.
    + by rewrite lookup_insert_ne.
  - intros c. destruct (decide (c = cid)) as [->|Hne].
    + by rewrite lookup_insert_eq, Hcol.
    + by rewrite lookup_insert_ne.
Qed.

Lemma close_guard_coll_spec e st cid spos :
  can_checkpoint e = false -> is_Some (st !! cid) ->
  exists st',
    _close_replay_guard_coll e st cid spos = Some st'
    /\ guard_of st' cid = Some (Some (Guard spos (Some false)))
    /\ (forall c, c <> cid -> guard_of st' c = guard_of st c)
    /\ (forall c, is_Some (st' !! c) <-> is_Some (st !! c))
    /\ (forall c, global_guard_of st' c = global_guard_of st c).
Proof.
  intros Hcp [col Hcol]. unfold _close_replay_guard_coll, _close_replay_guard.
  rewrite Hcp, Hcol. eexists. split; [done|].
  unfold guard_of, global_guard_of. split; [|split; [|split]].
  - by rewrite lookup_insert_eq.
  - intros c Hne. by rewrite lookup_insert_ne.
  - intros c. destruct (decide (c = cid)) as [->|Hne].
    + rewrite lookup_insert_eq, Hcol. split; eauto.
    + by rewrite lookup_insert_ne.
  - intros c. destruct (decide (c = cid)) as [->|Hne].
    + by rewrite lookup_insert_eq, Hcol.
    + by rewrite lookup_insert_ne.
Qed.

Lemma split_guards matches st cid dest c :
  guard_of (split matches st cid dest) c = guard_of st c
  /\ global_guard_of (split matches st cid dest) c = global_guard_of st c
  /\ (is_Some (split matches st cid dest !! c) <-> is_Some (st !! c)).
Proof.
  unfold split, guard_of, global_guard_of.
  destruct (st !! cid) as [col|] eqn:Hcol; [|done].
  destruct (st !! dest) as [d|] eqn:Hd; [|done].
  destruct (decide (c = dest)) as [->|Hne].
  - rewrite lookup_insert_eq, Hd. cbn. repeat split; eauto.
  - rewrite lookup_insert_ne by done.
    destruct (decide (c = cid)) as [->|Hne'].
    + rewrite lookup_insert_eq, Hcol. cbn. repeat split; eauto.
    + by rewrite lookup_insert_ne.
Qed.

(** A split that is not skipped leaves its position in the global guard
    of the source and in the closed guards of both collections. *)
Lemma split_ran e dv matches st cid dest spos dstcmp srccmp res :
  can_checkpoint e = false ->
  is_Some (st !! cid) -> is_Some (st !! dest) ->
  _check_replay_guard_coll e st dest spos = Some dstcmp -> 0 <= dstcmp ->
  _check_replay_guard_coll e st cid spos = Some srccmp -> 0 <= srccmp ->
  _split_collection e dv matches st cid dest spos = Some res ->
  res.1 = 0
  /\ guard_of res.2 cid = Some (Some (Guard spos (Some false)))
  /\ guard_of res.2 dest = Some (Some (Guard spos (Some false)))
  /\ global_guard_of res.2 cid = Some (Some spos).
Proof.
  intros Hcp Hcid Hdest Hdst Hdstcmp Hsrc Hsrccmp. unfold _split_collection.
  unfold collection_exists.
  rewrite !bool_decide_eq_true_2 by done. cbn [negb].
  rewrite Hdst. cbn. rewrite (proj2 (Z.ltb_ge dstcmp 0)) by done.
  rewrite Hsrc. cbn. rewrite (proj2 (Z.ltb_ge srccmp 0)) by done.
  destruct (set_global_guard_spec e st cid spos Hcp Hcid)
    as (st1 & -> & Hg1 & Hgg1). cbn.
  assert (forall c, is_Some (st1 !! c) <-> is_Some (st !! c)) as Hex1.
  { intros c. specialize (Hg1 c). unfold guard_of in Hg1.
    destruct (st1 !! c), (st !! c); try done; split; eauto. }
  destruct (set_guard_coll_spec e st1 cid spos true Hcp)
    as (st2 & -> & Hg2 & Hg2' & Hex2 & Hgg2); [by apply Hex1|]. cbn.
  destruct (set_guard_coll_spec e st2 dest spos true Hcp)
    as (st3 & -> & Hg3 & Hg3' & Hex3 & Hgg3); [by apply Hex2, Hex1|]. cbn.
  set (st4 := split matches st3 cid dest).
  assert (forall c, is_Some (st4 !! c) <-> is_Some (st !! c)) as Hex4.
  { intros c. destruct (split_guards matches st3 cid dest c) as (_ & _ & H).
    unfold st4. rewrite H, Hex3, Hex2. apply Hex1. }
  destruct (close_guard_coll_spec e st4 cid spos Hcp)
    as (st5 & -> & Hg5 & Hg5' & Hex5 & Hgg5); [by apply Hex4|]. cbn.
  destruct (close_guard_coll_spec e st5 dest spos Hcp)
    as (st6 & -> & Hg6 & Hg6' & Hex6 & Hgg6); [by apply Hex5, Hex4|]. cbn.
  destruct (dv && negb (verify_split matches st6 cid dest)); [done|].
  intros [= <-]. cbn [fst snd]. split; [done|]. split; [|split].
  - destruct (decide (cid = dest)) as [->|Hne]; [done|].
    by rewrite Hg6'.
  - done.
  - rewrite Hgg6, Hgg5.
    destruct (split_guards matches st3 cid dest cid) as (_ & Hgg4 & _).
    fold st4 in Hgg4. by rewrite Hgg4, Hgg3, Hgg2.
Qed.

(** X18.  On a backend that cannot checkpoint, a split that returned is
    not done again at replay: the same call at the same journal position or
    at an older one returns 0 and leaves the store as it is, whatever the
    hash test and the debug switch are. *)
Theorem split_not_replayed (e e' : engine) (dv dv' : bool)
    (matches matches' : string -> bool) (st st' : gmap string collection)
    (cid dest : string) (spos spos' : SequencerPosition) (r : Z) :
  can_checkpoint e = false ->
  _split_collection e dv matches st cid dest spos = Some (r, st') ->
  replaying e' = true -> can_checkpoint e' = false ->
  pos_le spos' spos ->
  _split_collection e' dv' matches' st' cid dest spos' = Some (0, st').
Proof.
  intros Hcp Hsplit Hrep' Hcp' Hle.
  pose proof Hsplit as Hsplit0.
  unfold _split_collection in Hsplit |- *. unfold collection_exists in *.
  destruct (decide (is_Some (st !! cid))) as [Hcid|Hcid].
  2:{ rewrite bool_decide_eq_false_2 in Hsplit by done. cbn [negb] in Hsplit.
      destruct (replaying e); [|done]. simplify_eq.
      rewrite bool_decide_eq_false_2 by done. cbn [negb]. by rewrite Hrep'. }
  rewrite (bool_decide_eq_true_2 _ Hcid) in Hsplit. cbn [negb] in Hsplit.
  destruct (decide (is_Some (st !! dest))) as [Hdest|Hdest].
  2:{ rewrite bool_decide_eq_false_2 in Hsplit by done. cbn [negb] in Hsplit.
      destruct (replaying e); [|done]. simplify_eq.
      rewrite (bool_decide_eq_true_2 _ Hcid). cbn [negb].
      rewrite bool_decide_eq_false_2 by done. cbn [negb]. by rewrite Hrep'. }
  rewrite (bool_decide_eq_true_2 _ Hdest) in Hsplit. cbn [negb] in Hsplit.
  destruct (_check_replay_guard_coll e st dest spos) as [dstcmp|] eqn:Hdst;
    [|done].
  cbn in Hsplit. destruct (dstcmp <? 0) eqn:Hd.
  { apply Z.ltb_lt in Hd. simplify_eq.
    rewrite !bool_decide_eq_true_2 by done. cbn [negb].
    by rewrite (check_coll_skip_mono e e' _ _ _ _ _ Hrep' Hcp' Hdst Hd Hle). }
  apply Z.ltb_ge in Hd.
  destruct (_check_replay_guard_coll e st cid spos) as [srccmp|] eqn:Hsrc;
    [|done].
  cbn in Hsplit. destruct (srccmp <? 0) eqn:Hs.
  { apply Z.ltb_lt in Hs. simplify_eq.
    rewrite !bool_decide_eq_true_2 by done. cbn [negb].
    destruct (check_coll_is_Some e' st' dest spos') as [c' ->]. cbn.
    destruct (c' <? 0); [done|].
    by rewrite (check_coll_skip_mono e e' _ _ _ _ _ Hrep' Hcp' Hsrc Hs Hle). }
  apply Z.ltb_ge in Hs. clear Hsplit.
  destruct (split_ran e dv matches st cid dest spos dstcmp srccmp (r, st')
              Hcp Hcid Hdest Hdst Hd Hsrc Hs Hsplit0)
    as (_ & Hgc & Hgd & _). cbn [snd] in *.
  assert (is_Some (st' !! cid) /\ is_Some (st' !! dest)) as [Hcid' Hdest'].
  { unfold guard_of in Hgc, Hgd.
    destruct (st' !! cid), (st' !! dest); try done; split; eauto. }
  rewrite !bool_decide_eq_true_2 by done. cbn [negb].
  rewrite (check_coll_guard_of e' st' dest) by done.
  rewrite Hgd. cbn [chain_fgetxattr_guard].
  rewrite check_guard_closed; try done.
Qed.

(** X19.  After a split done outside replay on a backend that cannot
    checkpoint, a replay of any older journal position finds the guards
    set: the check of every object name of the source collection, and the
    checks of the source and of the destination directory, answer -1
    (skip). *)
Theorem split_guards_source (e e' : engine) (dv : bool)
    (matches : string -> bool) (st st' : gmap string collection)
    (cid dest oid : string) (spos spos' : SequencerPosition) (r : Z) :
  replaying e = false -> can_checkpoint e = false ->
  _split_collection e dv matches st cid dest spos = Some (r, st') ->
  replaying e' = true -> can_checkpoint e' = false ->
  pos_lt spos' spos ->
  _check_replay_guard_obj e' st' cid oid spos' = Some (-1)
  /\ _check_replay_guard_coll e' st' cid spos' = Some (-1)
  /\ _check_replay_guard_coll e' st' dest spos' = Some (-1).
Proof.
  intros Hrep Hcp Hsplit Hrep' Hcp' Hlt.
  assert (forall c, _check_replay_guard_coll e st c spos = Some 1) as Hchk.
  { intros c. unfold _check_replay_guard_coll. by rewrite Hrep. }
  assert (is_Some (st !! cid) /\ is_Some (st !! dest)) as [Hcid Hdest].
  { unfold _split_collection, collection_exists in Hsplit.
    rewrite Hrep in Hsplit.
    destruct (decide (is_Some (st !! cid))) as [Hcid|Hcid].
    2:{ by rewrite bool_decide_eq_false_2 in Hsplit. }
    rewrite (bool_decide_eq_true_2 _ Hcid) in Hsplit. cbn [negb] in Hsplit.
    destruct (decide (is_Some (st !! dest))) as [Hdest|Hdest]; [done|].
    by rewrite bool_decide_eq_false_2 in Hsplit. }
  destruct (split_ran e dv matches st cid dest spos 1 1 (r, st')
              Hcp Hcid Hdest (Hchk dest) ltac:(lia) (Hchk cid) ltac:(lia)
              Hsplit)
    as (Hr & Hgc & Hgd & Hgg). cbn [fst snd] in *.
  assert (pos_le spos' spos /\ spos' <> spos) as [Hle Hne].
  { unfold pos_lt in Hlt. unfold pos_le. split; [by rewrite Hlt|].
    intros ->. by rewrite pos_compare_refl in Hlt. }
  split; [|split].
  - unfold _check_replay_guard_obj, _check_global_replay_guard.
    rewrite Hrep', Hcp'. cbn [negb orb].
    unfold global_guard_of in Hgg.
    destruct (st' !! cid) as [col|]; [|done]. cbn in Hgg.
    injection Hgg as ->. unfold pos_ge. unfold pos_lt in Hlt.
    by rewrite Hlt.
  - rewrite check_coll_guard_of, Hgc by done. cbn [chain_fgetxattr_guard].
    apply check_guard_closed; try done.
  - rewrite check_coll_guard_of, Hgd by done. cbn [chain_fgetxattr_guard].
    apply check_guard_closed; try done.
Qed.

End SplitCollectionProofs.

Section SplitCollectionWitness.
Import ReplayGuard SplitCollection.

Lemma split_not_replayed_witness :
  let e := Engine true false false in
  let st' : gmap string collection :=
    {[ "a"%string := Coll (Some (SPos 7 0 1))
                       (Some (Guard (SPos 7 0 1) (Some false))) ∅;
       "b"%string := Coll None (Some (Guard (SPos 7 0 1) (Some false)))
                       {[ "o"%string := Obj None ]} ]} in
  _split_collection e false (λ _, true) st' "a" "b" (SPos 7 0 1)
  = Some (0, st').
Proof.
  intros e st'.
  apply (split_not_replayed (Engine false false false) e false false
           (λ _, true) (λ _, true)
           {[ "a"%string := Coll None None {[ "o"%string := Obj None ]};
              "b"%string := Coll None None ∅ ]}
           st' "a" "b" (SPos 7 0 1) (SPos 7 0 1) 0).
  - reflexivity.
  - vm_compute; reflexivity.
  - reflexivity.
  - reflexivity.
  - apply pos_le_refl.
Defined.

Lemma split_guards_source_witness :
  let e' := Engine true false false in
  let st' : gmap string collection :=
    {[ "a"%string := Coll (Some (SPos 7 0 1))
                       (Some (Guard (SPos 7 0 1) (Some false))) ∅;
       "b"%string := Coll None (Some (Guard (SPos 7 0 1) (Some false)))
                       {[ "o"%string := Obj None ]} ]} in
  _check_replay_guard_obj e' st' "a" "o" (SPos 6 0 0) = Some (-1)
  /\ _check_replay_guard_coll e' st' "a" (SPos 6 0 0) = Some (-1)
  /\ _check_replay_guard_coll e' st' "b" (SPos 6 0 0) = Some (-1).
Proof.
  intros e' st'.
  apply (split_guards_source (Engine false false false) e' false
           (λ _, true)
           {[ "a"%string := Coll None None {[ "o"%string := Obj None ]};
              "b"%string := Coll None None ∅ ]}
           st' "a" "b" "o" (SPos 7 0 1) (SPos 6 0 0) 0).
  - reflexivity.
  - reflexivity.
  - vm_compute; reflexivity.
  - reflexivity.
  - reflexivity.
  - reflexivity.
Defined.

End SplitCollectionWitness.

(** ** Object data: write, read, zero and truncate *)

Section FileDataProofs.
Import FileData.

Lemma off_t_small x : 0 <= x < 2 ^ 63 -> off_t x = x.
Proof.
  intros Hx. unfold off_t. rewrite Z.mod_small by lia.
  by rewrite (proj2 (Z.ltb_lt x (2 ^ 63))) by lia.
Qed.

Lemma off_t_large x : 2 ^ 63 <= x < 2 ^ 64 -> off_t x < 0.
Proof.
  intros Hx. unfold off_t. rewrite Z.mod_small by lia.
  rewrite (proj2 (Z.ltb_ge x (2 ^ 63))) by lia. lia.
Qed.

Lemma resize_length (content : list Byte.byte) size :
  length (resize content size) = size.
Proof. unfold resize. rewrite length_app, length_take, length_replicate. lia. Qed.

Lemma write_at_split (content : list Byte.byte) off data :
  write_at content off data
  = resize content off ++ data ++ drop (off + length data) content.
Proof. unfold write_at, resize. by rewrite <- app_assoc. Qed.

Lemma to_int_small x : 0 <= x < 2 ^ 31 -> to_int x = x.
Proof.
  intros Hx. unfold to_int. rewrite Z.mod_small by lia. lia.
Qed.

Lemma write_at_length (content : list Byte.byte) off data :
  Z.of_nat (length (write_at content off data))
  = Z.max (Z.of_nat (length content)) (Z.of_nat off + Z.of_nat (length data)).
Proof.
  unfold write_at.
  rewrite !length_app, length_take, length_replicate, length_drop. lia.
Qed.

(** A file that [lfn_open] creates is a new one. *)
Lemma fresh_unused st :
  inodes st !! fresh (used st) = None
  /\ (forall k, index st !! k <> Some (fresh (used st)))
  /\ (forall o, fdcache st !! o <> Some (fresh (used st))).
Proof.
  pose proof (is_fresh (used st)) as Hfresh. unfold used in Hfresh at 2.
  rewrite !not_elem_of_union in Hfresh. destruct Hfresh as [[Hi Hx] Hc].
  split; [by apply not_elem_of_dom|]. split.
  - intros k Hk. apply Hx. apply elem_of_map_img. by exists k.
  - intros o Ho. apply Hc. apply elem_of_map_img. by exists o.
Qed.

Lemma same_files_refl st : same_files st st.
Proof. done. Qed.

Lemma fdcache_add_files replaying st oid fd :
  same_files st (fdcache_add replaying st oid fd)
  /\ (fdcache (fdcache_add replaying st oid fd) = fdcache st
      \/ fdcache (fdcache_add replaying st oid fd) = <[oid := fd]> (fdcache st)).
Proof.
  unfold fdcache_add. destruct replaying; (split; [done|]); [by left|by right].
Qed.

Lemma fdcache_add_agrees replaying st cid oid fd :
  index st !! (cid, oid) = Some fd ->
  cache_agrees replaying (fdcache_add replaying st oid fd) cid oid.
Proof.
  intros Hfd. unfold cache_agrees, fdcache_add.
  destruct replaying; [by left|right]. cbn [fdcache index].
  intros fd'. rewrite lookup_insert_eq. by intros [= <-].
Qed.

(** What [lfn_open] does when the fd cache does not stand in the way. *)
Lemma lfn_open_spec replaying st cid oid create :
  cid ∈ colls st -> cache_agrees replaying st cid oid ->
  match index st !! (cid, oid) with
  | Some fd =>
      exists st1, lfn_open replaying st cid oid create = (0, Some fd, st1)
        /\ same_files st st1 /\ cache_agrees replaying st1 cid oid
        /\ (fdcache st1 = fdcache st \/ fdcache st1 = <[oid := fd]> (fdcache st))
  | None =>
      if create then
        exists st1,
          lfn_open replaying st cid oid create
          = (0, Some (fresh (used st)), st1)
          /\ colls st1 = colls st
          /\ index st1 = <[(cid, oid) := fresh (used st)]> (index st)
          /\ inodes st1 = <[fresh (used st) := []]> (inodes st)
          /\ cache_agrees replaying st1 cid oid
          /\ (fdcache st1 = fdcache st
              \/ fdcache st1 = <[oid := fresh (used st)]> (fdcache st))
      else lfn_open replaying st cid oid create = (- ENOENT, None, st)
  end.
Proof.
  intros Hc Hagree. unfold lfn_open. rewrite (bool_decide_eq_true_2 _ Hc).
  destruct (index st !! (cid, oid)) as [fd|] eqn:Hidx.
  - destruct (if replaying then None else fdcache st !! oid) as [fd'|] eqn:Hhit.
    + destruct replaying; [done|]. destruct Hagree as [|Hagree]; [done|].
      pose proof (Hagree _ Hhit) as Hsame. rewrite Hidx in Hsame.
      injection Hsame as <-. exists st. split; [done|]. split; [done|].
      split; [by right|by left].
    + exists (fdcache_add replaying st oid fd). split; [done|].
      split; [apply fdcache_add_files|].
      split; [by apply fdcache_add_agrees|apply fdcache_add_files].
  - assert ((if replaying then None else fdcache st !! oid) = None) as ->.
    { destruct replaying; [done|]. destruct Hagree as [|Hagree]; [done|].
      destruct (fdcache st !! oid) as [fd'|] eqn:Hhit; [|done].
      by rewrite (Hagree _ eq_refl) in Hidx. }
    destruct create; [|done].
    eexists. split; [done|].
    set (st1 := Store _ _ _ _).
    destruct (fdcache_add_files replaying st1 oid (fresh (used st)))
      as [(Hco & Hix & Hin) Hca].
    split; [by rewrite Hco|]. split; [by rewrite Hix|].
    split; [by rewrite Hin|]. split; [|exact Hca].
    apply fdcache_add_agrees. unfold st1. cbn [index].
    apply lookup_insert_eq.
Qed.

(** [lfn_open] with [O_CREAT] succeeds in a collection that exists,
    whatever the fd cache holds. *)
Lemma lfn_open_create_ok replaying st cid oid :
  cid ∈ colls st ->
  exists fd st1, lfn_open replaying st cid oid true = (0, Some fd, st1).
Proof.
  intros Hc. unfold lfn_open. rewrite (bool_decide_eq_true_2 _ Hc).
  destruct (if replaying then None else fdcache st !! oid);
    [by eexists _, _|].
  destruct (index st !! (cid, oid)); by eexists _, _.
Qed.

(** The write of some bytes at a valid offset, once the file is open. *)
Lemma write_open replaying st cid oid offset len bl fd st1 :
  lfn_open replaying st cid oid true = (0, Some fd, st1) ->
  0 <= offset -> bl <> [] ->
  offset + Z.of_nat (length bl) < 2 ^ 63 ->
  Z.of_nat (length bl) < 2 ^ 31 ->
  _write replaying st cid oid offset len bl
  = (Z.of_nat (length bl),
     put st1 fd (write_at (content_of st1 fd) (Z.to_nat offset) bl)).
Proof.
  intros Hopen Hoff Hbl Hend Hint. unfold _write. rewrite Hopen.
  change (0 <? 0) with false. cbv iota.
  rewrite off_t_small by lia.
  rewrite (proj2 (Z.ltb_ge offset 0)) by lia. cbv zeta.
  rewrite (proj2 (Z.ltb_ge offset 0)) by lia.
  rewrite Z.eqb_refl. cbn [negb]. unfold write_fd.
  rewrite (bool_decide_eq_false_2 _ Hbl).
  rewrite (proj2 (Z.leb_le _ _)) by lia.
  change (0 =? 0) with true. cbv iota.
  by rewrite to_int_small by lia.
Qed.

(** What a write of some bytes at a valid offset does. *)
Lemma write_spec replaying st cid oid offset len bl :
  cid ∈ colls st -> cache_agrees replaying st cid oid ->
  0 <= offset -> bl <> [] ->
  offset + Z.of_nat (length bl) < 2 ^ 63 ->
  Z.of_nat (length bl) < 2 ^ 31 ->
  exists fd st',
    _write replaying st cid oid offset len bl = (Z.of_nat (length bl), st')
    /\ colls st' = colls st
    /\ index st' = <[(cid, oid) := fd]> (index st)
    /\ inodes st'
       = <[fd := write_at (default [] (object_bytes st cid oid))
                   (Z.to_nat offset) bl]> (inodes st)
    /\ cache_agrees replaying st' cid oid
    /\ (fdcache st' = fdcache st \/ fdcache st' = <[oid := fd]> (fdcache st))
    /\ (index st !! (cid, oid) = Some fd
        \/ index st !! (cid, oid) = None /\ fd = fresh (used st)).
Proof.
  intros Hc Hagree Hoff Hbl Hend Hint.
  pose proof (lfn_open_spec replaying st cid oid true Hc Hagree) as Hopen.
  unfold object_bytes.
  destruct (index st !! (cid, oid)) as [fd|] eqn:Hidx.
  - destruct Hopen as (st1 & Hopen & (Hco & Hix & Hin) & Hag & Hca).
    exists fd. eexists. split; [by eapply write_open|].
    unfold put. cbn [colls index inodes fdcache fmap option_fmap option_map
                     default from_option id].
    split; [done|]. split; [by rewrite Hix, insert_id|].
    split; [unfold content_of; by rewrite Hin|].
    split; [|split; [done|by left]].
    destruct Hag as [Hag|Hag]; [by left|right]. exact Hag.
  - destruct Hopen as (st1 & Hopen & Hco & Hix & Hin & Hag & Hca).
    exists (fresh (used st)). eexists. split; [by eapply write_open|].
    unfold put. cbn [colls index inodes fdcache fmap option_fmap option_map
                     default from_option id].
    split; [done|]. split; [done|]. split.
    { unfold content_of. rewrite Hin, lookup_insert_eq.
      cbn [default from_option id]. by rewrite insert_insert_eq. }
    split; [|split; [done|by right]].
    destruct Hag as [Hag|Hag]; [by left|right]. exact Hag.
Qed.

(** The file of the written object and its bytes, after the write. *)
Lemma write_spec_lookup st st' cid oid fd new :
  index st' = <[(cid, oid) := fd]> (index st) ->
  inodes st' = <[fd := new]> (inodes st) ->
  index st' !! (cid, oid) = Some fd /\ content_of st' fd = new
  /\ object_bytes st' cid oid = Some new.
Proof.
  intros Hix Hin. unfold object_bytes, content_of.
  rewrite Hix, Hin, lookup_insert_eq. cbn. by rewrite lookup_insert_eq.
Qed.

(** Reading an object that exists. *)
Lemma read_existing fe replaying st cid oid fd offset len out allow data :
  cid ∈ colls st -> cache_agrees replaying st cid oid ->
  index st !! (cid, oid) = Some fd ->
  0 <= offset < 2 ^ 63 ->
  take (Z.to_nat (if len =? 0 then Z.of_nat (length (content_of st fd))
                  else len))
    (drop (Z.to_nat offset) (content_of st fd)) = data ->
  Z.of_nat (length data) < 2 ^ 31 ->
  exists st1,
    read fe false replaying st cid oid offset len out allow
    = Some (Z.of_nat (length data), out ++ data, st1)
    /\ same_files st st1.
Proof.
  intros Hc Hagree Hidx Hoff Hdata Hint.
  pose proof (lfn_open_spec replaying st cid oid false Hc Hagree) as Hopen.
  rewrite Hidx in Hopen. destruct Hopen as (st1 & Hopen & Hsame & _).
  exists st1. split; [|done]. unfold read, safe_pread. rewrite Hopen.
  change (0 <? 0) with false. cbv iota.
  assert (content_of st1 fd = content_of st fd) as ->.
  { unfold content_of. destruct Hsame as (_ & _ & ->). done. }
  rewrite off_t_small by done.
  rewrite (proj2 (Z.ltb_ge offset 0)) by lia. rewrite andb_false_r.
  rewrite Hdata. rewrite to_int_small by lia.
  rewrite (proj2 (Z.ltb_ge (Z.of_nat (length data)) 0)) by lia.
  by rewrite Nat2Z.id, firstn_all.
Qed.

(** An object whose file is not the one written keeps its bytes. *)
Lemma frame_bytes st st' cid oid fd new c o :
  index st' = <[(cid, oid) := fd]> (index st) ->
  inodes st' = <[fd := new]> (inodes st) ->
  index st' !! (c, o) <> Some fd ->
  index st' !! (c, o) = index st !! (c, o)
  /\ object_bytes st' c o = object_bytes st c o.
Proof.
  intros Hix Hin Hne. rewrite Hix in Hne.
  assert (index st' !! (c, o) = index st !! (c, o)) as Hsame.
  { rewrite Hix. destruct (decide ((cid, oid) = (c, o))) as [Heq|Hk].
    - injection Heq as <- <-. by rewrite lookup_insert_eq in Hne.
    - by rewrite lookup_insert_ne. }
  split; [done|]. unfold object_bytes. rewrite Hsame.
  rewrite <- Hsame, Hix. destruct (<[(cid, oid):=fd]> (index st) !! (c, o))
    as [fd'|] eqn:Hfd'; [|done].
  cbn. f_equal. unfold content_of. rewrite Hin.
  rewrite lookup_insert_ne; [done|]. by intros <-.
Qed.

(** X20.  When the fd cache does not stand in the way, a write of some
    bytes at an offset returns their number, whatever [len] says, and
    creates the object if need be; a read of that range gives the bytes
    back; the bytes before the offset are the old ones, with zeros where
    the object was shorter.  No other name of the index changes; the
    objects of the same file, its hard links, have the new bytes, and all
    other objects keep theirs. *)
Theorem write_then_read (fe allow replaying : bool) (st : store)
    (cid oid : string) (offset len : Z) (bl out : list Byte.byte) :
  cid ∈ colls st -> cache_agrees replaying st cid oid ->
  0 <= offset -> bl <> [] ->
  offset + Z.of_nat (length bl) < 2 ^ 63 ->
  Z.of_nat (length bl) < 2 ^ 31 ->
  exists st' fd,
    _write replaying st cid oid offset len bl = (Z.of_nat (length bl), st')
    /\ index st' !! (cid, oid) = Some fd
    /\ (exists st'',
          read fe false replaying st' cid oid offset (Z.of_nat (length bl))
            out allow
          = Some (Z.of_nat (length bl), out ++ bl, st'')
          /\ same_files st' st'')
    /\ (0 < offset < 2 ^ 31 ->
        exists st'',
          read fe false replaying st' cid oid 0 offset out allow
          = Some (offset,
                  out ++ resize (default [] (object_bytes st cid oid))
                           (Z.to_nat offset), st'')
          /\ same_files st' st'')
    /\ (forall c o, (c, o) <> (cid, oid) ->
          index st' !! (c, o) = index st !! (c, o))
    /\ (forall c o, index st' !! (c, o) = Some fd ->
          object_bytes st' c o = object_bytes st' cid oid)
    /\ (forall c o, index st' !! (c, o) <> Some fd ->
          object_bytes st' c o = object_bytes st c o).
Proof.
  intros Hc Hagree Hoff Hbl Hend Hint.
  destruct (write_spec replaying st cid oid offset len bl)
    as (fd & st' & Hw & Hco & Hix & Hin & Hag & _ & _); try done.
  destruct (write_spec_lookup _ _ _ _ _ _ Hix Hin) as (Hfd & Hnew & Hob).
  assert (cid ∈ colls st') as Hc' by (by rewrite Hco).
  set (old := default [] (object_bytes st cid oid)) in *.
  assert (length bl <> 0%nat) as Hlen by (by destruct bl).
  exists st', fd. split; [done|]. split; [done|].
  split; [|split; [|split; [|split]]].
  - destruct (read_existing fe replaying st' cid oid fd offset
                (Z.of_nat (length bl)) out allow bl) as (st'' & Hr & Hsame);
      try done; try lia; [|by exists st''].
    rewrite Hnew, (proj2 (Z.eqb_neq _ 0)), Nat2Z.id by lia.
    rewrite write_at_split, drop_app_length' by (by rewrite resize_length).
    by rewrite take_app_length.
  - intros Hpos.
    destruct (read_existing fe replaying st' cid oid fd 0 offset out allow
                (resize old (Z.to_nat offset))) as (st'' & Hr & Hsame);
      try done; try lia.
    + rewrite Hnew, (proj2 (Z.eqb_neq offset 0)) by lia.
      change (Z.to_nat 0) with 0%nat. rewrite drop_0.
      by rewrite write_at_split, take_app_length'
        by (by rewrite resize_length).
    + rewrite resize_length. lia.
    + exists st''. split; [|done]. rewrite Hr, resize_length.
      do 3 f_equal. lia.
  - intros c o Hne. rewrite Hix. by rewrite lookup_insert_ne.
  - intros c o Hlink. unfold object_bytes. by rewrite Hlink, Hfd.
  - intros c o Hne. by eapply frame_bytes.
Qed.

(** X21.  When the fd cache does not stand in the way, after a write the
    object exists and its size is the larger of the old size and the end
    of the written range: a write inside the object does not cut it. *)
Theorem write_extends_size (fe allow replaying : bool) (st : store)
    (cid oid : string) (offset len : Z) (bl : list Byte.byte) :
  cid ∈ colls st -> cache_agrees replaying st cid oid ->
  0 <= offset -> bl <> [] ->
  offset + Z.of_nat (length bl) < 2 ^ 63 ->
  Z.of_nat (length bl) < 2 ^ 31 ->
  exists st',
    _write replaying st cid oid offset len bl = (Z.of_nat (length bl), st')
    /\ stat fe false st' cid oid allow
       = Some (0, Some (Z.max (Z.of_nat (length
                                   (default [] (object_bytes st cid oid))))
                         (offset + Z.of_nat (length bl))))
    /\ exists_ fe false st' cid oid = Some true.
Proof.
  intros Hc Hagree Hoff Hbl Hend Hint.
  destruct (write_spec replaying st cid oid offset len bl)
    as (fd & st' & Hw & Hco & Hix & Hin & _); try done.
  destruct (write_spec_lookup _ _ _ _ _ _ Hix Hin) as (Hfd & Hnew & _).
  exists st'. split; [done|].
  assert (forall a, stat fe false st' cid oid a
          = Some (0, Some (Z.max (Z.of_nat (length
                                   (default [] (object_bytes st cid oid))))
                            (offset + Z.of_nat (length bl))))) as Hstat.
  { intros a. unfold stat, lfn_stat. rewrite Hco.
    rewrite (bool_decide_eq_true_2 _ Hc), Hfd, Hnew.
    rewrite write_at_length, Z2Nat.id by done.
    change (0 =? - EIO) with false. cbn [negb]. by rewrite !orb_true_r. }
  split; [apply Hstat|]. unfold exists_. by rewrite Hstat.
Qed.

(** X22.  A write opens the object as [_touch] does, with [O_CREAT],
    before it looks at the offset and the data: with an empty buffer it
    returns 0, with an offset from 2^63 on it returns [-EINVAL], and in
    both cases the store is the one [_touch] leaves, in replay and outside
    it, whatever the fd cache holds. *)
Theorem write_edge_cases (replaying : bool) (st : store) (cid oid : string)
    (offset len : Z) (bl : list Byte.byte) :
  cid ∈ colls st -> 0 <= offset < 2 ^ 64 ->
  (bl = [] -> offset < 2 ^ 63 ->
   _write replaying st cid oid offset len bl
   = (0, (_touch replaying st cid oid).2))
  /\ (2 ^ 63 <= offset ->
      _write replaying st cid oid offset len bl
      = (- EINVAL, (_touch replaying st cid oid).2)).
Proof.
  intros Hc Hoff. unfold _write, _touch.
  destruct (lfn_open_create_ok replaying st cid oid Hc) as (fd & st1 & ->).
  cbn [snd]. change (0 <? 0) with false. cbv iota. split.
  - intros -> Hsmall. rewrite off_t_small by lia.
    rewrite (proj2 (Z.ltb_ge offset 0)) by lia. cbv zeta.
    rewrite (proj2 (Z.ltb_ge offset 0)) by lia.
    rewrite Z.eqb_refl. cbn [negb].
    unfold write_fd. by rewrite bool_decide_eq_true_2 by done.
  - intros Hlarge. pose proof (off_t_large offset ltac:(lia)) as Hneg.
    by rewrite (proj2 (Z.ltb_lt (off_t offset) 0)) by done.
Qed.

Lemma put_files st fd content :
  colls (put st fd content) = colls st
  /\ index (put st fd content) = index st
  /\ fdcache (put st fd content) = fdcache st
  /\ content_of (put st fd content) fd = content.
Proof.
  unfold put, content_of. cbn [colls index inodes fdcache].
  by rewrite lookup_insert_eq.
Qed.

(** X23.  When the fd cache does not stand in the way and the kernel
    answers [EOPNOTSUPP] to the hole punching, [_zero] writes zeros over
    the range: it returns [len] and not 0, the bytes around the range
    stay, the object grows when the range ends beyond it, and the range
    reads as zeros.  On an object that the collection does not have
    [_zero] returns [-ENOENT] and creates nothing. *)
Theorem zero_fallback_writes_zeros
    (fallocate_punch_hole : list Byte.byte -> Z -> Z -> Z * list Byte.byte)
    (replaying : bool) (st : store) (cid oid : string) (offset len : Z) :
  cid ∈ colls st -> cache_agrees replaying st cid oid ->
  0 <= offset -> 0 < len < 2 ^ 31 ->
  offset + len < 2 ^ 63 ->
  (forall old,
     object_bytes st cid oid = Some old ->
     fallocate_punch_hole old offset len = (- EOPNOTSUPP, old) ->
     exists st',
       _zero fallocate_punch_hole replaying st cid oid offset len = (len, st')
       /\ object_bytes st' cid oid
          = Some (write_at old (Z.to_nat offset)
                    (replicate (Z.to_nat len) Byte.x00))
       /\ exists st'',
            read false false replaying st' cid oid offset len [] false
            = Some (len, replicate (Z.to_nat len) Byte.x00, st'')
            /\ same_files st' st'')
  /\ (index st !! (cid, oid) = None ->
      _zero fallocate_punch_hole replaying st cid oid offset len
      = (- ENOENT, st)).
Proof.
  intros Hc Hagree Hoff Hlen Hend.
  pose proof (lfn_open_spec replaying st cid oid false Hc Hagree) as Hopen.
  split.
  - intros old Hold Hpunch. unfold object_bytes in Hold.
    destruct (index st !! (cid, oid)) as [fd|] eqn:Hidx; [|done].
    injection Hold as Hold.
    destruct Hopen as (st1 & Hopen & (Hco & Hix & Hin) & Hag & _).
    unfold _zero. rewrite Hopen. change (0 <? 0) with false. cbv iota.
    assert (content_of st1 fd = old) as ->.
    { unfold content_of. by rewrite Hin. }
    rewrite Hpunch.
    replace (- EOPNOTSUPP =? 0) with false by reflexivity.
    rewrite Z.eqb_refl. cbn [negb].
    destruct (put_files st1 fd old) as (Hco2 & Hix2 & Hca2 & Hold2).
    set (st2 := put st1 fd old) in *.
    assert (replicate (Z.to_nat len) Byte.x00 <> []) as Hne.
    { destruct (Z.to_nat len) eqn:Hn; [lia|done]. }
    assert (index st2 !! (cid, oid) = Some fd) as Hidx2.
    { by rewrite Hix2, Hix. }
    destruct (write_spec replaying st2 cid oid offset len
                (replicate (Z.to_nat len) Byte.x00))
      as (fd' & st' & Hw & Hco' & Hix' & Hin' & Hag' & _ & Hfd'); try done.
    { by rewrite Hco2, Hco. }
    1,2: rewrite length_replicate; lia.
    destruct Hfd' as [Hfd'|[Hfd' _]]; rewrite Hidx2 in Hfd'; [|done].
    injection Hfd' as <-.
    rewrite length_replicate, Z2Nat.id in Hw by lia.
    assert (default [] (object_bytes st2 cid oid) = old) as Hold3.
    { unfold object_bytes. rewrite Hidx2. cbn. exact Hold2. }
    rewrite Hold3 in Hin'.
    destruct (write_spec_lookup _ _ _ _ _ _ Hix' Hin') as (Hfd & Hnew & Hob).
    exists st'. split; [done|]. split; [done|].
    destruct (read_existing false replaying st' cid oid fd offset len []
                false (replicate (Z.to_nat len) Byte.x00))
      as (st'' & Hr & Hsame); try done; try lia.
    { by rewrite Hco', Hco2, Hco. }
    { rewrite Hnew, (proj2 (Z.eqb_neq len 0)) by lia.
      rewrite write_at_split, drop_app_length'
        by (by rewrite resize_length).
      by rewrite take_app_length' by (by rewrite length_replicate). }
    { rewrite length_replicate. lia. }
    rewrite length_replicate, Z2Nat.id in Hr by lia. by exists st''.
  - intros Hnone. rewrite Hnone in Hopen. unfold _zero. by rewrite Hopen.
Qed.

(** X24.  When the fd cache does not stand in the way, after [_truncate]
    to [size] a read of the whole object gives [size] bytes: the first
    bytes of the old content, followed by zeros when the object was
    shorter.  No name of the index changes; the objects of the same file,
    its hard links, are cut or extended with it, and all other objects
    keep their bytes.  On an object that the collection does not have
    [_truncate] returns [-ENOENT] and creates nothing. *)
Theorem truncate_then_read (fe allow replaying : bool) (st : store)
    (cid oid : string) (size : Z) (out : list Byte.byte) :
  cid ∈ colls st -> cache_agrees replaying st cid oid ->
  0 <= size < 2 ^ 31 ->
  (forall fd,
     index st !! (cid, oid) = Some fd ->
     exists st',
       _truncate replaying st cid oid size = (0, st')
       /\ index st' = index st
       /\ (exists st'',
             read fe false replaying st' cid oid 0 0 out allow
             = Some (size, out ++ resize (content_of st fd) (Z.to_nat size),
                     st'')
             /\ same_files st' st'')
       /\ (forall c o, index st !! (c, o) = Some fd ->
             object_bytes st' c o
             = Some (resize (content_of st fd) (Z.to_nat size)))
       /\ (forall c o, index st !! (c, o) <> Some fd ->
             object_bytes st' c o = object_bytes st c o))
  /\ (index st !! (cid, oid) = None ->
      _truncate replaying st cid oid size = (- ENOENT, st)).
Proof.
  intros Hc Hagree Hsize.
  pose proof (lfn_open_spec replaying st cid oid false Hc Hagree) as Hopen.
  split.
  - intros fd Hidx. rewrite Hidx in Hopen.
    destruct Hopen as (st1 & Hopen & (Hco & Hix & Hin) & Hag & _).
    unfold _truncate. rewrite Hopen. change (0 <? 0) with false. cbv iota.
    rewrite off_t_small by lia.
    rewrite (proj2 (Z.ltb_ge size 0)) by lia.
    assert (content_of st1 fd = content_of st fd) as ->.
    { unfold content_of. by rewrite Hin. }
    set (new := resize (content_of st fd) (Z.to_nat size)).
    destruct (put_files st1 fd new) as (Hco2 & Hix2 & Hca2 & Hnew).
    assert (inodes (put st1 fd new) = <[fd := new]> (inodes st)) as Hin2.
    { unfold put. cbn [inodes]. by rewrite Hin. }
    set (st' := put st1 fd new) in *.
    assert (index st' = <[(cid, oid) := fd]> (index st)) as Hix3.
    { by rewrite Hix2, Hix, insert_id. }
    exists st'. split; [done|]. split; [by rewrite Hix2|].
    split; [|split].
    + destruct (read_existing fe replaying st' cid oid fd 0 0 out allow new)
        as (st'' & Hr & Hsame); try done; try lia.
      { by rewrite Hco2, Hco. }
      { by rewrite Hix2, Hix. }
      { rewrite Hnew, Z.eqb_refl, Nat2Z.id. change (Z.to_nat 0) with 0%nat.
        by rewrite drop_0, take_ge by lia. }
      { unfold new. rewrite resize_length. lia. }
      unfold new in Hr at 1. rewrite resize_length, Z2Nat.id in Hr by lia.
      by exists st''.
    + intros c o Hlink. unfold object_bytes.
      rewrite Hix2, Hix, Hlink. cbn. by rewrite Hnew.
    + intros c o Hne. eapply frame_bytes; [exact Hix3|exact Hin2|].
      by rewrite Hix2, Hix.
  - intros Hnone. rewrite Hnone in Hopen. unfold _truncate.
    by rewrite Hopen.
Qed.

(** X28.  Outside replay a write of some bytes to an object for which the
    fd cache holds a descriptor goes to the file of that descriptor,
    whatever the collection: the index is not asked and does not change.
    When the collection has no such object, none is created there, and
    [stat] and [exists] of the object written still answer that there is
    none. *)
Theorem write_through_cached_descriptor (fe allow : bool) (st : store)
    (cid oid : string) (fd : positive) (offset len : Z)
    (bl : list Byte.byte) :
  cid ∈ colls st -> fdcache st !! oid = Some fd ->
  0 <= offset -> bl <> [] ->
  offset + Z.of_nat (length bl) < 2 ^ 63 ->
  Z.of_nat (length bl) < 2 ^ 31 ->
  let st' := put st fd (write_at (content_of st fd) (Z.to_nat offset) bl) in
  _write false st cid oid offset len bl = (Z.of_nat (length bl), st')
  /\ index st' = index st
  /\ (index st !! (cid, oid) = None ->
      stat fe false st' cid oid allow = Some (- ENOENT, None)
      /\ exists_ fe false st' cid oid = Some false).
Proof.
  intros Hc Hhit Hoff Hbl Hend Hint st'.
  split; [|split; [done|]].
  - apply write_open; try done. unfold lfn_open.
    by rewrite (bool_decide_eq_true_2 _ Hc), Hhit.
  - intros Hnone.
    assert (forall a, stat fe false st' cid oid a = Some (- ENOENT, None))
      as Hstat.
    { intros a. unfold stat, lfn_stat. unfold st', put. cbn [colls index].
      rewrite (bool_decide_eq_true_2 _ Hc), Hnone.
      replace (- ENOENT =? - EIO) with false by reflexivity.
      cbn [negb]. by rewrite !orb_true_r. }
    split; [apply Hstat|]. unfold exists_. by rewrite Hstat.
Qed.

(** X29.  After [lfn_link] gave an object a second name, a write through
    the new name is a write to the object of the old name: both names
    find the same file, the bytes of the old name are the old ones with
    the written bytes at the offset, and a read through the old name gives
    the written bytes back. *)
Theorem link_shares_data (fe allow replaying : bool) (st st1 : store)
    (c newcid o newoid : string) (offset len : Z)
    (bl out : list Byte.byte) :
  lfn_link st c newcid o newoid = (0, st1) ->
  cache_agrees replaying st1 c o ->
  cache_agrees replaying st1 newcid newoid ->
  0 <= offset -> bl <> [] ->
  offset + Z.of_nat (length bl) < 2 ^ 63 ->
  Z.of_nat (length bl) < 2 ^ 31 ->
  exists st2 fd,
    _write replaying st1 newcid newoid offset len bl
    = (Z.of_nat (length bl), st2)
    /\ index st !! (c, o) = Some fd
    /\ index st2 !! (c, o) = Some fd
    /\ index st2 !! (newcid, newoid) = Some fd
    /\ object_bytes st2 c o
       = Some (write_at (default [] (object_bytes st c o))
                 (Z.to_nat offset) bl)
    /\ exists st3,
         read fe false replaying st2 c o offset (Z.of_nat (length bl))
           out allow
         = Some (Z.of_nat (length bl), out ++ bl, st3)
         /\ same_files st2 st3.
Proof.
  intros Hlink Hag1 Hag2 Hoff Hbl Hend Hint. unfold lfn_link in Hlink.
  destruct (bool_decide (c ∈ colls st)) eqn:Hc; [|done].
  destruct (bool_decide (newcid ∈ colls st)) eqn:Hn; [|done].
  apply bool_decide_eq_true_1 in Hc, Hn. cbn [andb negb] in Hlink.
  destruct (index st !! (c, o)) as [fd|] eqn:Hold; [|done].
  destruct (index st !! (newcid, newoid)) as [?|] eqn:Hnew; [done|].
  injection Hlink as <-.
  set (st1 := Store _ _ _ _) in *.
  assert (index st1 !! (newcid, newoid) = Some fd) as Hidx1.
  { unfold st1. cbn [index]. apply lookup_insert_eq. }
  assert ((c, o) <> (newcid, newoid)) as Hne.
  { intros Heq. rewrite Heq in Hold. by rewrite Hold in Hnew. }
  assert (index st1 !! (c, o) = Some fd) as Hidx0.
  { unfold st1. cbn [index]. by rewrite lookup_insert_ne. }
  destruct (write_spec replaying st1 newcid newoid offset len bl)
    as (fd' & st2 & Hw & Hco & Hix & Hin & Hag & Hca & Hfd'); try done.
  destruct Hfd' as [Hfd'|[Hfd' _]]; rewrite Hidx1 in Hfd'; [|done].
  injection Hfd' as <-.
  assert (default [] (object_bytes st1 newcid newoid)
          = default [] (object_bytes st c o)) as Hsame.
  { unfold object_bytes. by rewrite Hidx1, Hold. }
  rewrite Hsame in Hin.
  destruct (write_spec_lookup _ _ _ _ _ _ Hix Hin) as (Hfd & Hcont & Hob).
  assert (index st2 !! (c, o) = Some fd) as Hidx2.
  { rewrite Hix. by rewrite lookup_insert_ne. }
  assert (length bl <> 0%nat) as Hlen by (by destruct bl).
  exists st2, fd. split; [done|]. split; [done|]. split; [done|].
  split; [done|]. split.
  { unfold object_bytes. rewrite Hidx2. cbn. by rewrite Hcont. }
  destruct (read_existing fe replaying st2 c o fd offset
              (Z.of_nat (length bl)) out allow bl) as (st3 & Hr & Hsame3);
    try done; try lia.
  { by rewrite Hco. }
  { destruct Hag1 as [Hag1|Hag1]; [by left|right]. intros fd0 Hhit.
    destruct Hca as [Hca|Hca]; rewrite Hca in Hhit.
    - rewrite Hix, lookup_insert_ne by done. by apply Hag1.
    - destruct (decide (newoid = o)) as [->|Ho].
      + rewrite lookup_insert_eq in Hhit. by injection Hhit as <-.
      + rewrite lookup_insert_ne in Hhit by done.
        rewrite Hix, lookup_insert_ne by done. by apply Hag1. }
  { rewrite Hcont, (proj2 (Z.eqb_neq _ 0)), Nat2Z.id by lia.
    rewrite write_at_split, drop_app_length' by (by rewrite resize_length).
    by rewrite take_app_length. }
  by exists st3.
Qed.

End FileDataProofs.

Section FileDataWitness.
Import FileData.
Import Byte.

Lemma written_agrees : cache_agrees false written "c" "o".
Proof.
  right. intros fd Hfd. vm_compute in Hfd. injection Hfd as <-.
  vm_compute. reflexivity.
Defined.

Lemma write_then_read_witness :
  exists st' st'',
    _write false written "c" "o" 5 9 [x64; x65] = (2, st')
    /\ read false false false st' "c" "o" 5 2 [] false
       = Some (2, [x64; x65], st'')
    /\ object_bytes st' "c" "o"
       = Some [x61; x62; x63; x00; x00; x64; x65].
Proof.
  destruct (write_then_read false false false written "c" "o" 5 9 [x64; x65]
              []) as (st' & fd & Hw & Hfd & (st'' & Hr & _) & _).
  - vm_compute; reflexivity.
  - exact written_agrees.
  - lia.
  - discriminate.
  - simpl; lia.
  - simpl; lia.
  - exists st', st''. split; [exact Hw|]. split; [exact Hr|].
    vm_compute in Hw. injection Hw as <-. vm_compute. reflexivity.
Defined.

Lemma write_extends_size_witness :
  exists st',
    _write false written "c" "o" 7 1 [x61] = (1, st')
    /\ stat false false st' "c" "o" false = Some (0, Some 8)
    /\ exists_ false false st' "c" "o" = Some true.
Proof.
  destruct (write_extends_size false false false written "c" "o" 7 1 [x61])
    as (st' & Hw & Hstat & Hex).
  - vm_compute; reflexivity.
  - exact written_agrees.
  - lia.
  - discriminate.
  - simpl; lia.
  - simpl; lia.
  - exists st'. split; [exact Hw|]. split; [|exact Hex].
    rewrite Hstat. vm_compute. reflexivity.
Defined.

Lemma write_edge_cases_witness :
  _write false written "d" "p" (2 ^ 63) 1 [x61]
  = (- EINVAL, (_touch false written "d" "p").2)
  /\ object_bytes (_touch false written "d" "p").2 "d" "p" = Some [].
Proof.
  split; [|vm_compute; reflexivity].
  destruct (write_edge_cases false written "d" "p" (2 ^ 63) 1 [x61])
    as [_ Hlarge].
  - vm_compute; reflexivity.
  - lia.
  - apply Hlarge. lia.
Defined.

Lemma zero_fallback_writes_zeros_witness :
  let punch := λ (old : list byte) (_ _ : Z), (- EOPNOTSUPP, old) in
  exists st',
    _zero punch false written "c" "o" 1 1 = (1, st')
    /\ object_bytes st' "c" "o" = Some [x61; x00; x63].
Proof.
  intros punch.
  destruct (zero_fallback_writes_zeros punch false written "c" "o" 1 1)
    as [Hzero _].
  - vm_compute; reflexivity.
  - exact written_agrees.
  - lia.
  - lia.
  - lia.
  - destruct (Hzero [x61; x62; x63]) as (st' & Hz & Hobj & _).
    + vm_compute; reflexivity.
    + reflexivity.
    + exists st'. split; [exact Hz|]. rewrite Hobj. reflexivity.
Defined.

Lemma truncate_then_read_witness :
  exists st' st'',
    _truncate false written "c" "o" 5 = (0, st')
    /\ read false false false st' "c" "o" 0 0 [] false
       = Some (5, [x61; x62; x63; x00; x00], st'').
Proof.
  destruct (truncate_then_read false false false written "c" "o" 5 [])
    as [Htrunc _].
  - vm_compute; reflexivity.
  - exact written_agrees.
  - lia.
  - destruct (Htrunc 1%positive) as (st' & Ht & _ & (st'' & Hr & _) & _).
    + vm_compute; reflexivity.
    + exists st', st''. split; [exact Ht|]. rewrite Hr. reflexivity.
Defined.

Lemma write_through_cached_descriptor_witness :
  exists st',
    _write false written "d" "o" 0 1 [x7a] = (1, st')
    /\ object_bytes st' "c" "o" = Some [x7a; x62; x63]
    /\ exists_ false false st' "d" "o" = Some false.
Proof.
  destruct (write_through_cached_descriptor false false written "d" "o"
              1%positive 0 1 [x7a]) as (Hw & _ & Hnone).
  - vm_compute; reflexivity.
  - vm_compute; reflexivity.
  - lia.
  - discriminate.
  - simpl; lia.
  - simpl; lia.
  - eexists. split; [exact Hw|]. split; [vm_compute; reflexivity|].
    apply Hnone. vm_compute; reflexivity.
Defined.

Lemma link_shares_data_witness :
  let st1 := (lfn_link written "c" "d" "o" "o").2 in
  exists st2 st3,
    _write false st1 "d" "o" 1 1 [x7a] = (1, st2)
    /\ object_bytes st2 "c" "o" = Some [x61; x7a; x63]
    /\ read false false false st2 "c" "o" 1 1 [] false
       = Some (1, [x7a], st3).
Proof.
  intros st1.
  destruct (link_shares_data false false false written st1 "c" "d" "o" "o"
              1 1 [x7a] []) as (st2 & fd & Hw & _ & _ & _ & Hob & st3 & Hr & _).
  - vm_compute; reflexivity.
  - right. intros fd Hfd. vm_compute in Hfd. injection Hfd as <-.
    vm_compute. reflexivity.
  - right. intros fd Hfd. vm_compute in Hfd. injection Hfd as <-.
    vm_compute. reflexivity.
  - lia.
  - discriminate.
  - simpl; lia.
  - simpl; lia.
  - exists st2, st3. split; [exact Hw|]. split; [|exact Hr].
    rewrite Hob. vm_compute. reflexivity.
Defined.

End FileDataWitness.

(** ** The copy of a range of bytes *)

Section CopyRangeProofs.
Import FileData CopyRange.







(** X27.  A source or target offset that [lseek64] refuses makes
    [_do_copy_range] return [errno] as it is, a value above 0 and not its
    negation, with both files as they were. *)
Theorem copy_range_bad_offset (from to : fd) (srcoff len dstoff : Z) :
  2 ^ 63 <= srcoff < 2 ^ 64 - 1
  \/ (0 <= srcoff < 2 ^ 63 /\ 2 ^ 63 <= dstoff < 2 ^ 64 - 1) ->
  exists from' to',
    _do_copy_range from to srcoff len dstoff = Some (EINVAL, from', to')
    /\ 0 < EINVAL
    /\ f_bytes from' = f_bytes from /\ f_bytes to' = f_bytes to.
Proof.
  assert (forall x, 2 ^ 63 <= x < 2 ^ 64 - 1 ->
            off_t x < 0 /\ off_t x <> -1) as Hneg.
  { intros x Hx. unfold off_t. rewrite Z.mod_small by lia.
    rewrite (proj2 (Z.ltb_ge x (2 ^ 63))) by lia. lia. }
  intros [Hs|[Hs Hd]]; unfold _do_copy_range, lseek64.
  - destruct (Hneg _ Hs) as [Hlt Hne].
    rewrite (proj2 (Z.ltb_lt (off_t srcoff) 0)) by done.
    rewrite (proj2 (Z.eqb_neq (-1) (off_t srcoff))) by lia.
    cbn [negb]. by eexists _, _.
  - destruct (Hneg _ Hd) as [Hlt Hne].
    rewrite off_t_small by lia.
    rewrite (proj2 (Z.ltb_ge srcoff 0)) by lia.
    rewrite Z.eqb_refl. cbn [negb].
    rewrite (proj2 (Z.ltb_lt (off_t dstoff) 0)) by done.
    rewrite (proj2 (Z.eqb_neq (-1) (off_t dstoff))) by lia.
    cbn [negb]. by eexists _, _.
Qed.

End CopyRangeProofs.

Section CopyRangeWitness.
Import FileData CopyRange.
Import Byte.



Lemma copy_range_bad_offset_witness :
  exists from' to',
    _do_copy_range (Fd [x61] 0) (Fd [] 0) (2 ^ 63) 1 0
    = Some (22, from', to').
Proof.
  destruct (copy_range_bad_offset (Fd [x61] 0) (Fd [] 0) (2 ^ 63) 1 0)
    as (from' & to' & Hr & _).
  - left. lia.
  - by exists from', to'.
Defined.

End CopyRangeWitness.
